(** * Stormwater retention: the raster-algebra pipeline

    A shallow embedding of [natcap/invest/stormwater.py]: the per-block
    operations handed to [pygeoprocessing.raster_calculator]
    ([ratio_op], [volume_op], [avoided_pollutant_load_op], [adjust_op],
    [lte_threshold_op]), the search kernel, and the part of [execute] that
    wires rasters into tasks and into the zonal aggregation.

    Conventions of the embedding.
    - A raster block is the row-major list of its pixels; all blocks given to
      one operation have the same shape, hence the same length.
    - Integer rasters (land cover, soil group, byte flags) hold [Z].
    - Floating-point pixels are modelled by exact rationals [Q]: every
      arithmetic operation is the exact one and there are no NaN or infinite
      pixels. Single precision is modelled in two places where it decides
      what the code does: the radius that [lte_threshold_op] compares with
      is rounded to float32 ([Float32.round]), and the float32 distances
      that [snap_points_to_nearest_stream] minimises are a parameter of its
      model. In [make_search_kernel] the quotient, the hypotenuse and their
      comparison are the exact ones.
    - A Python exception is a [Raise] in the [result] type. *)

From Stdlib Require Import String List ZArith QArith Qround Qabs Bool Lia Lqa.
From Stdlib Require Import Qpower.
From Stdlib Require Import Sorted Reals Qreals.
From Stdlib Require Lra.
Import ListNotations.

Local Open Scope Z_scope.

(** ** Exceptions *)

Inductive exn : Type :=
| IndexError
| ValueError
| ZeroDivisionError.

Inductive result (A : Type) : Type :=
| Ok (a : A)
| Raise (e : exn).

Arguments Ok {A} a.
Arguments Raise {A} e.

Definition bind {A B : Type} (c : result A) (k : A -> result B) : result B :=
  match c with
  | Ok a => k a
  | Raise e => Raise e
  end.

Notation "x <- c ;; k" := (bind c (fun x => k))
  (at level 61, c at next level, right associativity).

(** Run [f] on every element, left to right; the first exception aborts. *)
Fixpoint traverse {A B : Type} (f : A -> result B) (l : list A) : result (list B) :=
  match l with
  | [] => Ok []
  | x :: l' => y <- f x ;; ys <- traverse f l' ;; Ok (y :: ys)
  end.

(** ** Single precision *)

(** [numpy.float32(x)] for a finite [x]: the nearest number with 24
    significant bits and a least exponent of -126 (spacing [2^-149] below
    [2^-126]), ties going to the even significand. The exponent is not
    bounded above: numbers beyond the float32 range stay finite, which
    compares with a float32 number the way an infinity does. *)
Module Float32.

Definition pow2 (e : Z) : Q := ((2 # 1) ^ e)%Q.

(** The [e] with [2^e <= q < 2^(e+1)], for a positive [q]. *)
Definition exponent (q : Q) : Z :=
  let e := Z.log2 (Qnum q) - Z.log2 (Zpos (Qden q)) in
  if Qle_bool (pow2 e) q then e else e - 1.

(** Round to the nearest integer, ties to even. *)
Definition rint (q : Q) : Z :=
  let f := Qfloor q in
  match (q - inject_Z f ?= 1 # 2)%Q with
  | Lt => f
  | Gt => f + 1
  | Eq => if Z.even f then f else f + 1
  end.

(** The exponent of the spacing of the float32 numbers around a positive
    [q]. *)
Definition spacing (q : Q) : Z := Z.max (exponent q) (-126) - 23.

Definition round_pos (q : Q) : Q :=
  let k := spacing q in
  (inject_Z (rint (q / pow2 k)) * pow2 k)%Q.

Definition round (q : Q) : Q :=
  match Qnum q with
  | Z0 => 0%Q
  | Zpos _ => round_pos q
  | Zneg _ => (- round_pos (- q))%Q
  end.

(** The square root of a natural number, rounded to float32. The root is
    first taken to 60 binary places, rounded down, which is more places than
    the rounding to float32 can tell apart for a number below [2^100]. *)
Definition sqrt (n : Z) : Q :=
  round (inject_Z (Z.sqrt (n * 4 ^ 60)) / inject_Z (2 ^ 60)).

(** The length of the integer vector [(x, y)] as a float32 number. *)
Definition hypot (x y : Z) : Q := sqrt (x * x + y * y).

End Float32.

(** ** The numpy operations the module relies on *)

Module Numpy.

Section Masked.
Context {A : Type}.

(** [numpy.full(shape, v)] on a block of [n] pixels. *)
Definition full (n : nat) (v : A) : list A := repeat v n.

(** [arr[mask]]: the elements under a true mask cell, in order. *)
Fixpoint select (arr : list A) (mask : list bool) : list A :=
  match arr, mask with
  | x :: arr', m :: mask' =>
      if m then x :: select arr' mask' else select arr' mask'
  | _, _ => []
  end.

(** [arr[mask] = vals]: the cells under a true mask cell are overwritten
    with the successive elements of [vals]. In this module [vals] is always
    computed from selections under the same mask, so it has one element per
    true cell. *)
Fixpoint assign (arr : list A) (mask : list bool) (vals : list A) : list A :=
  match arr, mask with
  | x :: arr', m :: mask' =>
      if m then
        match vals with
        | v :: vals' => v :: assign arr' mask' vals'
        | [] => x :: assign arr' mask' []
        end
      else x :: assign arr' mask' vals
  | _, _ => arr
  end.

(** Integer indexing along one axis: [arr[i]], where a negative [i] counts
    from the end and anything outside [-n .. n-1] raises IndexError. *)
Definition index (arr : list A) (i : Z) : result A :=
  let n := Z.of_nat (length arr) in
  let j := if i <? 0 then i + n else i in
  if (j <? 0) || (n <=? j) then Raise IndexError
  else match nth_error arr (Z.to_nat j) with
       | Some x => Ok x
       | None => Raise IndexError
       end.
End Masked.

(** Element-wise binary operation on two blocks of the same shape. *)
Fixpoint zip_with {A B C : Type} (f : A -> B -> C) (a : list A) (b : list B) : list C :=
  match a, b with
  | x :: a', y :: b' => f x y :: zip_with f a' b'
  | _, _ => []
  end.

(** [arr[rows, cols]] on a 2D array: one element per index pair. *)
Definition index2 {A : Type} (arr : list (list A)) (rows cols : list Z) : result (list A) :=
  traverse (fun rc => row <- index arr (fst rc) ;; index row (snd rc))
           (zip_with pair rows cols).

(** [numpy.insert(arr, 0, numpy.zeros(arr.shape[0]), axis=1)]. *)
Definition insert_zero_column (arr : list (list Q)) : list (list Q) :=
  map (fun row => 0%Q :: row) arr.

(** [numpy.digitize(x, bins, right=True)] for increasing [bins]: the index
    [i] with [bins[i-1] < x <= bins[i]]; [0] below the first bin and
    [len(bins)] above the last. Written as a scan for the first bin that is
    not below [x]; [searchsorted_left_digitize_right] shows that numpy's
    binary search returns the same index on a sorted list. *)
Fixpoint digitize_right (x : Z) (bins : list Z) : nat :=
  match bins with
  | [] => 0%nat
  | b :: bins' => if x <=? b then 0%nat else S (digitize_right x bins')
  end.

(** [digitize] with [right=True] hands increasing bins to
    [searchsorted(bins, x, side='left')], a binary search for the first
    position whose bin is not below [x]. [fuel] bounds the number of
    halvings; the length of [bins] is always enough. *)
Fixpoint binsearch_left (fuel : nat) (bins : list Z) (x : Z) (lo hi : nat) : nat :=
  match fuel with
  | O => lo
  | S fuel' =>
      if (lo <? hi)%nat then
        let mid := (lo + (hi - lo) / 2)%nat in
        if nth mid bins 0 <? x
        then binsearch_left fuel' bins x (S mid) hi
        else binsearch_left fuel' bins x lo mid
      else lo
  end.

Definition searchsorted_left (bins : list Z) (x : Z) : nat :=
  binsearch_left (length bins) bins x 0 (length bins).

(** [numpy.isclose(a, b)] with the default tolerances:
    [|a - b| <= atol + rtol * |b|], [rtol = 1e-05], [atol = 1e-08]. *)
Definition rtol : Q := 1 # 100000.
Definition atol : Q := 1 # 100000000.

Definition isclose (a b : Q) : bool :=
  Qle_bool (Qabs (a - b)) (atol + rtol * Qabs b).

(** [astype(bool)] on an integer, and the value of a bool in arithmetic. *)
Definition astype_bool (z : Z) : bool := negb (z =? 0).
Definition bool_to_float (b : bool) : Q := if b then 1%Q else 0%Q.

(** [arr != nodata] for one pixel. A raster without a nodata value reports
    [None], and comparing with [None] is true for every pixel. *)
Definition neq_nodata (v : Z) (nodata : option Z) : bool :=
  match nodata with
  | Some n => negb (v =? n)
  | None => true
  end.

End Numpy.

Import Numpy.

(** ** Module constants *)

Definition FLOAT_NODATA : Q := (-1) # 1.
Definition UINT8_NODATA : Z := 255.
Definition UINT16_NODATA : Z := 65535.

(** ** [adjust_op] *)

(** [valid_mask] of [adjust_op], one pixel. *)
Definition adjust_valid (ratio avg : Q) (near_impervious_lulc near_road : Z) : bool :=
  negb (isclose ratio FLOAT_NODATA) &&
  negb (isclose avg FLOAT_NODATA) &&
  negb (near_impervious_lulc =? UINT8_NODATA) &&
  negb (near_road =? UINT8_NODATA).

Fixpoint adjust_valid_mask (ratio_array avg_ratio_array : list Q)
    (near_impervious_lulc_array near_road_array : list Z) : list bool :=
  match ratio_array, avg_ratio_array, near_impervious_lulc_array, near_road_array with
  | r :: rs, a :: avs, i :: is_, d :: ds =>
      adjust_valid r a i d :: adjust_valid_mask rs avs is_ ds
  | _, _, _, _ => []
  end.

(** [~(near_impervious_lulc | near_road).astype(bool)]: the bitwise or of the
    two bytes, cast to bool, then negated. *)
Definition not_impervious (near_impervious_lulc near_road : Z) : bool :=
  negb (astype_bool (Z.lor near_impervious_lulc near_road)).

Definition adjust_op (ratio_array avg_ratio_array : list Q)
    (near_impervious_lulc_array near_road_array : list Z) : list Q :=
  let n := length ratio_array in
  let adjusted_ratio_array := full n FLOAT_NODATA in
  let adjustment_factor_array := full n FLOAT_NODATA in
  let valid_mask :=
    adjust_valid_mask ratio_array avg_ratio_array
                      near_impervious_lulc_array near_road_array in
  let is_not_impervious :=
    zip_with not_impervious
      (select near_impervious_lulc_array valid_mask)
      (select near_road_array valid_mask) in
  let adjustment_factor_array :=
    assign adjustment_factor_array valid_mask
      (zip_with (fun a b => a * bool_to_float b)%Q
         (select avg_ratio_array valid_mask) is_not_impervious) in
  let adjustment_factor_array :=
    assign adjustment_factor_array valid_mask
      (zip_with (fun a b => a * bool_to_float b)%Q
         (select avg_ratio_array valid_mask)
         (zip_with not_impervious
            (select near_impervious_lulc_array valid_mask)
            (select near_road_array valid_mask))) in
  assign adjusted_ratio_array valid_mask
    (zip_with (fun r c => r + (1 - r) * c)%Q
       (select ratio_array valid_mask)
       (select adjustment_factor_array valid_mask)).

(** The value [adjust_op] gives one pixel (see [adjust_op_pixel]). *)
Definition adjustment_factor (avg : Q) (near_impervious_lulc near_road : Z) : Q :=
  (avg * bool_to_float (not_impervious near_impervious_lulc near_road))%Q.

Definition adjusted_ratio (ratio avg : Q) (near_impervious_lulc near_road : Z) : Q :=
  if adjust_valid ratio avg near_impervious_lulc near_road
  then (ratio + (1 - ratio) * adjustment_factor avg near_impervious_lulc near_road)%Q
  else FLOAT_NODATA.

(** ** [volume_op] *)

(** Truth value of [precip_nodata] in [if precip_nodata:]: [None] and a zero
    number are false, every other number is true. *)
Definition truthy (nodata : option Q) : bool :=
  match nodata with
  | Some v => negb (Qeq_bool v 0)
  | None => false
  end.

(** [~numpy.isclose(arr, nodata)], element-wise. *)
Definition not_close (arr : list Q) (nodata : Q) : list bool :=
  map (fun v => negb (isclose v nodata)) arr.

Definition volume_valid_mask (ratio_array precip_array : list Q)
    (precip_nodata : option Q) : list bool :=
  let valid_mask := not_close ratio_array FLOAT_NODATA in
  if truthy precip_nodata then
    match precip_nodata with
    | Some nd => zip_with andb valid_mask (not_close precip_array nd)
    | None => valid_mask
    end
  else valid_mask.

Definition volume_op (ratio_array precip_array : list Q)
    (precip_nodata : option Q) (pixel_area : Q) : list Q :=
  let volume_array := full (length ratio_array) FLOAT_NODATA in
  let valid_mask := volume_valid_mask ratio_array precip_array precip_nodata in
  assign volume_array valid_mask
    (zip_with (fun p r => p * r * pixel_area * (1 # 1000))%Q
       (select precip_array valid_mask)
       (select ratio_array valid_mask)).

(** The mask of [volume_op] at one pixel (see [nth_error_volume_valid_mask]). *)
Definition volume_valid (ratio precip : Q) (precip_nodata : option Q) : bool :=
  negb (isclose ratio FLOAT_NODATA) &&
  match precip_nodata with
  | Some nd => if truthy precip_nodata then negb (isclose precip nd) else true
  | None => true
  end.

(** ** [lookup_ratios] *)

(** [(lulc_array != lulc_nodata) & (soil_group_array != soil_group_nodata)]. *)
Definition ratio_valid (lulc_nodata soil_group_nodata : option Z) (lulc soil_group : Z) : bool :=
  neq_nodata lulc lulc_nodata && neq_nodata soil_group soil_group_nodata.

(** The closure [ratio_op] that [lookup_ratios] hands to the raster
    calculator, with the variables it captures as leading arguments. Here
    [ratio_lookup] is the array as [execute] builds it, one row of four
    ratios per code; the zero column is added first, as in the source. *)
Definition ratio_op (lulc_nodata soil_group_nodata : option Z)
    (ratio_lookup : list (list Q)) (sorted_lucodes : list Z)
    (lulc_array soil_group_array : list Z) : result (list Q) :=
  let ratio_lookup := insert_zero_column ratio_lookup in
  let output_ratio_array := full (length lulc_array) FLOAT_NODATA in
  let valid_mask :=
    zip_with (ratio_valid lulc_nodata soil_group_nodata)
             lulc_array soil_group_array in
  let lulc_index :=
    map (fun c => Z.of_nat (digitize_right c sorted_lucodes))
        (select lulc_array valid_mask) in
  values <- index2 ratio_lookup lulc_index (select soil_group_array valid_mask) ;;
  Ok (assign output_ratio_array valid_mask values).

(** The table lookup [ratio_op] makes for one valid pixel [(code, soil
    group)]: row from the binned code, column from the soil group, in the
    array with the zero column (see [ratio_op_unfold]). *)
Definition lookup_pixel (ratio_lookup : list (list Q)) (sorted_lucodes : list Z)
    (cs : Z * Z) : result Q :=
  row <- index (insert_zero_column ratio_lookup)
               (Z.of_nat (digitize_right (fst cs) sorted_lucodes)) ;;
  index row (snd cs).

(** ** [avoided_pollutant_load_op] *)

Definition load_valid (lulc_nodata : option Z) (lulc : Z) (retention_volume : Q) : bool :=
  neq_nodata lulc lulc_nodata && negb (isclose retention_volume FLOAT_NODATA).

Definition avoided_pollutant_load_op (lulc_array : list Z) (lulc_nodata : option Z)
    (retention_volume_array : list Q) (sorted_lucodes : list Z)
    (emc_array : list Q) : result (list Q) :=
  let load_array := full (length lulc_array) FLOAT_NODATA in
  let valid_mask :=
    zip_with (load_valid lulc_nodata) lulc_array retention_volume_array in
  let lulc_index :=
    map (fun c => Z.of_nat (digitize_right c sorted_lucodes)) lulc_array in
  emc <- traverse (index emc_array) lulc_index ;;
  Ok (assign load_array valid_mask
        (zip_with (fun e v => e * (1 # 1000) * v)%Q
           (select emc valid_mask)
           (select retention_volume_array valid_mask))).

(** ** [retention_value_op] *)

Definition retention_value_op (retention_volume_array : list Q)
    (replacement_cost : Q) : list Q :=
  let value_array := full (length retention_volume_array) FLOAT_NODATA in
  let valid_mask := not_close retention_volume_array FLOAT_NODATA in
  assign value_array valid_mask
    (map (fun v => v * replacement_cost)%Q
       (select retention_volume_array valid_mask)).

(** ** [is_near] *)

(** [array <= threshold], element-wise. [array] is a block of the float32
    distance raster and [threshold] a Python float: numpy converts the
    scalar to the type of the array and compares in float32. *)
Definition lte_threshold_op (array : list Q) (threshold : Q) : list bool :=
  map (fun d => Qle_bool d (Float32.round threshold)) array.

(** A boolean block written to a [GDT_Byte] raster. *)
Definition to_byte (b : bool) : Z := if b then 1 else 0.

Section IsNear.
(** [pygeoprocessing.distance_transform_edt]: for each pixel, the distance
    in pixels to the nearest '1' pixel of the input, written to a float32
    raster. *)
Variable distance_transform_edt : list Z -> list Q.

Definition is_near (input : list Z) (radius : Q) : list Z :=
  let distance := distance_transform_edt input in
  map to_byte (lte_threshold_op distance radius).
End IsNear.

(** ** [make_search_kernel] *)

(** [range(n)] as integers. *)
Definition range (n : nat) : list Z := map Z.of_nat (seq 0 n).

(** [numpy.indices((n, n))]: the grid of first-axis indices and the grid of
    second-axis indices. *)
Definition indices (n : nat) : list (list Z) * list (list Z) :=
  (map (fun i => repeat i n) (range n), repeat (range n) n).

(** Element-wise operations on 2D arrays of one shape. *)
Definition map2d {A B : Type} (f : A -> B) (a : list (list A)) : list (list B) :=
  map (map f) a.
Definition zip_with2d {A B C : Type} (f : A -> B -> C)
    (a : list (list A)) (b : list (list B)) : list (list C) :=
  zip_with (zip_with f) a b.

(** [numpy.hypot(x, y) <= r] on integer offsets [x], [y], decided exactly:
    a negative [r] is below every distance, otherwise the squares are
    compared. The code compares the float64 hypotenuse, which can fall on
    the other side of [r] when the exact length is within float64 resolution
    of it. *)
Definition hypot_le (x y : Z) (r : Q) : bool :=
  Qle_bool 0 r && Qle_bool (inject_Z (x * x + y * y)) (r * r).

(** [radius] is in the units of the raster and [pixel_size] is
    [raster_info['pixel_size'][0]]. The quotient is the exact one, where the
    code has the float64 quotient. *)
Definition make_search_kernel (pixel_size radius : Q) : result (list (list Z)) :=
  if Qeq_bool pixel_size 0 then Raise ZeroDivisionError else
  let pixel_radius := (radius / pixel_size)%Q in
  let pixel_margin := Qfloor pixel_radius in
  let side := pixel_margin * 2 + 1 in
  (* a negative dimension is refused *)
  if side <? 0 then Raise ValueError else
  let '(col_indices, row_indices) := indices (Z.to_nat side) in
  let col_indices := map2d (fun c => c - pixel_margin) col_indices in
  let row_indices := map2d (fun r => r - pixel_margin) row_indices in
  Ok (zip_with2d (fun c r => to_byte (hypot_le c r pixel_radius))
                 col_indices row_indices).

(** ** [raster_average] *)

(** A whole raster is the list of its rows. [raster_get] is [None] outside
    the extent. *)
Definition raster_get {A : Type} (r : list (list A)) (row col : Z) : option A :=
  if (row <? 0) || (col <? 0) then None
  else match nth_error r (Z.to_nat row) with
       | Some line => nth_error line (Z.to_nat col)
       | None => None
       end.

(** Offsets, relative to the middle cell, of the cells a kernel flags. *)
Definition kernel_offsets (kernel : list (list Z)) : list (Z * Z) :=
  let mid_row := Z.of_nat (length kernel) / 2 in
  flat_map (fun '(i, line) =>
    let mid_col := Z.of_nat (length line) / 2 in
    flat_map (fun '(j, k) =>
      if astype_bool k then [(i - mid_row, j - mid_col)] else [])
      (combine (range (length line)) line))
    (combine (range (length kernel)) kernel).

Definition Qsum (l : list Q) : Q := fold_right Qplus 0%Q l.

Definition is_nodata (v nodata : Q) : bool := Qeq_bool v nodata.

(** The source values that count for the pixel at [(row, col)]: those at
    the flagged offsets that are inside the extent and not nodata. *)
Definition contributing (signal : list (list Q)) (nodata : Q)
    (offsets : list (Z * Z)) (row col : Z) : list Q :=
  flat_map (fun '(dr, dc) =>
    match raster_get signal (row + dr) (col + dc) with
    | Some v => if is_nodata v nodata then [] else [v]
    | None => []
    end) offsets.

(** The positions, with their values, that count for the pixel at
    [(row, col)]; [contributing] lists their values. *)
Definition contributing_cells (signal : list (list Q)) (nodata : Q)
    (offsets : list (Z * Z)) (row col : Z) : list (Z * Z * Q) :=
  flat_map (fun '(dr, dc) =>
    match raster_get signal (row + dr) (col + dc) with
    | Some v => if is_nodata v nodata then [] else [(row + dr, col + dc, v)]
    | None => []
    end) offsets.

(** Modelled from the spec: [pygeoprocessing.convolve_2d], called with
    [ignore_nodata_and_edges=True], [normalize_kernel=True],
    [mask_nodata=True] and [target_nodata=FLOAT_NODATA], is an external
    collaborator whose code is not part of this module. Per the
    specification of the neighbourhood average: for every output pixel, sum
    the source values at kernel-flagged offsets, leaving out any cell that is
    nodata or outside the extent, and divide by the number of flagged
    offsets that were not left out; a pixel with no contributing cell is
    nodata, and so is a pixel that is nodata in the source. *)
Definition convolve_2d_pixel (signal : list (list Q)) (signal_nodata : Q)
    (kernel : list (list Z)) (row col : Z) (v : Q) : Q :=
  if is_nodata v signal_nodata then FLOAT_NODATA
  else
    let cells := contributing signal signal_nodata (kernel_offsets kernel) row col in
    match cells with
    | [] => FLOAT_NODATA
    | _ :: _ => (Qsum cells / inject_Z (Z.of_nat (length cells)))%Q
    end.

Definition convolve_2d (signal : list (list Q)) (signal_nodata : Q)
    (kernel : list (list Z)) : list (list Q) :=
  map (fun '(i, line) =>
    map (fun '(j, v) => convolve_2d_pixel signal signal_nodata kernel i j v)
        (combine (range (length line)) line))
    (combine (range (length signal)) signal).

(** [raster_average] on the raster at [raster_path], whose band has nodata
    value [raster_nodata] and pixel size [pixel_size]. *)
Definition raster_average (raster : list (list Q)) (raster_nodata pixel_size : Q)
    (radius : Q) : result (list (list Q)) :=
  search_kernel <- make_search_kernel pixel_size radius ;;
  Ok (convolve_2d raster raster_nodata search_kernel).

(** ** [execute]: which raster feeds which task *)

Module Execute.

(** Keys of the file registry ([INTERMEDIATE_OUTPUTS], [FINAL_OUTPUTS] and
    the per-pollutant load rasters) and the input paths of [args]. Distinct
    keys name distinct files. *)
Inductive path : Type :=
| lulc_path
| soil_group_path
| precipitation_path
| road_centerlines_path
| aggregate_areas_path
| lulc_aligned_path
| soil_group_aligned_path
| precipitation_aligned_path
| reprojected_centerlines_path
| rasterized_centerlines_path
| impervious_lulc_path
| retention_ratio_path
| adjusted_retention_ratio_path
| road_distance_path
| search_kernel_path
| impervious_lulc_distance_path
| near_impervious_lulc_path
| near_road_path
| ratio_average_path
| reprojected_aggregate_areas_path
| retention_volume_path
| infiltration_ratio_path
| infiltration_volume_path
| retention_value_path
| avoided_pollutant_load_path (pollutant : string).

Definition path_eq_dec : forall a b : path, {a = b} + {a <> b}.
Proof. decide equality; apply string_dec. Defined.

Inductive statistic : Type := mean | sum.

(** The per-block operations a [raster_calculator] task may run. *)
Inductive local_op : Type :=
| adjust_op_
| volume_op_
| avoided_pollutant_load_op_
| retention_value_op_.

Inductive ratio_table : Type := retention_ratio_array | infiltration_ratio_array.

(** What a task calls, with the rasters it reads and the file it writes. *)
Inductive call : Type :=
| align_and_resize_raster_stack (inputs outputs : list path)
| lookup_ratios (lulc soil_group : path) (table : ratio_table) (output : path)
| reproject_vector (base target : path)
| new_raster_from_base (base target : path)
| rasterize (vector target : path)
| is_near_ (input distance out : path)
| reclassify_raster (base target : path)
| raster_average_ (raster kernel out : path)
| raster_calculator (inputs : list path) (op : local_op) (target : path)
| aggregate_results (aggregate_areas : path)
    (aggregations : list (path * string * statistic)).

Record args : Type := {
  adjust_retention_ratios : bool;
  (** the biophysical table has the ['ir_a'] column *)
  infiltration_data : bool;
  (** the [x] of every ['emc_x'] column of the biophysical table *)
  pollutants : list string;
  (** [args['replacement_cost']] is present and neither [None] nor [''] *)
  replacement_cost : bool;
  (** [args['aggregate_areas_path']] is present and not empty *)
  aggregate_areas : bool
}.

Definition final_retention_ratio_path (a : args) : path :=
  if adjust_retention_ratios a then adjusted_retention_ratio_path
  else retention_ratio_path.

Definition adjustment_tasks : list call :=
  [ reproject_vector road_centerlines_path reprojected_centerlines_path;
    new_raster_from_base lulc_aligned_path rasterized_centerlines_path;
    rasterize reprojected_centerlines_path rasterized_centerlines_path;
    is_near_ rasterized_centerlines_path road_distance_path near_road_path;
    reclassify_raster lulc_aligned_path impervious_lulc_path;
    is_near_ impervious_lulc_path impervious_lulc_distance_path
             near_impervious_lulc_path;
    raster_average_ retention_ratio_path search_kernel_path ratio_average_path;
    raster_calculator
      [retention_ratio_path; ratio_average_path;
       near_impervious_lulc_path; near_road_path]
      adjust_op_ adjusted_retention_ratio_path ].

Definition retention_volume_task (a : args) : call :=
  raster_calculator [final_retention_ratio_path a; precipitation_aligned_path]
                    volume_op_ retention_volume_path.

Definition infiltration_tasks : list call :=
  [ lookup_ratios lulc_aligned_path soil_group_aligned_path
                  infiltration_ratio_array infiltration_ratio_path;
    raster_calculator [infiltration_ratio_path; precipitation_aligned_path]
                      volume_op_ infiltration_volume_path ].

Definition avoided_load_task (pollutant : string) : call :=
  raster_calculator [lulc_aligned_path; retention_volume_path]
                    avoided_pollutant_load_op_
                    (avoided_pollutant_load_path pollutant).

Definition valuation_task : call :=
  raster_calculator [retention_volume_path] retention_value_op_
                    retention_value_path.

(** The list [data_to_aggregate] as it stands when the aggregation task is
    added. *)
Definition data_to_aggregate (a : args) : list (path * string * statistic) :=
  [ (retention_ratio_path, "RR_mean"%string, mean);
    (retention_volume_path, "RV_sum"%string, sum) ]
  ++ (if infiltration_data a then
        [ (infiltration_ratio_path, "IR_mean"%string, mean);
          (infiltration_volume_path, "IV_sum"%string, sum) ]
      else [])
  ++ map (fun pollutant =>
            (avoided_pollutant_load_path pollutant,
             ("avoided_" ++ pollutant)%string, sum))
         (pollutants a)
  ++ (if replacement_cost a then
        [ (retention_value_path, "val_sum"%string, sum) ]
      else []).

(** The tasks [execute] adds to the graph, in order. *)
Definition execute (a : args) : list call :=
  [ align_and_resize_raster_stack
      [lulc_path; soil_group_path; precipitation_path]
      [lulc_aligned_path; soil_group_aligned_path; precipitation_aligned_path];
    lookup_ratios lulc_aligned_path soil_group_aligned_path
                  retention_ratio_array retention_ratio_path ]
  ++ (if adjust_retention_ratios a then adjustment_tasks else [])
  ++ [ retention_volume_task a ]
  ++ (if infiltration_data a then infiltration_tasks else [])
  ++ map avoided_load_task (pollutants a)
  ++ (if replacement_cost a then [ valuation_task ] else [])
  ++ (if aggregate_areas a then
        [ reproject_vector aggregate_areas_path reprojected_aggregate_areas_path;
          aggregate_results reprojected_aggregate_areas_path (data_to_aggregate a) ]
      else []).

(** The raster aggregated into the field [field_id], if any. *)
Definition aggregated_raster (field_id : string)
    (aggregations : list (path * string * statistic)) : option path :=
  match find (fun t => String.eqb (snd (fst t)) field_id) aggregations with
  | Some t => Some (fst (fst t))
  | None => None
  end.

(** The aggregations handed to [aggregate_results] by a list of tasks. *)
Fixpoint aggregations_of (tasks : list call) : option (list (path * string * statistic)) :=
  match tasks with
  | [] => None
  | aggregate_results _ aggregations :: _ => Some aggregations
  | _ :: tasks' => aggregations_of tasks'
  end.

(** The file a [raster_calculator] task running [op] writes, and what it reads. *)
Fixpoint calculator_task (op : local_op) (target : path) (tasks : list call)
    : option (list path) :=
  match tasks with
  | [] => None
  | raster_calculator inputs op' target' :: tasks' =>
      match op, op' with
      | adjust_op_, adjust_op_ | volume_op_, volume_op_
      | avoided_pollutant_load_op_, avoided_pollutant_load_op_
      | retention_value_op_, retention_value_op_ =>
          if path_eq_dec target target' then Some inputs
          else calculator_task op target tasks'
      | _, _ => calculator_task op target tasks'
      end
  | _ :: tasks' => calculator_task op target tasks'
  end.

End Execute.

(** ** The lookup tables [execute] builds *)

(** One row of the biophysical table: the runoff coefficients ['rc_a'] to
    ['rc_d'] and the infiltration coefficients ['ir_a'] to ['ir_d'] of a
    land-cover code. *)
Record biophysical_row : Type := {
  rc_a : Q; rc_b : Q; rc_c : Q; rc_d : Q;
  ir_a : Q; ir_b : Q; ir_c : Q; ir_d : Q
}.

(** [biophysical_dict]: the rows keyed by ['lucode'], in insertion order. A
    dict holds each key once. [dict_get] is [d[k]]; [None] stands for
    KeyError. *)
Fixpoint dict_get {V : Type} (d : list (Z * V)) (k : Z) : option V :=
  match d with
  | [] => None
  | (k', v) :: d' => if k =? k' then Some v else dict_get d' k
  end.

Definition dict_keys {V : Type} (d : list (Z * V)) : list Z := map fst d.

(** [sorted(keys)] on integers. *)
Fixpoint insert_sorted (x : Z) (l : list Z) : list Z :=
  match l with
  | [] => [x]
  | y :: l' => if x <=? y then x :: l else y :: insert_sorted x l'
  end.

Definition sorted (l : list Z) : list Z := fold_right insert_sorted [] l.

(** [[f(d[k]) for k in ks]], which stops at the first missing key. *)
Fixpoint rows_of {V R : Type} (f : V -> R) (d : list (Z * V)) (ks : list Z)
    : option (list R) :=
  match ks with
  | [] => Some []
  | k :: ks' =>
      match dict_get d k, rows_of f d ks' with
      | Some v, Some rs => Some (f v :: rs)
      | _, _ => None
      end
  end.

(** The table stores runoff coefficients; retention is one minus runoff. *)
Definition retention_ratio_array (biophysical_dict : list (Z * biophysical_row))
    (sorted_lucodes : list Z) : option (list (list Q)) :=
  rows_of (fun row => [1 - rc_a row; 1 - rc_b row; 1 - rc_c row; 1 - rc_d row]%Q)
          biophysical_dict sorted_lucodes.

Definition infiltration_ratio_array (biophysical_dict : list (Z * biophysical_row))
    (sorted_lucodes : list Z) : option (list (list Q)) :=
  rows_of (fun row => [ir_a row; ir_b row; ir_c row; ir_d row])
          biophysical_dict sorted_lucodes.

(** The coefficient of a row for the soil group values 1, 2, 3, 4, which
    stand for the groups A, B, C, D. *)
Definition runoff_coefficient (row : biophysical_row) (soil_group : Z) : Q :=
  if soil_group =? 1 then rc_a row
  else if soil_group =? 2 then rc_b row
  else if soil_group =? 3 then rc_c row
  else rc_d row.

Definition infiltration_coefficient (row : biophysical_row) (soil_group : Z) : Q :=
  if soil_group =? 1 then ir_a row
  else if soil_group =? 2 then ir_b row
  else if soil_group =? 3 then ir_c row
  else ir_d row.

(** ** [execute]: the tasks and their declared dependencies *)

Module TaskGraph.

(** The task handles of [execute]; there is one [avoided_load_task] per
    pollutant. *)
Inductive task : Type :=
| align_task
| retention_ratio_task
| reproject_roads_task
| make_raster_task
| rasterize_centerlines_task
| near_road_task
| impervious_lulc_task
| near_impervious_lulc_task
| average_ratios_task
| adjust_retention_ratio_task
| retention_volume_task
| infiltration_ratio_task
| infiltration_volume_task
| avoided_load_task (pollutant : string)
| valuation_task
| reproject_aggregate_areas_task
| aggregate_task.

Definition final_retention_ratio_task (a : Execute.args) : task :=
  if Execute.adjust_retention_ratios a then adjust_retention_ratio_task
  else retention_ratio_task.

(** [func] and [args] of each task. *)
Definition call_of (a : Execute.args) (t : task) : Execute.call :=
  match t with
  | align_task =>
      Execute.align_and_resize_raster_stack
        [Execute.lulc_path; Execute.soil_group_path; Execute.precipitation_path]
        [Execute.lulc_aligned_path; Execute.soil_group_aligned_path;
         Execute.precipitation_aligned_path]
  | retention_ratio_task =>
      Execute.lookup_ratios Execute.lulc_aligned_path
        Execute.soil_group_aligned_path Execute.retention_ratio_array
        Execute.retention_ratio_path
  | reproject_roads_task =>
      Execute.reproject_vector Execute.road_centerlines_path
        Execute.reprojected_centerlines_path
  | make_raster_task =>
      Execute.new_raster_from_base Execute.lulc_aligned_path
        Execute.rasterized_centerlines_path
  | rasterize_centerlines_task =>
      Execute.rasterize Execute.reprojected_centerlines_path
        Execute.rasterized_centerlines_path
  | near_road_task =>
      Execute.is_near_ Execute.rasterized_centerlines_path
        Execute.road_distance_path Execute.near_road_path
  | impervious_lulc_task =>
      Execute.reclassify_raster Execute.lulc_aligned_path
        Execute.impervious_lulc_path
  | near_impervious_lulc_task =>
      Execute.is_near_ Execute.impervious_lulc_path
        Execute.impervious_lulc_distance_path Execute.near_impervious_lulc_path
  | average_ratios_task =>
      Execute.raster_average_ Execute.retention_ratio_path
        Execute.search_kernel_path Execute.ratio_average_path
  | adjust_retention_ratio_task =>
      Execute.raster_calculator
        [Execute.retention_ratio_path; Execute.ratio_average_path;
         Execute.near_impervious_lulc_path; Execute.near_road_path]
        Execute.adjust_op_ Execute.adjusted_retention_ratio_path
  | retention_volume_task => Execute.retention_volume_task a
  | infiltration_ratio_task =>
      Execute.lookup_ratios Execute.lulc_aligned_path
        Execute.soil_group_aligned_path Execute.infiltration_ratio_array
        Execute.infiltration_ratio_path
  | infiltration_volume_task =>
      Execute.raster_calculator
        [Execute.infiltration_ratio_path; Execute.precipitation_aligned_path]
        Execute.volume_op_ Execute.infiltration_volume_path
  | avoided_load_task pollutant => Execute.avoided_load_task pollutant
  | valuation_task => Execute.valuation_task
  | reproject_aggregate_areas_task =>
      Execute.reproject_vector Execute.aggregate_areas_path
        Execute.reprojected_aggregate_areas_path
  | aggregate_task =>
      Execute.aggregate_results Execute.reprojected_aggregate_areas_path
        (Execute.data_to_aggregate a)
  end.

(** [target_path_list] of each task. *)
Definition target_path_list (t : task) : list Execute.path :=
  match t with
  | align_task =>
      [Execute.lulc_aligned_path; Execute.soil_group_aligned_path;
       Execute.precipitation_aligned_path]
  | retention_ratio_task => [Execute.retention_ratio_path]
  | reproject_roads_task => [Execute.reprojected_centerlines_path]
  | make_raster_task => [Execute.rasterized_centerlines_path]
  | rasterize_centerlines_task => [Execute.rasterized_centerlines_path]
  | near_road_task => [Execute.road_distance_path; Execute.near_road_path]
  | impervious_lulc_task => [Execute.impervious_lulc_path]
  | near_impervious_lulc_task =>
      [Execute.impervious_lulc_distance_path; Execute.near_impervious_lulc_path]
  | average_ratios_task => [Execute.ratio_average_path]
  | adjust_retention_ratio_task => [Execute.adjusted_retention_ratio_path]
  | retention_volume_task => [Execute.retention_volume_path]
  | infiltration_ratio_task => [Execute.infiltration_ratio_path]
  | infiltration_volume_task => [Execute.infiltration_volume_path]
  | avoided_load_task pollutant => [Execute.avoided_pollutant_load_path pollutant]
  | valuation_task => [Execute.retention_value_path]
  | reproject_aggregate_areas_task => [Execute.reprojected_aggregate_areas_path]
  | aggregate_task => [Execute.reprojected_aggregate_areas_path]
  end.

(** [aggregation_task_dependencies] as it stands when the aggregation task
    is added. *)
Definition aggregation_task_dependencies (a : Execute.args) : list task :=
  [retention_volume_task]
  ++ (if Execute.infiltration_data a then [infiltration_volume_task] else [])
  ++ map avoided_load_task (Execute.pollutants a)
  ++ (if Execute.replacement_cost a then [valuation_task] else [])
  ++ [reproject_aggregate_areas_task].

(** [dependent_task_list] of each task. *)
Definition dependent_task_list (a : Execute.args) (t : task) : list task :=
  match t with
  | align_task => []
  | retention_ratio_task => [align_task]
  | reproject_roads_task => []
  | make_raster_task => [align_task]
  | rasterize_centerlines_task => [make_raster_task; reproject_roads_task]
  | near_road_task => [rasterize_centerlines_task]
  | impervious_lulc_task => [align_task]
  | near_impervious_lulc_task => [impervious_lulc_task]
  | average_ratios_task => [retention_ratio_task]
  | adjust_retention_ratio_task =>
      [retention_ratio_task; average_ratios_task;
       near_impervious_lulc_task; near_road_task]
  | retention_volume_task => [align_task; final_retention_ratio_task a]
  | infiltration_ratio_task => [align_task]
  | infiltration_volume_task => [align_task; infiltration_ratio_task]
  | avoided_load_task _ => [retention_volume_task]
  | valuation_task => [retention_volume_task]
  | reproject_aggregate_areas_task => []
  | aggregate_task => aggregation_task_dependencies a
  end.

(** The tasks in the order [execute] adds them. *)
Definition tasks (a : Execute.args) : list task :=
  [align_task; retention_ratio_task]
  ++ (if Execute.adjust_retention_ratios a then
        [reproject_roads_task; make_raster_task; rasterize_centerlines_task;
         near_road_task; impervious_lulc_task; near_impervious_lulc_task;
         average_ratios_task; adjust_retention_ratio_task]
      else [])
  ++ [retention_volume_task]
  ++ (if Execute.infiltration_data a then
        [infiltration_ratio_task; infiltration_volume_task]
      else [])
  ++ map avoided_load_task (Execute.pollutants a)
  ++ (if Execute.replacement_cost a then [valuation_task] else [])
  ++ (if Execute.aggregate_areas a then
        [reproject_aggregate_areas_task; aggregate_task]
      else []).

(** The files a call opens for reading. [rasterize] burns into a raster that
    must exist already. *)
Definition reads (c : Execute.call) : list Execute.path :=
  match c with
  | Execute.align_and_resize_raster_stack inputs _ => inputs
  | Execute.lookup_ratios lulc soil_group _ _ => [lulc; soil_group]
  | Execute.reproject_vector base _ => [base]
  | Execute.new_raster_from_base base _ => [base]
  | Execute.rasterize vector target => [vector; target]
  | Execute.is_near_ input _ _ => [input]
  | Execute.reclassify_raster base _ => [base]
  | Execute.raster_average_ raster _ _ => [raster]
  | Execute.raster_calculator inputs _ _ => inputs
  | Execute.aggregate_results aggregate_areas aggregations =>
      aggregate_areas :: map (fun t => fst (fst t)) aggregations
  end.

(** The files the user supplies in [args]. *)
Definition is_input (p : Execute.path) : Prop :=
  p = Execute.lulc_path \/ p = Execute.soil_group_path \/
  p = Execute.precipitation_path \/ p = Execute.road_centerlines_path \/
  p = Execute.aggregate_areas_path.

(** [depends a t u]: the task graph runs [u] to completion before [t],
    because [u] is in the dependent task list of [t] or of a task [t]
    depends on. *)
Inductive depends (a : Execute.args) : task -> task -> Prop :=
| depends_direct t u :
    In u (dependent_task_list a t) -> depends a t u
| depends_trans t u v :
    In u (dependent_task_list a t) -> depends a u v -> depends a t v.

End TaskGraph.

(** ** [aggregate_results] *)

Module Aggregate.

(** What [zonal_statistics] reports for one feature. *)
Record stats : Type := { sum : Q; count : Z }.

(** A feature of the layer: its FID and its attribute fields. *)
Record feature : Type := { fid : Z; fields : list (string * Q) }.

(** The value written for one feature: the mean is [sum / count], and the
    ZeroDivisionError of a count of zero is caught and replaced by 0.0. *)
Definition aggregate_value (op : Execute.statistic) (s : stats) : Q :=
  match op with
  | Execute.mean => if count s =? 0 then 0%Q else (sum s / inject_Z (count s))%Q
  | Execute.sum => sum s
  end.

Definition get_field (name : string) (f : feature) : option Q :=
  match find (fun kv => String.eqb (fst kv) name) (fields f) with
  | Some kv => Some (snd kv)
  | None => None
  end.

(** [feature.SetField(name, value)] on a layer where the field [name] has
    been created: the field takes the value, the others are kept. *)
Fixpoint set_assoc (name : string) (value : Q) (l : list (string * Q))
    : list (string * Q) :=
  match l with
  | [] => [(name, value)]
  | (k, v) :: l' =>
      if String.eqb k name then (k, value) :: l'
      else (k, v) :: set_assoc name value l'
  end.

Definition set_field (name : string) (value : Q) (f : feature) : feature :=
  {| fid := fid f; fields := set_assoc name value (fields f) |}.

Section AggregateResults.
(** [pygeoprocessing.zonal_statistics] of a raster over the layer, by FID. *)
Variable zonal_statistics : Execute.path -> Z -> stats.

(** One pass of the outer loop: create the field and set it on every
    feature. *)
Definition aggregate_one (layer : list feature)
    (aggregation : Execute.path * string * Execute.statistic) : list feature :=
  let '(raster_path, field_id, op) := aggregation in
  let aggregate_stats := zonal_statistics raster_path in
  map (fun feature =>
         set_field field_id
                   (aggregate_value op (aggregate_stats (fid feature))) feature)
      layer.

Definition aggregate_results (layer : list feature)
    (aggregations : list (Execute.path * string * Execute.statistic))
    : list feature :=
  fold_left aggregate_one aggregations layer.
End AggregateResults.

End Aggregate.

(** ** [delineateit.py] *)

Module DelineateIt.

(** Storing an integer in an [int8] array keeps its low eight bits, read as
    a signed byte (the cast numpy 1.x applies to a Python integer). *)
Definition int8 (z : Z) : Z := (z + 128) mod 256 - 128.

(** [arr[mask] = value] with a scalar on the right. *)
Definition assign_scalar {A : Type} (arr : list A) (mask : list bool) (value : A)
    : list A :=
  zip_with (fun x (m : bool) => if m then value else x) arr mask.

(** [flow_accum > threshold], one pixel. *)
Definition gt_threshold (threshold v : Q) : bool := negb (Qle_bool v threshold).

Definition _threshold_streams (flow_accum : list Q) (src_nodata : Q)
    (out_nodata : Z) (threshold : Q) : list Z :=
  let out_matrix := full (length flow_accum) (int8 out_nodata) in
  let valid_pixels := map (fun v => negb (isclose src_nodata v)) flow_accum in
  let over_threshold := map (gt_threshold threshold) flow_accum in
  let out_matrix :=
    assign_scalar out_matrix (zip_with andb valid_pixels over_threshold) (int8 1) in
  let out_matrix :=
    assign_scalar out_matrix
      (zip_with andb valid_pixels (map negb over_threshold)) (int8 0) in
  out_matrix.

(** The part of the geotransform the snapping uses: origin and pixel size
    along x (entries 0 and 1) and along y (entries 3 and 5). *)
Record geotransform : Type := {
  origin_x : Q; pixel_width : Q; origin_y : Q; pixel_height : Q
}.

(** [band.ReadAsArray(xoff, yoff, xsize, ysize)] on a raster given as the
    list of its rows: [ysize] rows from [yoff], [xsize] columns from [xoff]. *)
Definition ReadAsArray (raster : list (list Z)) (xoff yoff xsize ysize : Z)
    : list (list Z) :=
  map (fun line => firstn (Z.to_nat xsize) (skipn (Z.to_nat xoff) line))
      (firstn (Z.to_nat ysize) (skipn (Z.to_nat yoff) raster)).

(** [numpy.nonzero(window == 1)]: the (row, column) pairs of the cells equal
    to 1, row by row. *)
Definition nonzero_eq_1 (window : list (list Z)) : list (Z * Z) :=
  flat_map (fun '(i, line) =>
    flat_map (fun '(j, v) => if v =? 1 then [(i, j)] else [])
             (combine (range (length line)) line))
    (combine (range (length window)) window).

(** [numpy.argmin] over the distances of a non-empty list of cells: the
    first cell whose distance is the least. *)
Fixpoint argmin (distance : Z * Z -> Q) (best : Z * Z) (cells : list (Z * Z))
    : Z * Z :=
  match cells with
  | [] => best
  | c :: cells' =>
      if Qle_bool (distance best) (distance c)
      then argmin distance best cells'
      else argmin distance c cells'
  end.

Section Snap.
(** [numpy.hypot(x, y, dtype=numpy.float32)] on integer offsets: the length
    of [(x, y)] as computed in float32, in which offsets of different exact
    lengths can come out equal. *)
Variable hypot : Z -> Z -> Q.
Variable gt : geotransform.
Variables n_cols n_rows : Z.
Variable stream_band : list (list Z).
Variable snap_distance : Z.

(** The body of the loop for one point: [Ok None] when the point is skipped
    ([continue]), [Ok (Some p)] with the geometry of the snapped point
    otherwise. Pixel indexes are floats with integral values, kept here as
    integers. *)
Definition snap_point (point : Q * Q) : result (option (Q * Q)) :=
  if Qeq_bool (pixel_width gt) 0 || Qeq_bool (pixel_height gt) 0
  then Raise ZeroDivisionError else
  let x_index := Qfloor ((fst point - origin_x gt) / pixel_width gt) in
  let y_index := Qfloor ((snd point - origin_y gt) / pixel_height gt) in
  if (x_index <? 0) || (n_cols <=? x_index) || (y_index <? 0) || (n_rows <? y_index)
  then Ok None else
  let x_center := x_index in
  let y_center := y_index in
  let x_left := Z.max (x_index - snap_distance) 0 in
  let y_top := Z.max (y_index - snap_distance) 0 in
  let x_right := Z.min (x_index + snap_distance) n_cols in
  let y_bottom := Z.min (y_index + snap_distance) n_rows in
  let stream_window :=
    ReadAsArray stream_band x_left y_top (x_right - x_left) (y_bottom - y_top) in
  let cells := nonzero_eq_1 stream_window in
  let '(x_index, y_index) :=
    match cells with
    | [] => (x_index, y_index)
    | first :: rest =>
        let distance := fun rc : Z * Z =>
          hypot (fst rc - y_center - y_top) (snd rc - x_center - x_left) in
        let '(min_row, min_col) := argmin distance first rest in
        let offset_row := min_row - (y_center - y_top) in
        let offset_col := min_col - (x_center - x_left) in
        (x_index + offset_col, y_index + offset_row)
    end in
  Ok (Some (origin_x gt + (inject_Z x_index + (1 # 2)) * pixel_width gt,
            origin_y gt + (inject_Z y_index + (1 # 2)) * pixel_height gt))%Q.

(** The geometries written to the snapped layer, in the order of the source
    layer; a snap distance that is not positive is refused before any point
    is read. *)
Fixpoint snap_all (points : list (Q * Q)) : result (list (Q * Q)) :=
  match points with
  | [] => Ok []
  | point :: points' =>
      snapped <- snap_point point ;;
      others <- snap_all points' ;;
      Ok (match snapped with
          | Some p => p :: others
          | None => others
          end)
  end.

Definition snap_points_to_nearest_stream (points : list (Q * Q))
    : result (list (Q * Q)) :=
  if snap_distance <=? 0 then Raise ValueError else snap_all points.
End Snap.

(** The centre of the pixel in column [x] and row [y]. *)
Definition pixel_centre (gt : geotransform) (x y : Z) : Q * Q :=
  (origin_x gt + (inject_Z x + (1 # 2)) * pixel_width gt,
   origin_y gt + (inject_Z y + (1 # 2)) * pixel_height gt)%Q.

End DelineateIt.

(** * Properties *)

(** ** Masked selection and assignment *)

Section MaskedFacts.
Context {A : Type}.
Implicit Types (arr out vals : list A) (mask : list bool).

Lemma full_length n (v : A) : length (full n v) = n.
Proof. apply repeat_length. Qed.

Lemma nth_error_full n (v : A) i : (i < n)%nat -> nth_error (full n v) i = Some v.
Proof.
  unfold full. revert i. induction n as [|n IH]; intros [|i] Hi; simpl; try lia.
  - reflexivity.
  - apply IH. lia.
Qed.

Lemma assign_length out mask vals : length (assign out mask vals) = length out.
Proof.
  revert mask vals.
  induction out as [|x out IH]; intros [|m mask] vals; simpl; trivial.
  destruct m; [destruct vals|]; simpl; now rewrite IH.
Qed.

(** Reading back under the mask what was just written under it. *)
Lemma select_assign out mask arr :
  length out = length mask -> length arr = length mask ->
  select (assign out mask (select arr mask)) mask = select arr mask.
Proof.
  revert mask arr.
  induction out as [|x out IH]; intros [|m mask] [|y arr] Ho Ha;
    simpl in *; try discriminate; trivial.
  destruct m; simpl; rewrite IH by lia; reflexivity.
Qed.

(** A pixel of [out[mask] = arr[mask]]. *)
Lemma nth_error_assign_select out mask arr i o m x :
  nth_error out i = Some o -> nth_error mask i = Some m ->
  nth_error arr i = Some x ->
  nth_error (assign out mask (select arr mask)) i = Some (if m then x else o).
Proof.
  revert mask arr i.
  induction out as [|o0 out IH]; intros [|m0 mask] [|x0 arr] [|i] Ho Hm Hx;
    simpl in *; try discriminate.
  - injection Ho as ->. injection Hm as ->. injection Hx as ->.
    destruct m; reflexivity.
  - destruct m0; simpl; apply IH; assumption.
Qed.
End MaskedFacts.

Lemma zip_with_length {A B C} (f : A -> B -> C) a b :
  length a = length b -> length (zip_with f a b) = length a.
Proof.
  revert b. induction a as [|x a IH]; intros [|y b] H; simpl in *;
    try discriminate; trivial.
  now rewrite IH by lia.
Qed.

Lemma nth_error_zip_with {A B C} (f : A -> B -> C) a b i x y :
  nth_error a i = Some x -> nth_error b i = Some y ->
  nth_error (zip_with f a b) i = Some (f x y).
Proof.
  revert b i. induction a as [|x0 a IH]; intros [|y0 b] [|i] Ha Hb;
    simpl in *; try discriminate.
  - now injection Ha as ->; injection Hb as ->.
  - now apply IH.
Qed.

(** Selection commutes with element-wise operations. *)
Lemma select_zip_with {A B C} (f : A -> B -> C) a b mask :
  zip_with f (select a mask) (select b mask) = select (zip_with f a b) mask.
Proof.
  revert a b. induction mask as [|m mask IH]; intros a b.
  - destruct a, b; reflexivity.
  - destruct a as [|x a], b as [|y b]; simpl; trivial.
    + destruct m; [|destruct (select a mask)]; reflexivity.
    + destruct m; simpl; now rewrite IH.
Qed.

Lemma select_map {A B} (f : A -> B) a mask :
  map f (select a mask) = select (map f a) mask.
Proof.
  revert a. induction mask as [|m mask IH]; intros [|x a]; simpl; trivial.
  destruct m; simpl; now rewrite IH.
Qed.

Lemma nth_error_Some_lt {A} (l : list A) i x : nth_error l i = Some x -> (i < length l)%nat.
Proof. intros H. apply nth_error_Some. congruence. Qed.

(** ** The nodata test *)

Lemma isclose_refl (a : Q) : isclose a a = true.
Proof.
  unfold isclose. apply Qle_bool_iff.
  assert (H : (a - a == 0)%Q) by ring.
  rewrite H. simpl Qabs.
  pose proof (Qabs_nonneg a). unfold atol, rtol. nra.
Qed.

(** ** [adjust_op], pixel by pixel *)

Lemma nth_error_adjust_valid_mask rs avs is_ ds i r a ni nr :
  nth_error rs i = Some r -> nth_error avs i = Some a ->
  nth_error is_ i = Some ni -> nth_error ds i = Some nr ->
  nth_error (adjust_valid_mask rs avs is_ ds) i = Some (adjust_valid r a ni nr).
Proof.
  revert avs is_ ds i.
  induction rs as [|r0 rs IH]; intros [|a0 avs] [|i0 is_] [|d0 ds] [|i] Hr Ha Hi Hd;
    simpl in *; try discriminate.
  - congruence.
  - now apply IH.
Qed.

Lemma adjust_valid_mask_length rs avs is_ ds :
  length avs = length rs -> length is_ = length rs -> length ds = length rs ->
  length (adjust_valid_mask rs avs is_ ds) = length rs.
Proof.
  revert avs is_ ds.
  induction rs as [|r0 rs IH]; intros [|a0 avs] [|i0 is_] [|d0 ds] Ha Hi Hd;
    simpl in *; try discriminate; trivial.
  now rewrite IH by lia.
Qed.

Lemma adjust_op_pixel ratio_array avg_ratio_array near_impervious_lulc_array
    near_road_array i r a ni nr :
  length avg_ratio_array = length ratio_array ->
  length near_impervious_lulc_array = length ratio_array ->
  length near_road_array = length ratio_array ->
  nth_error ratio_array i = Some r ->
  nth_error avg_ratio_array i = Some a ->
  nth_error near_impervious_lulc_array i = Some ni ->
  nth_error near_road_array i = Some nr ->
  nth_error (adjust_op ratio_array avg_ratio_array near_impervious_lulc_array
                       near_road_array) i
  = Some (adjusted_ratio r a ni nr).
Proof.
  intros La Li Ld Hr Ha Hi Hd. unfold adjust_op.
  set (mask := adjust_valid_mask _ _ _ _).
  assert (Lm : length mask = length ratio_array)
    by (now apply adjust_valid_mask_length).
  rewrite !select_zip_with.
  set (F := zip_with (fun a b => (a * bool_to_float b)%Q) avg_ratio_array
              (zip_with not_impervious near_impervious_lulc_array near_road_array)).
  assert (LF : length F = length ratio_array).
  { unfold F. rewrite zip_with_length; rewrite ?zip_with_length; lia. }
  pose proof (nth_error_Some_lt _ _ _ Hr) as Hlt.
  assert (HF : nth_error F i = Some (adjustment_factor a ni nr)).
  { unfold F, adjustment_factor.
    apply (nth_error_zip_with (fun x b => (x * bool_to_float b)%Q)
             _ _ _ a (not_impervious ni nr) Ha).
    now apply nth_error_zip_with. }
  assert (Hm : nth_error mask i = Some (adjust_valid r a ni nr))
    by (now apply nth_error_adjust_valid_mask).
  pose proof (nth_error_full (length ratio_array) FLOAT_NODATA i Hlt) as Hfull.
  pose proof (nth_error_assign_select _ _ _ _ _ _ _ Hfull Hm HF) as H1.
  pose proof (nth_error_assign_select _ _ _ _ _ _ _ H1 Hm HF) as H2.
  pose proof (nth_error_zip_with (fun r0 c : Q => (r0 + (1 - r0) * c)%Q)
                _ _ _ _ _ Hr H2) as H3.
  rewrite (nth_error_assign_select _ _ _ _ _ _ _ Hfull Hm H3).
  unfold adjusted_ratio. destruct (adjust_valid r a ni nr); reflexivity.
Qed.

Lemma isclose_Qeq (a b : Q) : (a == b)%Q -> isclose a b = true.
Proof.
  intros H. unfold isclose. apply Qle_bool_iff.
  assert (H0 : (a - b == 0)%Q) by (rewrite H; ring).
  rewrite H0. simpl Qabs.
  pose proof (Qabs_nonneg b). unfold atol, rtol. nra.
Qed.

Lemma not_impervious_true_iff ni nr :
  not_impervious ni nr = true <-> ni = 0 /\ nr = 0.
Proof.
  unfold not_impervious, astype_bool. rewrite negb_involutive, Z.eqb_eq.
  apply Z.lor_eq_0_iff.
Qed.

(** The adjustment factor is the average away from impervious cover and
    roads, and zero next to either. *)
Lemma adjustment_factor_cases avg ni nr :
  (adjustment_factor avg ni nr ==
   if (ni =? 0) && (nr =? 0) then avg else 0)%Q.
Proof.
  unfold adjustment_factor.
  destruct (not_impervious ni nr) eqn:E.
  - apply not_impervious_true_iff in E as [-> ->]. simpl. ring.
  - destruct ((ni =? 0) && (nr =? 0)) eqn:E'.
    + apply andb_true_iff in E' as [H1 H2].
      apply Z.eqb_eq in H1, H2.
      assert (not_impervious ni nr = true)
        by (apply not_impervious_true_iff; now split).
      congruence.
    + simpl. ring.
Qed.

(** C1. At a pixel where the four inputs of the ratio adjuster pass the
    nodata tests of [adjust_op] (the two ratios are not close to
    [FLOAT_NODATA], the two flags differ from [UINT8_NODATA]), the output is
    [base + (1 - base) * factor], where the factor is the neighbourhood
    average when both flags are 0 and 0 otherwise; at a pixel where an input
    is nodata the output is [FLOAT_NODATA]. *)
Theorem adjust_op_blend_or_nodata
    (ratio_array avg_ratio_array : list Q)
    (near_impervious_lulc_array near_road_array : list Z)
    (i : nat) (base avg : Q) (near_impervious near_road : Z) :
  length avg_ratio_array = length ratio_array ->
  length near_impervious_lulc_array = length ratio_array ->
  length near_road_array = length ratio_array ->
  nth_error ratio_array i = Some base ->
  nth_error avg_ratio_array i = Some avg ->
  nth_error near_impervious_lulc_array i = Some near_impervious ->
  nth_error near_road_array i = Some near_road ->
  exists out,
    nth_error (adjust_op ratio_array avg_ratio_array
                 near_impervious_lulc_array near_road_array) i = Some out /\
    (isclose base FLOAT_NODATA = false ->
     isclose avg FLOAT_NODATA = false ->
     near_impervious <> UINT8_NODATA ->
     near_road <> UINT8_NODATA ->
     (out == base + (1 - base) *
               (if (near_impervious =? 0) && (near_road =? 0) then avg else 0))%Q) /\
    ((base == FLOAT_NODATA)%Q \/ (avg == FLOAT_NODATA)%Q \/
     near_impervious = UINT8_NODATA \/ near_road = UINT8_NODATA ->
     out = FLOAT_NODATA) /\
    (adjust_valid base avg near_impervious near_road = false ->
     out = FLOAT_NODATA).
Proof.
  intros La Li Ld Hr Ha Hi Hd.
  exists (adjusted_ratio base avg near_impervious near_road).
  split; [now apply adjust_op_pixel|].
  unfold adjusted_ratio, adjust_valid. repeat split.
  - intros -> -> Hni Hnr.
    apply Z.eqb_neq in Hni, Hnr. rewrite Hni, Hnr. simpl.
    now rewrite adjustment_factor_cases.
  - intros [H | [H | [H | H]]].
    + now rewrite (isclose_Qeq _ _ H).
    + rewrite (isclose_Qeq _ _ H). now rewrite andb_false_r.
    + subst. rewrite Z.eqb_refl. simpl. now rewrite andb_false_r.
    + subst. rewrite Z.eqb_refl. now rewrite andb_false_r.
  - now intros ->.
Qed.

Lemma adjust_op_blend_or_nodata_witness :
  exists out,
    nth_error (adjust_op [1 # 2; (-1) # 1] [1 # 4; 1 # 4] [0; 0] [0; 1]) 0
      = Some out /\
    (isclose (1 # 2) FLOAT_NODATA = false ->
     isclose (1 # 4) FLOAT_NODATA = false ->
     0 <> UINT8_NODATA ->
     0 <> UINT8_NODATA ->
     (out == (1 # 2) + (1 - (1 # 2)) *
               (if (0 =? 0) && (0 =? 0) then 1 # 4 else 0))%Q) /\
    (((1 # 2) == FLOAT_NODATA)%Q \/ ((1 # 4) == FLOAT_NODATA)%Q \/
     0 = UINT8_NODATA \/ 0 = UINT8_NODATA ->
     out = FLOAT_NODATA) /\
    (adjust_valid (1 # 2) (1 # 4) 0 0 = false -> out = FLOAT_NODATA).
Proof.
  apply (adjust_op_blend_or_nodata
           [1 # 2; (-1) # 1] [1 # 4; 1 # 4] [0; 0] [0; 1] 0%nat);
    reflexivity.
Defined.

(** C3. At a valid pixel whose base ratio and adjustment factor both lie in
    [[0, 1]], the adjusted ratio is at least the base ratio and at most 1. *)
Theorem adjust_op_between_base_and_one
    (ratio_array avg_ratio_array : list Q)
    (near_impervious_lulc_array near_road_array : list Z)
    (i : nat) (base avg : Q) (near_impervious near_road : Z) :
  length avg_ratio_array = length ratio_array ->
  length near_impervious_lulc_array = length ratio_array ->
  length near_road_array = length ratio_array ->
  nth_error ratio_array i = Some base ->
  nth_error avg_ratio_array i = Some avg ->
  nth_error near_impervious_lulc_array i = Some near_impervious ->
  nth_error near_road_array i = Some near_road ->
  adjust_valid base avg near_impervious near_road = true ->
  (0 <= base <= 1)%Q ->
  (0 <= adjustment_factor avg near_impervious near_road <= 1)%Q ->
  exists out,
    nth_error (adjust_op ratio_array avg_ratio_array
                 near_impervious_lulc_array near_road_array) i = Some out /\
    (base <= out)%Q /\ (out <= 1)%Q.
Proof.
  intros La Li Ld Hr Ha Hi Hd Hv Hb Hf.
  exists (adjusted_ratio base avg near_impervious near_road).
  split; [now apply adjust_op_pixel|].
  unfold adjusted_ratio. rewrite Hv.
  set (c := adjustment_factor avg near_impervious near_road) in *.
  split; nra.
Qed.

Lemma adjust_op_between_base_and_one_witness :
  exists out,
    nth_error (adjust_op [1 # 2; (-1) # 1] [1 # 4; 1 # 4] [0; 0] [0; 1]) 0
      = Some out /\
    (1 # 2 <= out)%Q /\ (out <= 1)%Q.
Proof.
  apply (adjust_op_between_base_and_one
           [1 # 2; (-1) # 1] [1 # 4; 1 # 4] [0; 0] [0; 1] 0%nat
           (1 # 2) (1 # 4) 0 0); try reflexivity.
  - split; discriminate.
  - split; discriminate.
Defined.

(** ** [volume_op] *)

Lemma nth_error_volume_valid_mask ratio_array precip_array precip_nodata i r p :
  nth_error ratio_array i = Some r -> nth_error precip_array i = Some p ->
  nth_error (volume_valid_mask ratio_array precip_array precip_nodata) i
  = Some (volume_valid r p precip_nodata).
Proof.
  intros Hr Hp. unfold volume_valid_mask, volume_valid, not_close.
  pose proof (map_nth_error (fun v => negb (isclose v FLOAT_NODATA)) _ _ Hr) as Hm.
  destruct precip_nodata as [nd|]; simpl truthy.
  - destruct (negb (Qeq_bool nd 0)); cbv iota.
    + apply nth_error_zip_with; [exact Hm|].
      now apply (map_nth_error (fun v => negb (isclose v nd))).
    + now rewrite Hm, andb_true_r.
  - cbv iota. now rewrite Hm, andb_true_r.
Qed.

Lemma volume_op_pixel ratio_array precip_array precip_nodata pixel_area i r p :
  nth_error ratio_array i = Some r -> nth_error precip_array i = Some p ->
  nth_error (volume_op ratio_array precip_array precip_nodata pixel_area) i
  = Some (if volume_valid r p precip_nodata
          then (p * r * pixel_area * (1 # 1000))%Q else FLOAT_NODATA).
Proof.
  intros Hr Hp. unfold volume_op.
  rewrite select_zip_with.
  apply nth_error_assign_select.
  - apply nth_error_full. eapply nth_error_Some_lt; eauto.
  - now apply nth_error_volume_valid_mask.
  - now apply (nth_error_zip_with (fun p r => (p * r * pixel_area * (1 # 1000))%Q)).
Qed.

(** Away from the zero sentinel, [volume_op] does propagate nodata: a pixel
    whose ratio is [FLOAT_NODATA], or whose precipitation is the (non-zero)
    sentinel of its raster, yields [FLOAT_NODATA]; any pixel that passes
    both tests yields the product. *)
Lemma volume_op_nonzero_sentinel
    ratio_array precip_array nd pixel_area i r p :
  ~ (nd == 0)%Q ->
  nth_error ratio_array i = Some r -> nth_error precip_array i = Some p ->
  exists out,
    nth_error (volume_op ratio_array precip_array (Some nd) pixel_area) i
      = Some out /\
    (isclose r FLOAT_NODATA = false -> isclose p nd = false ->
     out = (p * r * pixel_area * (1 # 1000))%Q) /\
    ((r == FLOAT_NODATA)%Q \/ (p == nd)%Q -> out = FLOAT_NODATA).
Proof.
  intros Hnd Hr Hp. eexists. split; [exact (volume_op_pixel _ _ _ _ _ _ _ Hr Hp)|].
  unfold volume_valid, truthy.
  destruct (Qeq_bool nd 0) eqn:E; [apply Qeq_bool_iff in E; contradiction|].
  simpl negb. cbv iota. split.
  - now intros -> ->.
  - intros [H | H]; rewrite (isclose_Qeq _ _ H); trivial.
    now rewrite andb_false_r.
Qed.

(** With a sentinel equal to zero the precipitation raster is not tested at
    all: the pixel is masked by its ratio alone. *)
Lemma volume_op_zero_sentinel
    ratio_array precip_array nd pixel_area i r p :
  (nd == 0)%Q ->
  nth_error ratio_array i = Some r -> nth_error precip_array i = Some p ->
  isclose r FLOAT_NODATA = false ->
  nth_error (volume_op ratio_array precip_array (Some nd) pixel_area) i
  = Some (p * r * pixel_area * (1 # 1000))%Q.
Proof.
  intros Hnd Hr Hp Hclose.
  rewrite (volume_op_pixel _ _ _ _ _ _ _ Hr Hp).
  unfold volume_valid, truthy.
  apply Qeq_bool_iff in Hnd. now rewrite Hnd, Hclose.
Qed.

(** C2. With a precipitation sentinel of 0 the test [if precip_nodata:]
    is false and the precipitation mask is skipped: a pixel whose
    precipitation equals the sentinel and whose ratio is valid is given the
    product, which is 0, instead of [FLOAT_NODATA]. *)
Theorem volume_op_zero_sentinel_not_propagated :
  let precip_nodata := Some 0%Q in
  let out := volume_op [1 # 2] [0%Q] precip_nodata (400 # 1) in
  nth_error out 0 = Some (0 * (1 # 2) * (400 # 1) * (1 # 1000))%Q /\
  (0 * (1 # 2) * (400 # 1) * (1 # 1000) == 0)%Q /\
  ~ (0 * (1 # 2) * (400 # 1) * (1 # 1000) == FLOAT_NODATA)%Q.
Proof.
  cbv zeta. split; [reflexivity|]. split; [reflexivity|]. discriminate.
Qed.

(** ** Binning and indexing *)

Section Digitize.
Implicit Types (x : Z) (bins : list Z).

Lemma digitize_right_le_length x bins :
  (digitize_right x bins <= length bins)%nat.
Proof.
  induction bins as [|b bins IH]; simpl; [lia|].
  destruct (x <=? b); lia.
Qed.

(** Every bin before the returned index is below [x]. *)
Lemma digitize_right_before x bins j b :
  (j < digitize_right x bins)%nat -> nth_error bins j = Some b -> b < x.
Proof.
  revert j. induction bins as [|b0 bins IH]; intros j Hj Hb; simpl in *; [lia|].
  destruct (x <=? b0) eqn:E; [lia|]. apply Z.leb_gt in E.
  destruct j as [|j]; simpl in Hb.
  - now injection Hb as <-.
  - apply (IH j); [lia | assumption].
Qed.

(** The bin at the returned index, when there is one, is at or above [x]. *)
Lemma digitize_right_at x bins b :
  nth_error bins (digitize_right x bins) = Some b -> x <= b.
Proof.
  induction bins as [|b0 bins IH]; simpl; [discriminate|].
  destruct (x <=? b0) eqn:E; simpl.
  - intros H. injection H as <-. now apply Z.leb_le.
  - exact IH.
Qed.

Lemma digitize_right_above x bins :
  (forall m, In m bins -> m < x) -> digitize_right x bins = length bins.
Proof.
  induction bins as [|b bins IH]; intros H; simpl; trivial.
  destruct (x <=? b) eqn:E.
  - apply Z.leb_le in E. specialize (H b (or_introl eq_refl)). lia.
  - f_equal. apply IH. intros m Hm. apply H. now right.
Qed.

Lemma digitize_right_lt_length x bins m :
  In m bins -> x <= m -> (digitize_right x bins < length bins)%nat.
Proof.
  induction bins as [|b bins IH]; intros Hin Hle; simpl in *; [contradiction|].
  destruct (x <=? b) eqn:E; [lia|]. apply Z.leb_gt in E.
  destruct Hin as [-> | Hin]; [lia|].
  specialize (IH Hin Hle). lia.
Qed.

(** A code of the index is binned to its own row. *)
Lemma digitize_right_present x bins r :
  StronglySorted Z.lt bins -> nth_error bins r = Some x ->
  digitize_right x bins = r.
Proof.
  intros Hs. revert r. induction Hs as [|b bins Hs IH Hall]; intros r Hr.
  - destruct r; discriminate.
  - simpl. destruct r as [|r]; simpl in Hr.
    + injection Hr as ->. now rewrite Z.leb_refl.
    + assert (b < x).
      { rewrite Forall_forall in Hall. apply Hall.
        eapply nth_error_In; eauto. }
      destruct (x <=? b) eqn:E; [apply Z.leb_le in E; lia|].
      f_equal. now apply IH.
Qed.

Lemma sorted_nth_le bins j k a b :
  StronglySorted Z.lt bins -> (j <= k)%nat ->
  nth_error bins j = Some a -> nth_error bins k = Some b -> a <= b.
Proof.
  intros Hs. revert j k. induction Hs as [|b0 bins Hs IH Hall]; intros j k Hjk Ha Hb.
  - destruct j; discriminate.
  - destruct j as [|j], k as [|k]; simpl in *; try lia.
    + injection Ha as <-. injection Hb as <-. lia.
    + injection Ha as <-. rewrite Forall_forall in Hall.
      apply Z.lt_le_incl, Hall. eapply nth_error_In; eauto.
    + apply (IH j k); [lia | assumption | assumption].
Qed.

(** For a sorted index the returned row holds the least code at or above
    [x]. *)
Lemma digitize_right_least x bins b m :
  StronglySorted Z.lt bins ->
  nth_error bins (digitize_right x bins) = Some b ->
  In m bins -> x <= m -> b <= m.
Proof.
  intros Hs Hb Hin Hle.
  apply In_nth_error in Hin as [j Hj].
  destruct (Nat.lt_ge_cases j (digitize_right x bins)) as [Hlt | Hge].
  - pose proof (digitize_right_before _ _ _ _ Hlt Hj). lia.
  - eapply sorted_nth_le; eauto.
Qed.
End Digitize.

(** On a sorted index the binary search of [searchsorted] and the scan of
    [digitize_right] find the same position. *)
Lemma binsearch_left_digitize_right bins x fuel lo hi :
  StronglySorted Z.lt bins ->
  (hi - lo <= fuel)%nat ->
  (lo <= digitize_right x bins <= hi)%nat -> (hi <= length bins)%nat ->
  binsearch_left fuel bins x lo hi = digitize_right x bins.
Proof.
  intros Hs. revert lo hi.
  induction fuel as [|fuel IH]; intros lo hi Hfuel Hk Hhi;
    cbn [binsearch_left]; [lia|].
  destruct (lo <? hi)%nat eqn:E; [apply Nat.ltb_lt in E | apply Nat.ltb_ge in E; lia].
  cbv zeta. set (mid := (lo + (hi - lo) / 2)%nat).
  assert (Hmid : (lo <= mid < hi)%nat).
  { unfold mid. split; [lia|].
    assert ((hi - lo) / 2 < hi - lo)%nat by (apply Nat.div_lt; lia). lia. }
  assert (Hnth : nth_error bins mid = Some (nth mid bins 0))
    by (apply nth_error_nth'; lia).
  destruct (nth mid bins 0 <? x) eqn:Ex.
  - apply Z.ltb_lt in Ex. apply IH; try lia.
    destruct (Nat.lt_ge_cases mid (digitize_right x bins)) as [Hlt | Hge]; [lia|].
    exfalso.
    destruct (nth_error bins (digitize_right x bins)) as [b|] eqn:Eb.
    + pose proof (digitize_right_at _ _ _ Eb).
      pose proof (sorted_nth_le _ _ _ _ _ Hs Hge Eb Hnth). lia.
    + apply nth_error_None in Eb. lia.
  - apply Z.ltb_ge in Ex. apply IH; try lia.
    destruct (Nat.lt_ge_cases mid (digitize_right x bins)) as [Hlt | Hge]; [|lia].
    pose proof (digitize_right_before _ _ _ _ Hlt Hnth). lia.
Qed.

Lemma searchsorted_left_digitize_right bins x :
  StronglySorted Z.lt bins -> searchsorted_left bins x = digitize_right x bins.
Proof.
  intros Hs. unfold searchsorted_left.
  apply binsearch_left_digitize_right; trivial; try lia.
  pose proof (digitize_right_le_length x bins). lia.
Qed.

Section Index.
Context {A : Type}.

Lemma index_of_nat (arr : list A) k v :
  nth_error arr k = Some v -> index arr (Z.of_nat k) = Ok v.
Proof.
  intros H. pose proof (nth_error_Some_lt _ _ _ H) as Hlt.
  unfold index.
  destruct (Z.of_nat k <? 0) eqn:E1; [apply Z.ltb_lt in E1; lia|].
  rewrite E1. simpl.
  destruct (Z.of_nat (length arr) <=? Z.of_nat k) eqn:E2;
    [apply Z.leb_le in E2; lia|].
  now rewrite Nat2Z.id, H.
Qed.

Lemma index_in_range (arr : list A) j :
  0 <= j < Z.of_nat (length arr) ->
  exists v, nth_error arr (Z.to_nat j) = Some v /\ index arr j = Ok v.
Proof.
  intros Hj.
  destruct (nth_error arr (Z.to_nat j)) as [v|] eqn:E.
  - exists v. split; trivial.
    rewrite <- (Z2Nat.id j) by lia. now apply index_of_nat.
  - apply nth_error_None in E. lia.
Qed.

Lemma index_past_end (arr : list A) :
  index arr (Z.of_nat (length arr)) = Raise IndexError.
Proof.
  unfold index.
  destruct (Z.of_nat (length arr) <? 0) eqn:E1; [apply Z.ltb_lt in E1; lia|].
  rewrite E1, Z.leb_refl. reflexivity.
Qed.

Lemma index_raises (arr : list A) j e : index arr j = Raise e -> e = IndexError.
Proof.
  unfold index.
  destruct (_ || _); [congruence|].
  destruct (nth_error _ _); congruence.
Qed.
End Index.

(** ** Exceptions raised inside a block *)

Section Traverse.
Context {A B : Type}.
Variable f : A -> result B.

Lemma traverse_ok_all (l : list A) ys :
  traverse f l = Ok ys -> forall x, In x l -> exists y, f x = Ok y.
Proof.
  revert ys. induction l as [|x0 l IH]; intros ys H x Hin; [contradiction|].
  simpl in H. destruct (f x0) as [y0|e] eqn:E0; simpl in H; [|discriminate].
  destruct (traverse f l) as [ys'|e] eqn:E1; simpl in H; [|discriminate].
  destruct Hin as [<- | Hin]; eauto.
Qed.

Lemma traverse_all_ok (l : list A) :
  (forall x, In x l -> exists y, f x = Ok y) -> exists ys, traverse f l = Ok ys.
Proof.
  induction l as [|x0 l IH]; intros H; simpl; [now exists []|].
  destruct (H x0 (or_introl eq_refl)) as [y0 ->].
  destruct IH as [ys ->]; [intros x Hx; apply H; now right|].
  simpl. eauto.
Qed.

Lemma traverse_raise (l : list A) e :
  traverse f l = Raise e -> exists x, In x l /\ f x = Raise e.
Proof.
  induction l as [|x0 l IH]; simpl; [discriminate|].
  destruct (f x0) as [y0|e0] eqn:E0; simpl.
  - destruct (traverse f l) as [ys|e1]; simpl; [discriminate|].
    intros H. injection H as <-.
    destruct IH as [x [Hin Hx]]; trivial. exists x. split; [now right | trivial].
  - intros H. injection H as <-. exists x0. split; [now left | trivial].
Qed.

(** A pixel of [out[mask] = vals] when [vals] was computed from
    [arr[mask]], element by element. *)
Lemma nth_error_assign_traverse (out : list B) mask (arr : list A) vals i o m x :
  traverse f (select arr mask) = Ok vals ->
  nth_error out i = Some o -> nth_error mask i = Some m ->
  nth_error arr i = Some x ->
  if m then exists y, f x = Ok y /\ nth_error (assign out mask vals) i = Some y
  else nth_error (assign out mask vals) i = Some o.
Proof.
  revert mask arr vals i.
  induction out as [|o0 out IH]; intros [|m0 mask] [|x0 arr] vals [|i] Ht Ho Hm Hx;
    simpl in *; try discriminate.
  - injection Ho as ->. injection Hm as ->. injection Hx as ->.
    destruct m; trivial. simpl in Ht.
    destruct (f x) as [y|e]; simpl in Ht; [|discriminate].
    destruct (traverse f (select arr mask)) as [ys|e]; simpl in Ht; [|discriminate].
    injection Ht as <-. eauto.
  - destruct m0.
    + simpl in Ht.
      destruct (f x0) as [y0|e]; simpl in Ht; [|discriminate].
      destruct (traverse f (select arr mask)) as [ys|e] eqn:E; simpl in Ht;
        [|discriminate].
      injection Ht as <-.
      specialize (IH mask arr ys i E Ho Hm Hx).
      destruct m; simpl; exact IH.
    + specialize (IH mask arr vals i Ht Ho Hm Hx).
      destruct m; simpl; exact IH.
Qed.
End Traverse.

Lemma In_select {A} (arr : list A) mask x :
  In x (select arr mask) <->
  exists i, nth_error mask i = Some true /\ nth_error arr i = Some x.
Proof.
  revert mask. induction arr as [|x0 arr IH]; intros [|m mask]; simpl.
  - split; [contradiction | intros [[|i] [H _]]; discriminate].
  - split; [contradiction | intros [[|i] [_ H]]; discriminate].
  - split; [contradiction | intros [[|i] [H _]]; discriminate].
  - destruct m; simpl; rewrite IH; split.
    + intros [<- | [i [Hm Hx]]]; [now exists 0%nat | now exists (S i)].
    + intros [[|i] [Hm Hx]]; simpl in *; [left; congruence | right; eauto].
    + intros [i [Hm Hx]]. now exists (S i).
    + intros [[|i] [Hm Hx]]; simpl in *; [discriminate | eauto].
Qed.

(** ** [ratio_op] *)

Section RatioOp.
Variables (lulc_nodata soil_group_nodata : option Z).
Variables (ratio_lookup : list (list Q)) (sorted_lucodes : list Z).
Variables (lulc_array soil_group_array : list Z).

Let valid_mask :=
  zip_with (ratio_valid lulc_nodata soil_group_nodata) lulc_array soil_group_array.

Lemma ratio_op_unfold :
  ratio_op lulc_nodata soil_group_nodata ratio_lookup sorted_lucodes
           lulc_array soil_group_array
  = (values <- traverse (lookup_pixel ratio_lookup sorted_lucodes)
                 (select (zip_with pair lulc_array soil_group_array) valid_mask) ;;
     Ok (assign (full (length lulc_array) FLOAT_NODATA) valid_mask values)).
Proof.
  unfold ratio_op, index2. fold valid_mask.
  assert (E : zip_with pair
                (map (fun c => Z.of_nat (digitize_right c sorted_lucodes))
                     (select lulc_array valid_mask))
                (select soil_group_array valid_mask)
              = map (fun cs => (Z.of_nat (digitize_right (fst cs) sorted_lucodes),
                                snd cs))
                    (select (zip_with pair lulc_array soil_group_array) valid_mask)).
  { rewrite <- select_zip_with.
    generalize (select lulc_array valid_mask), (select soil_group_array valid_mask).
    induction l as [|c l IH]; intros [|s l0]; simpl; trivial.
    now rewrite IH. }
  rewrite E.
  assert (T : forall l,
    traverse (fun rc : Z * Z =>
                row <- index (insert_zero_column ratio_lookup) (fst rc) ;;
                index row (snd rc))
             (map (fun cs => (Z.of_nat (digitize_right (fst cs) sorted_lucodes),
                              snd cs)) l)
    = traverse (lookup_pixel ratio_lookup sorted_lucodes) l).
  { induction l as [|x l IH]; simpl; trivial. now rewrite IH. }
  now rewrite T.
Qed.

(** [ratio_op] returns exactly when the lookup of every valid pixel is in
    range; pixels outside the mask are never looked up. *)
Lemma ratio_op_returns :
  (forall i c s, nth_error lulc_array i = Some c ->
                 nth_error soil_group_array i = Some s ->
                 ratio_valid lulc_nodata soil_group_nodata c s = true ->
                 exists v, (lookup_pixel ratio_lookup sorted_lucodes) (c, s) = Ok v) ->
  exists out,
    ratio_op lulc_nodata soil_group_nodata ratio_lookup sorted_lucodes
             lulc_array soil_group_array = Ok out.
Proof.
  intros H. rewrite ratio_op_unfold.
  destruct (traverse_all_ok (lookup_pixel ratio_lookup sorted_lucodes)
              (select (zip_with pair lulc_array soil_group_array) valid_mask))
    as [vals ->]; [|simpl; eauto].
  intros [c s] Hin. apply In_select in Hin as [i [Hm Hx]].
  assert (Hc : exists c', nth_error lulc_array i = Some c').
  { destruct (nth_error lulc_array i) eqn:E; eauto.
    apply nth_error_None in E.
    assert (i < length (zip_with pair lulc_array soil_group_array))%nat
      by (eapply nth_error_Some_lt; eauto).
    exfalso. revert H0 E. clear. revert soil_group_array i.
    induction lulc_array as [|a l IH]; intros [|b l'] i; simpl; try lia.
    destruct i; [lia|]. intros. apply (IH l' i); lia. }
  assert (Hs : exists s', nth_error soil_group_array i = Some s').
  { destruct (nth_error soil_group_array i) eqn:E; eauto.
    apply nth_error_None in E.
    assert (i < length (zip_with pair lulc_array soil_group_array))%nat
      by (eapply nth_error_Some_lt; eauto).
    exfalso. revert H0 E. clear. revert soil_group_array i.
    induction lulc_array as [|a l IH]; intros [|b l'] i; simpl; try lia.
    destruct i; [lia|]. intros. apply (IH l' i); lia. }
  destruct Hc as [c' Hc], Hs as [s' Hs].
  rewrite (nth_error_zip_with pair _ _ _ _ _ Hc Hs) in Hx. injection Hx as -> ->.
  apply (H i c s Hc Hs).
  unfold valid_mask in Hm.
  rewrite (nth_error_zip_with _ _ _ _ _ _ Hc Hs) in Hm. congruence.
Qed.

(** A pixel of the block [ratio_op] returns. *)
Lemma ratio_op_pixel out i c s :
  ratio_op lulc_nodata soil_group_nodata ratio_lookup sorted_lucodes
           lulc_array soil_group_array = Ok out ->
  nth_error lulc_array i = Some c -> nth_error soil_group_array i = Some s ->
  if ratio_valid lulc_nodata soil_group_nodata c s
  then exists v, (lookup_pixel ratio_lookup sorted_lucodes) (c, s) = Ok v /\ nth_error out i = Some v
  else nth_error out i = Some FLOAT_NODATA.
Proof.
  rewrite ratio_op_unfold. intros H Hc Hs.
  destruct (traverse (lookup_pixel ratio_lookup sorted_lucodes) _) as [vals|e] eqn:E; simpl in H; [|discriminate].
  injection H as <-.
  apply (nth_error_assign_traverse (lookup_pixel ratio_lookup sorted_lucodes)
           (full (length lulc_array) FLOAT_NODATA) valid_mask _ vals i
           FLOAT_NODATA _ (c, s) E).
  - apply nth_error_full. eapply nth_error_Some_lt; eauto.
  - unfold valid_mask. now apply nth_error_zip_with.
  - now apply nth_error_zip_with.
Qed.

(** One out-of-range lookup at a valid pixel makes the whole block fail. *)
Lemma ratio_op_raises i c s :
  nth_error lulc_array i = Some c -> nth_error soil_group_array i = Some s ->
  ratio_valid lulc_nodata soil_group_nodata c s = true ->
  (lookup_pixel ratio_lookup sorted_lucodes) (c, s) = Raise IndexError ->
  ratio_op lulc_nodata soil_group_nodata ratio_lookup sorted_lucodes
           lulc_array soil_group_array = Raise IndexError.
Proof.
  intros Hc Hs Hv Hl. rewrite ratio_op_unfold.
  destruct (traverse (lookup_pixel ratio_lookup sorted_lucodes) _) as [vals|e] eqn:E; simpl.
  - assert (Hin : In (c, s) (select (zip_with pair lulc_array soil_group_array)
                                    valid_mask)).
    { apply In_select. exists i. split.
      - unfold valid_mask.
        rewrite (nth_error_zip_with _ _ _ _ _ _ Hc Hs). now rewrite Hv.
      - now apply nth_error_zip_with. }
    destruct (traverse_ok_all _ _ _ E _ Hin) as [y Hy]. congruence.
  - apply traverse_raise in E as [[c' s'] [_ Hx]].
    unfold lookup_pixel in Hx.
    destruct (index (insert_zero_column ratio_lookup) _) as [row|e'] eqn:E1;
      simpl in Hx.
    + apply index_raises in Hx. now subst.
    + injection Hx as <-. apply index_raises in E1. now subst.
Qed.
End RatioOp.

Lemma traverse_raises_uniform {A B} (f : A -> result B) (l : list A) x e :
  (forall x' e', f x' = Raise e' -> e' = e) ->
  In x l -> f x = Raise e -> traverse f l = Raise e.
Proof.
  intros Hu Hin Hx.
  destruct (traverse f l) as [ys|e'] eqn:E.
  - destruct (traverse_ok_all f l ys E x Hin) as [y Hy]. congruence.
  - apply traverse_raise in E as [x' [_ Hx']]. now rewrite (Hu _ _ Hx').
Qed.

Lemma insert_zero_column_length arr :
  length (insert_zero_column arr) = length arr.
Proof. apply length_map. Qed.

(** A code at or below some code of the index, with a soil group among the
    columns 0..4, is looked up without error: the row is the one the code is
    binned to and the column is the soil group. *)
Lemma lookup_pixel_in_table ratio_lookup sorted_lucodes c s m :
  length ratio_lookup = length sorted_lucodes ->
  (forall row, In row ratio_lookup -> length row = 4%nat) ->
  In m sorted_lucodes -> c <= m -> 0 <= s <= 4 ->
  exists line v,
    nth_error (insert_zero_column ratio_lookup)
              (digitize_right c sorted_lucodes) = Some line /\
    nth_error line (Z.to_nat s) = Some v /\
    lookup_pixel ratio_lookup sorted_lucodes (c, s) = Ok v.
Proof.
  intros Hlen Hrows Hin Hle Hs.
  pose proof (digitize_right_lt_length _ _ _ Hin Hle) as Hlt.
  destruct (nth_error (insert_zero_column ratio_lookup)
                      (digitize_right c sorted_lucodes)) as [line|] eqn:E.
  2:{ apply nth_error_None in E. rewrite insert_zero_column_length in E. lia. }
  assert (Hl : length line = 5%nat).
  { unfold insert_zero_column in E.
    apply nth_error_In, in_map_iff in E as [row [<- Hrow]].
    simpl. now rewrite (Hrows row Hrow). }
  destruct (index_in_range line s) as [v [Hv Hi]]; [lia|].
  exists line, v. repeat split; trivial.
  unfold lookup_pixel. simpl fst. simpl snd.
  now rewrite (index_of_nat _ _ _ E).
Qed.

(** A code above every code of the index is binned one past the end of the
    dense array. *)
Lemma lookup_pixel_above ratio_lookup sorted_lucodes c s :
  length ratio_lookup = length sorted_lucodes ->
  (forall m, In m sorted_lucodes -> m < c) ->
  lookup_pixel ratio_lookup sorted_lucodes (c, s) = Raise IndexError.
Proof.
  intros Hlen Habove. unfold lookup_pixel. simpl fst.
  rewrite (digitize_right_above _ _ Habove), <- Hlen,
    <- insert_zero_column_length, index_past_end.
  reflexivity.
Qed.

(** C5, as amended. [ratio_op] looks a whole block up at once. When every
    valid pixel of the block carries a code no greater than the largest code
    of the sorted index and a soil group among the columns 0..4, it returns,
    and every valid pixel holds the entry of the dense array at the pixel's
    soil-group column and at the row of the least code at or above the
    pixel's code: the code's own row when the code is in the index, the next
    higher code's row when it is absent. When some valid pixel of the block
    carries a code greater than every code of the index, the whole block
    raises IndexError, and no pixel is given a value. *)
Theorem ratio_op_table_entry
    (lulc_nodata soil_group_nodata : option Z)
    (ratio_lookup : list (list Q)) (sorted_lucodes : list Z)
    (lulc_array soil_group_array : list Z) :
  StronglySorted Z.lt sorted_lucodes ->
  length ratio_lookup = length sorted_lucodes ->
  (forall row, In row ratio_lookup -> length row = 4%nat) ->
  ((forall i c s,
       nth_error lulc_array i = Some c ->
       nth_error soil_group_array i = Some s ->
       ratio_valid lulc_nodata soil_group_nodata c s = true ->
       (exists m, In m sorted_lucodes /\ c <= m) /\ 0 <= s <= 4) ->
   exists out,
     ratio_op lulc_nodata soil_group_nodata ratio_lookup sorted_lucodes
              lulc_array soil_group_array = Ok out /\
     forall i c s,
       nth_error lulc_array i = Some c ->
       nth_error soil_group_array i = Some s ->
       ratio_valid lulc_nodata soil_group_nodata c s = true ->
       exists r code line v,
         nth_error sorted_lucodes r = Some code /\
         c <= code /\
         (forall m, In m sorted_lucodes -> c <= m -> code <= m) /\
         (In c sorted_lucodes -> code = c) /\
         nth_error (insert_zero_column ratio_lookup) r = Some line /\
         nth_error line (Z.to_nat s) = Some v /\
         nth_error out i = Some v) /\
  ((exists i c s,
       nth_error lulc_array i = Some c /\
       nth_error soil_group_array i = Some s /\
       ratio_valid lulc_nodata soil_group_nodata c s = true /\
       forall m, In m sorted_lucodes -> m < c) ->
   ratio_op lulc_nodata soil_group_nodata ratio_lookup sorted_lucodes
            lulc_array soil_group_array = Raise IndexError).
Proof.
  intros Hsorted Hlen Hrows. split.
  - intros Hblock.
    destruct (ratio_op_returns lulc_nodata soil_group_nodata ratio_lookup
                sorted_lucodes lulc_array soil_group_array) as [out Hout].
    { intros i c s Hc Hs Hv.
      destruct (Hblock i c s Hc Hs Hv) as [[m [Hin Hle]] Hrange].
      destruct (lookup_pixel_in_table ratio_lookup sorted_lucodes c s m)
        as [line [v [_ [_ H]]]]; eauto. }
    exists out. split; trivial.
    intros i c s Hc Hs Hv.
    pose proof (ratio_op_pixel _ _ _ _ _ _ out i c s Hout Hc Hs) as Hpx.
    rewrite Hv in Hpx. destruct Hpx as [v [Hlook Hnth]].
    destruct (Hblock i c s Hc Hs Hv) as [[m [Hin Hle]] Hrange].
    destruct (lookup_pixel_in_table ratio_lookup sorted_lucodes c s m)
      as [line [v' [Hline [Hv' Hlook']]]]; trivial.
    assert (v' = v) by congruence. subst v'.
    pose proof (digitize_right_lt_length _ _ _ Hin Hle) as Hlt.
    destruct (nth_error sorted_lucodes (digitize_right c sorted_lucodes))
      as [code|] eqn:Ecode; [|apply nth_error_None in Ecode; lia].
    exists (digitize_right c sorted_lucodes), code, line, v.
    pose proof (digitize_right_at _ _ _ Ecode) as Hat.
    assert (Hleast : forall m', In m' sorted_lucodes -> c <= m' -> code <= m')
      by (intros m' Hm' Hle'; eapply digitize_right_least; eauto).
    repeat split; trivial.
    intros Hpresent. specialize (Hleast c Hpresent). lia.
  - intros [i [c [s [Hc [Hs [Hv Habove]]]]]].
    apply (ratio_op_raises _ _ _ _ _ _ i c s Hc Hs Hv).
    now apply lookup_pixel_above.
Qed.

(** C5, as stated, fails on a block that holds a code above the largest code
    of the index. With the index [1; 2] and the block of codes [1; 3], both
    pixels are valid, code 1 is in the index and code 3 is absent from it;
    the lookup raises IndexError, so neither the pixel with the listed code
    is given its entry of the dense array nor the pixel with the absent code
    a neighbouring coefficient. *)
Lemma ratio_op_absent_code_above_index :
  let sorted_lucodes := [1; 2] in
  let ratio_lookup := [[1 # 10; 2 # 10; 3 # 10; 4 # 10];
                       [5 # 10; 6 # 10; 7 # 10; 8 # 10]]%Q in
  In 1 sorted_lucodes /\
  ~ In 3 sorted_lucodes /\
  ratio_valid (Some 255) (Some 255) 1 1 = true /\
  ratio_valid (Some 255) (Some 255) 3 1 = true /\
  ratio_op (Some 255) (Some 255) ratio_lookup sorted_lucodes [1; 3] [1; 1]
  = Raise IndexError /\
  ~ (exists out i v,
       ratio_op (Some 255) (Some 255) ratio_lookup sorted_lucodes [1; 3] [1; 1]
       = Ok out /\ nth_error out i = Some v).
Proof.
  cbv zeta. split; [now left|].
  split; [|split; [reflexivity|split; [reflexivity|split; [reflexivity|]]]].
  - simpl. intros [H | [H | H]]; [discriminate | discriminate | exact H].
  - intros [out [i [v [H _]]]]. discriminate.
Qed.

Lemma ratio_op_table_entry_witness :
  (exists out,
     ratio_op (Some 255) (Some 255)
              [[1 # 10; 2 # 10; 3 # 10; 4 # 10];
               [5 # 10; 6 # 10; 7 # 10; 8 # 10];
               [9 # 10; 9 # 10; 9 # 10; 9 # 10]]%Q
              [1; 2; 5] [1; 3; 255] [2; 1; 4] = Ok out /\
     forall i c s,
       nth_error [1; 3; 255] i = Some c ->
       nth_error [2; 1; 4] i = Some s ->
       ratio_valid (Some 255) (Some 255) c s = true ->
       exists r code line v,
         nth_error [1; 2; 5] r = Some code /\
         c <= code /\
         (forall m, In m [1; 2; 5] -> c <= m -> code <= m) /\
         (In c [1; 2; 5] -> code = c) /\
         nth_error (insert_zero_column
                      [[1 # 10; 2 # 10; 3 # 10; 4 # 10];
                       [5 # 10; 6 # 10; 7 # 10; 8 # 10];
                       [9 # 10; 9 # 10; 9 # 10; 9 # 10]]%Q) r = Some line /\
         nth_error line (Z.to_nat s) = Some v /\
         nth_error out i = Some v) /\
  ratio_op (Some 255) (Some 255)
           [[1 # 10; 2 # 10; 3 # 10; 4 # 10];
            [5 # 10; 6 # 10; 7 # 10; 8 # 10];
            [9 # 10; 9 # 10; 9 # 10; 9 # 10]]%Q
           [1; 2; 5] [1; 7; 255] [2; 1; 4] = Raise IndexError.
Proof.
  split.
  - apply (ratio_op_table_entry (Some 255) (Some 255)
             [[1 # 10; 2 # 10; 3 # 10; 4 # 10];
              [5 # 10; 6 # 10; 7 # 10; 8 # 10];
              [9 # 10; 9 # 10; 9 # 10; 9 # 10]]%Q
             [1; 2; 5] [1; 3; 255] [2; 1; 4]).
    + repeat constructor.
    + reflexivity.
    + intros row [<- | [<- | [<- | []]]]; reflexivity.
    + intros [|[|[|i]]] c s Hc Hs Hv; simpl in Hc, Hs.
      * injection Hc as <-. injection Hs as <-.
        split; [exists 1; simpl; intuition lia | lia].
      * injection Hc as <-. injection Hs as <-.
        split; [exists 5; simpl; intuition lia | lia].
      * injection Hc as <-. injection Hs as <-. discriminate Hv.
      * destruct i; discriminate.
  - apply (ratio_op_table_entry (Some 255) (Some 255)
             [[1 # 10; 2 # 10; 3 # 10; 4 # 10];
              [5 # 10; 6 # 10; 7 # 10; 8 # 10];
              [9 # 10; 9 # 10; 9 # 10; 9 # 10]]%Q
             [1; 2; 5] [1; 7; 255] [2; 1; 4]).
    + repeat constructor.
    + reflexivity.
    + intros row [<- | [<- | [<- | []]]]; reflexivity.
    + exists 1%nat, 7, 1. repeat split.
      intros m [<- | [<- | [<- | []]]]; reflexivity.
Defined.

(** C6. At a pixel whose land-cover value is the land-cover sentinel, or
    whose soil-group value is the soil-group sentinel, the block returned by
    [ratio_op] holds [FLOAT_NODATA], the value it was filled with; and such
    pixels take no part in the lookup, so the block is returned as soon as the
    lookups of the valid pixels are in range. *)
Theorem ratio_op_nodata_pixel
    (lulc_nodata soil_group_nodata : option Z)
    (ratio_lookup : list (list Q)) (sorted_lucodes : list Z)
    (lulc_array soil_group_array : list Z) (i : nat) (c s : Z) :
  nth_error lulc_array i = Some c ->
  nth_error soil_group_array i = Some s ->
  lulc_nodata = Some c \/ soil_group_nodata = Some s ->
  (forall out,
      ratio_op lulc_nodata soil_group_nodata ratio_lookup sorted_lucodes
               lulc_array soil_group_array = Ok out ->
      nth_error out i = Some FLOAT_NODATA) /\
  ((forall j c' s',
       nth_error lulc_array j = Some c' ->
       nth_error soil_group_array j = Some s' ->
       ratio_valid lulc_nodata soil_group_nodata c' s' = true ->
       exists v, lookup_pixel ratio_lookup sorted_lucodes (c', s') = Ok v) ->
   exists out,
     ratio_op lulc_nodata soil_group_nodata ratio_lookup sorted_lucodes
              lulc_array soil_group_array = Ok out /\
     nth_error out i = Some FLOAT_NODATA).
Proof.
  intros Hc Hs Hnd.
  assert (Hv : ratio_valid lulc_nodata soil_group_nodata c s = false).
  { unfold ratio_valid, neq_nodata.
    destruct Hnd as [-> | ->]; rewrite Z.eqb_refl; simpl; trivial.
    apply andb_false_r. }
  assert (Hpx : forall out,
             ratio_op lulc_nodata soil_group_nodata ratio_lookup sorted_lucodes
                      lulc_array soil_group_array = Ok out ->
             nth_error out i = Some FLOAT_NODATA).
  { intros out Hout.
    pose proof (ratio_op_pixel _ _ _ _ _ _ out i c s Hout Hc Hs) as H.
    now rewrite Hv in H. }
  split; trivial.
  intros Hvalid.
  destruct (ratio_op_returns _ _ _ _ _ _ Hvalid) as [out Hout].
  exists out. split; auto.
Qed.

Lemma ratio_op_nodata_pixel_witness :
  (forall out,
      ratio_op (Some 255) (Some 255)
               [[1 # 10; 2 # 10; 3 # 10; 4 # 10];
                [5 # 10; 6 # 10; 7 # 10; 8 # 10]]%Q
               [1; 2] [1; 255] [2; 1] = Ok out ->
      nth_error out 1 = Some FLOAT_NODATA) /\
  ((forall j c' s',
       nth_error [1; 255] j = Some c' ->
       nth_error [2; 1] j = Some s' ->
       ratio_valid (Some 255) (Some 255) c' s' = true ->
       exists v,
         lookup_pixel [[1 # 10; 2 # 10; 3 # 10; 4 # 10];
                       [5 # 10; 6 # 10; 7 # 10; 8 # 10]]%Q
                      [1; 2] (c', s') = Ok v) ->
   exists out,
     ratio_op (Some 255) (Some 255)
              [[1 # 10; 2 # 10; 3 # 10; 4 # 10];
               [5 # 10; 6 # 10; 7 # 10; 8 # 10]]%Q
              [1; 2] [1; 255] [2; 1] = Ok out /\
     nth_error out 1 = Some FLOAT_NODATA).
Proof.
  apply (ratio_op_nodata_pixel (Some 255) (Some 255) _ _ [1; 255] [2; 1] 1%nat 255 1).
  - reflexivity.
  - reflexivity.
  - left. reflexivity.
Defined.

(** ** Codes above the index *)

Lemma avoided_pollutant_load_op_above
    lulc_array lulc_nodata retention_volume_array sorted_lucodes emc_array i c :
  length emc_array = length sorted_lucodes ->
  nth_error lulc_array i = Some c ->
  (forall m, In m sorted_lucodes -> m < c) ->
  avoided_pollutant_load_op lulc_array lulc_nodata retention_volume_array
                            sorted_lucodes emc_array = Raise IndexError.
Proof.
  intros Hlen Hc Habove. unfold avoided_pollutant_load_op.
  rewrite (traverse_raises_uniform (index emc_array) _
             (Z.of_nat (digitize_right c sorted_lucodes)) IndexError).
  - reflexivity.
  - intros x e. apply index_raises.
  - apply (in_map (fun c0 => Z.of_nat (digitize_right c0 sorted_lucodes))).
    eapply nth_error_In; eauto.
  - rewrite (digitize_right_above _ _ Habove), <- Hlen. apply index_past_end.
Qed.

(** C10. A land-cover value above every code of the sorted index is binned
    to the position one past the end of the dense arrays. In [ratio_op] the
    valid pixels are the ones looked up, so a valid pixel with such a code
    makes the block raise IndexError. In [avoided_pollutant_load_op] the EMC
    array is indexed for every pixel before the mask is applied, so any pixel
    with such a value makes the block raise IndexError, a pixel holding the
    land-cover sentinel included. *)
Theorem lookups_index_past_end_above_largest_code
    (lulc_nodata soil_group_nodata : option Z)
    (ratio_lookup : list (list Q)) (emc_array : list Q)
    (sorted_lucodes : list Z)
    (lulc_array soil_group_array : list Z)
    (retention_volume_array : list Q) (i : nat) (c : Z) :
  length ratio_lookup = length sorted_lucodes ->
  length emc_array = length sorted_lucodes ->
  nth_error lulc_array i = Some c ->
  (forall m, In m sorted_lucodes -> m < c) ->
  index emc_array (Z.of_nat (digitize_right c sorted_lucodes))
    = Raise IndexError /\
  (forall s,
      nth_error soil_group_array i = Some s ->
      ratio_valid lulc_nodata soil_group_nodata c s = true ->
      ratio_op lulc_nodata soil_group_nodata ratio_lookup sorted_lucodes
               lulc_array soil_group_array = Raise IndexError) /\
  avoided_pollutant_load_op lulc_array lulc_nodata retention_volume_array
                            sorted_lucodes emc_array = Raise IndexError /\
  avoided_pollutant_load_op lulc_array (Some c) retention_volume_array
                            sorted_lucodes emc_array = Raise IndexError.
Proof.
  intros Hratio Hemc Hc Habove. repeat split.
  - rewrite (digitize_right_above _ _ Habove), <- Hemc. apply index_past_end.
  - intros s Hs Hv.
    apply (ratio_op_raises _ _ _ _ _ _ i c s Hc Hs Hv).
    now apply lookup_pixel_above.
  - now apply (avoided_pollutant_load_op_above _ _ _ _ _ i c).
  - now apply (avoided_pollutant_load_op_above _ _ _ _ _ i c).
Qed.

Lemma lookups_index_past_end_above_largest_code_witness :
  index [1 # 2; 1 # 3; 1 # 4]%Q (Z.of_nat (digitize_right 255 [1; 2; 3]))
    = Raise IndexError /\
  (forall s,
      nth_error [1; 2; 2] 1%nat = Some s ->
      ratio_valid (Some 0) (Some 0) 255 s = true ->
      ratio_op (Some 0) (Some 0)
               [[1 # 10; 2 # 10; 3 # 10; 4 # 10];
                [5 # 10; 6 # 10; 7 # 10; 8 # 10];
                [9 # 10; 9 # 10; 9 # 10; 9 # 10]]%Q
               [1; 2; 3] [1; 255; 2] [1; 2; 2] = Raise IndexError) /\
  avoided_pollutant_load_op [1; 255; 2] (Some 0) [1; 1; 1]%Q
                            [1; 2; 3] [1 # 2; 1 # 3; 1 # 4]%Q
    = Raise IndexError /\
  avoided_pollutant_load_op [1; 255; 2] (Some 255) [1; 1; 1]%Q
                            [1; 2; 3] [1 # 2; 1 # 3; 1 # 4]%Q
    = Raise IndexError.
Proof.
  apply (lookups_index_past_end_above_largest_code
           (Some 0) (Some 0)
           [[1 # 10; 2 # 10; 3 # 10; 4 # 10];
            [5 # 10; 6 # 10; 7 # 10; 8 # 10];
            [9 # 10; 9 # 10; 9 # 10; 9 # 10]]%Q
           [1 # 2; 1 # 3; 1 # 4]%Q [1; 2; 3] [1; 255; 2] [1; 2; 2]
           [1; 1; 1]%Q 1%nat 255).
  - reflexivity.
  - reflexivity.
  - reflexivity.
  - intros m [<- | [<- | [<- | []]]]; reflexivity.
Defined.

(** ** Rounding to single precision *)

Section Float32Facts.
Import Float32.

Lemma pow2_pos e : (0 < pow2 e)%Q.
Proof. apply Qpower_0_lt. reflexivity. Qed.

Lemma pow2_le a b : a <= b -> (pow2 a <= pow2 b)%Q.
Proof. intros H. apply Qpower_le_compat_l; [exact H | discriminate]. Qed.

Lemma pow2_lt_inv a b : (pow2 a < pow2 b)%Q -> a < b.
Proof. intros H. apply (Qpower_lt_compat_l_inv (2 # 1)); [exact H | reflexivity]. Qed.

Lemma pow2_add a b : (pow2 (a + b) == pow2 a * pow2 b)%Q.
Proof. apply Qpower_plus. discriminate. Qed.

Lemma pow2_Z n : 0 <= n -> (pow2 n == inject_Z (2 ^ n))%Q.
Proof. intros H. unfold pow2. now rewrite Zpower_Qpower. Qed.

Lemma exponent_spec q :
  (0 < q)%Q -> (pow2 (exponent q) <= q)%Q /\ (q < pow2 (exponent q + 1))%Q.
Proof.
  intros Hq. destruct q as [a b].
  assert (Ha : 0 < a) by (unfold Qlt in Hq; simpl in Hq; lia).
  unfold exponent. cbn [Qnum Qden].
  set (la := Z.log2 a). set (lb := Z.log2 (Z.pos b)).
  destruct (Z.log2_spec a Ha) as [Ha1 Ha2]. fold la in Ha1, Ha2.
  destruct (Z.log2_spec (Z.pos b) (Pos2Z.is_pos b)) as [Hb1 Hb2].
  fold lb in Hb1, Hb2.
  assert (Hla : 0 <= la) by apply Z.log2_nonneg.
  assert (Hlb : 0 <= lb) by apply Z.log2_nonneg.
  assert (HA1 : (pow2 la <= inject_Z a)%Q)
    by (rewrite pow2_Z by lia; now rewrite <- Zle_Qle).
  assert (HA2 : (inject_Z a < pow2 (la + 1))%Q)
    by (rewrite pow2_Z by lia; now rewrite <- Zlt_Qlt).
  assert (HB1 : (pow2 lb <= inject_Z (Z.pos b))%Q)
    by (rewrite pow2_Z by lia; now rewrite <- Zle_Qle).
  assert (HB2 : (inject_Z (Z.pos b) < pow2 (lb + 1))%Q)
    by (rewrite pow2_Z by lia; now rewrite <- Zlt_Qlt).
  assert (HB : (0 < inject_Z (Z.pos b))%Q) by reflexivity.
  assert (Hup : (a # b < pow2 (la - lb + 1))%Q).
  { rewrite (Qmake_Qdiv a b). apply Qlt_shift_div_r; trivial.
    apply Qlt_le_trans with (pow2 (la - lb + 1) * pow2 lb)%Q.
    - rewrite <- pow2_add. now replace (la - lb + 1 + lb) with (la + 1) by lia.
    - apply Qmult_le_l; trivial. apply pow2_pos. }
  assert (Hlo : (pow2 (la - lb - 1) < a # b)%Q).
  { rewrite (Qmake_Qdiv a b). apply Qlt_shift_div_l; trivial.
    apply Qlt_le_trans with (pow2 (la - lb - 1) * pow2 (lb + 1))%Q.
    - apply Qmult_lt_l; trivial. apply pow2_pos.
    - rewrite <- pow2_add. now replace (la - lb - 1 + (lb + 1)) with la by lia. }
  destruct (Qle_bool (pow2 (la - lb)) (a # b)) eqn:E.
  - apply Qle_bool_iff in E. now split.
  - split; [now apply Qlt_le_weak|].
    replace (la - lb - 1 + 1) with (la - lb) by lia.
    apply Qnot_le_lt. intros H. apply Qle_bool_iff in H. congruence.
Qed.

Lemma exponent_mono x y :
  (0 < x)%Q -> (x <= y)%Q -> exponent x <= exponent y.
Proof.
  intros Hx Hxy.
  assert (Hy : (0 < y)%Q) by (eapply Qlt_le_trans; eauto).
  destruct (exponent_spec x Hx) as [Hx1 _].
  destruct (exponent_spec y Hy) as [_ Hy2].
  assert (H : (pow2 (exponent x) < pow2 (exponent y + 1))%Q).
  { eapply Qle_lt_trans; [exact Hx1|]. eapply Qle_lt_trans; eauto. }
  apply pow2_lt_inv in H. lia.
Qed.

Lemma rint_bounds q : Qfloor q <= rint q <= Qfloor q + 1.
Proof.
  unfold rint. destruct (_ ?= _)%Q; [destruct (Z.even _)| |]; lia.
Qed.

Lemma rint_mono x y : (x <= y)%Q -> rint x <= rint y.
Proof.
  intros Hxy. pose proof (Qfloor_resp_le x y Hxy) as Hf.
  pose proof (rint_bounds x) as Bx. pose proof (rint_bounds y) as By.
  destruct (Z.eq_dec (Qfloor x) (Qfloor y)) as [E | N]; [|lia].
  unfold rint. rewrite <- E.
  destruct (Qcompare_spec (x - inject_Z (Qfloor x)) (1 # 2)) as [Cx | Cx | Cx];
    destruct (Qcompare_spec (y - inject_Z (Qfloor x)) (1 # 2)) as [Cy | Cy | Cy];
    try destruct (Z.even (Qfloor x)); try lia; exfalso; lra.
Qed.

Lemma rint_Z n : rint (inject_Z n) = n.
Proof.
  unfold rint. rewrite Qfloor_Z.
  assert (H : (inject_Z n - inject_Z n ?= 1 # 2)%Q = Lt)
    by (rewrite <- Qlt_alt; setoid_replace (inject_Z n - inject_Z n)%Q with 0%Q by ring;
        reflexivity).
  now rewrite H.
Qed.

Lemma rint_ge n q : (inject_Z n <= q)%Q -> n <= rint q.
Proof. intros H. apply rint_mono in H. now rewrite rint_Z in H. Qed.

Lemma rint_le n q : (q <= inject_Z n)%Q -> rint q <= n.
Proof. intros H. apply rint_mono in H. now rewrite rint_Z in H. Qed.

Lemma spacing_mono x y : (0 < x)%Q -> (x <= y)%Q -> spacing x <= spacing y.
Proof. intros Hx Hxy. pose proof (exponent_mono x y Hx Hxy). unfold spacing. lia. Qed.

Lemma round_pos_nonneg q : (0 < q)%Q -> (0 <= round_pos q)%Q.
Proof.
  intros Hq. unfold round_pos.
  apply Qmult_le_0_compat; [|apply Qlt_le_weak, pow2_pos].
  change 0%Q with (inject_Z 0). rewrite <- Zle_Qle. apply rint_ge.
  apply Qle_shift_div_l; [apply pow2_pos|]. change (inject_Z 0) with 0%Q.
  rewrite Qmult_0_l. now apply Qlt_le_weak.
Qed.

Lemma round_pos_le_top q :
  (0 < q)%Q -> (round_pos q <= pow2 (spacing q + 24))%Q.
Proof.
  intros Hq. unfold round_pos.
  rewrite Z.add_comm, pow2_add, (pow2_Z 24) by lia.
  apply Qmult_le_compat_r; [|apply Qlt_le_weak, pow2_pos].
  rewrite <- Zle_Qle. apply rint_le.
  apply Qle_shift_div_r; [apply pow2_pos|].
  rewrite <- (pow2_Z 24), <- pow2_add by lia.
  destruct (exponent_spec q Hq) as [_ H].
  apply Qlt_le_weak. eapply Qlt_le_trans; [exact H|].
  apply pow2_le. unfold spacing. lia.
Qed.

Lemma round_pos_ge_bottom q :
  (0 < q)%Q -> -126 <= exponent q -> (pow2 (spacing q + 23) <= round_pos q)%Q.
Proof.
  intros Hq He. unfold round_pos.
  rewrite Z.add_comm, pow2_add, (pow2_Z 23) by lia.
  apply Qmult_le_compat_r; [|apply Qlt_le_weak, pow2_pos].
  rewrite <- Zle_Qle. apply rint_ge.
  apply Qle_shift_div_l; [apply pow2_pos|].
  rewrite <- (pow2_Z 23), <- pow2_add by lia.
  destruct (exponent_spec q Hq) as [H _].
  eapply Qle_trans; [|exact H].
  apply pow2_le. unfold spacing. lia.
Qed.

Lemma round_pos_mono x y :
  (0 < x)%Q -> (x <= y)%Q -> (round_pos x <= round_pos y)%Q.
Proof.
  intros Hx Hxy.
  assert (Hy : (0 < y)%Q) by (eapply Qlt_le_trans; eauto).
  pose proof (spacing_mono x y Hx Hxy) as Hk.
  destruct (Z.eq_dec (spacing x) (spacing y)) as [E | N].
  - unfold round_pos. rewrite E.
    apply Qmult_le_compat_r; [|apply Qlt_le_weak, pow2_pos].
    rewrite <- Zle_Qle. apply rint_mono.
    apply Qmult_le_compat_r; trivial.
    apply Qlt_le_weak, Qinv_lt_0_compat, pow2_pos.
  - eapply Qle_trans; [apply (round_pos_le_top x Hx)|].
    eapply Qle_trans; [|apply (round_pos_ge_bottom y Hy)].
    + apply pow2_le. lia.
    + unfold spacing in *. lia.
Qed.

Lemma Qnum_pos q : (0 < q)%Q <-> 0 < Qnum q.
Proof. unfold Qlt. simpl. lia. Qed.

(** Rounding to single precision keeps the order. *)
Lemma round_mono x y : (x <= y)%Q -> (round x <= round y)%Q.
Proof.
  intros Hxy. unfold round.
  destruct (Qnum x) as [|px|px] eqn:Ex; destruct (Qnum y) as [|py|py] eqn:Ey.
  - apply Qle_refl.
  - apply round_pos_nonneg, Qnum_pos. lia.
  - exfalso. unfold Qle in Hxy. rewrite Ex, Ey in Hxy. lia.
  - exfalso. unfold Qle in Hxy. rewrite Ex, Ey in Hxy. lia.
  - apply round_pos_mono; trivial. apply Qnum_pos. lia.
  - exfalso. unfold Qle in Hxy. rewrite Ex, Ey in Hxy. lia.
  - assert (H : (0 <= round_pos (- x))%Q)
      by (apply round_pos_nonneg, Qnum_pos; simpl; lia).
    lra.
  - assert (H : (0 <= round_pos (- x))%Q)
      by (apply round_pos_nonneg, Qnum_pos; simpl; lia).
    assert (H' : (0 <= round_pos y)%Q)
      by (apply round_pos_nonneg, Qnum_pos; lia).
    lra.
  - assert (H : (round_pos (- y) <= round_pos (- x))%Q).
    { apply round_pos_mono; [apply Qnum_pos; simpl; lia | lra]. }
    lra.
Qed.

Lemma round_Qeq x y : (x == y)%Q -> (round x == round y)%Q.
Proof.
  intros H. apply Qle_antisym; apply round_mono; rewrite H; apply Qle_refl.
Qed.
Lemma rint_Qeq x y : (x == y)%Q -> rint x = rint y.
Proof.
  intros H. apply Z.le_antisymm; apply rint_mono; rewrite H; apply Qle_refl.
Qed.

Lemma exponent_unique q e :
  (pow2 e <= q)%Q -> (q < pow2 (e + 1))%Q -> exponent q = e.
Proof.
  intros H1 H2.
  assert (Hq : (0 < q)%Q) by (eapply Qlt_le_trans; [apply (pow2_pos e) | exact H1]).
  destruct (exponent_spec q Hq) as [S1 S2].
  assert (A : (pow2 e < pow2 (exponent q + 1))%Q) by (eapply Qle_lt_trans; eauto).
  assert (B : (pow2 (exponent q) < pow2 (e + 1))%Q) by (eapply Qle_lt_trans; eauto).
  apply pow2_lt_inv in A, B. lia.
Qed.

Lemma round_pos_Qeq x y : (0 < x)%Q -> (x == y)%Q -> (round_pos x == round_pos y)%Q.
Proof.
  intros Hx H.
  assert (Hy : (0 < y)%Q) by now rewrite <- H.
  apply Qle_antisym; apply round_pos_mono; trivial; rewrite H; apply Qle_refl.
Qed.

(** A number with a significand of at most 24 bits, on the grid of its own
    binade or of the subnormal numbers, is a float32 number. *)
Lemma round_pos_fixed n k :
  0 < n <= 2 ^ 24 -> -149 <= k -> (k = -149 \/ 2 ^ 23 <= n) ->
  (round_pos (inject_Z n * pow2 k) == inject_Z n * pow2 k)%Q.
Proof.
  intros Hn Hk Hnorm.
  set (r := (inject_Z n * pow2 k)%Q).
  pose proof (pow2_pos k) as Hp.
  assert (Hlt : forall a, n < 2 ^ a -> 0 <= a -> (r < pow2 (k + a))%Q).
  { intros a Ha Ha0. unfold r.
    rewrite Z.add_comm, pow2_add, (pow2_Z a) by lia.
    apply Qmult_lt_compat_r; trivial. now rewrite <- Zlt_Qlt. }
  assert (Hge : forall a, 2 ^ a <= n -> 0 <= a -> (pow2 (k + a) <= r)%Q).
  { intros a Ha Ha0. unfold r.
    rewrite Z.add_comm, pow2_add, (pow2_Z a) by lia.
    apply Qmult_le_compat_r; [now rewrite <- Zle_Qle | now apply Qlt_le_weak]. }
  assert (Hgrid : spacing r = k ->
                  (round_pos r == inject_Z n * pow2 k)%Q).
  { intros Hs. unfold round_pos. rewrite Hs.
    assert (E : rint (r / pow2 k) = n).
    { rewrite (rint_Qeq (r / pow2 k) (inject_Z n)); [apply rint_Z|].
      unfold r. field. intros H0. rewrite H0 in Hp. discriminate. }
    rewrite E. reflexivity. }
  destruct (Z.eq_dec n (2 ^ 24)) as [E24 | N24].
  - (* the top of a binade is the bottom of the next *)
    assert (He : exponent r = k + 24).
    { apply exponent_unique; [apply Hge; lia|].
      replace (k + 24 + 1) with (k + 25) by lia. apply Hlt; lia. }
    unfold round_pos, spacing. rewrite He.
    replace (Z.max (k + 24) (-126) - 23) with (k + 1) by lia.
    assert (E : rint (r / pow2 (k + 1)) = 2 ^ 23).
    { rewrite (rint_Qeq (r / pow2 (k + 1)) (inject_Z (2 ^ 23))); [apply rint_Z|].
      unfold r. rewrite E24, pow2_add.
      change (pow2 1) with (2 # 1)%Q.
      change (inject_Z (2 ^ 24)) with (16777216 # 1)%Q.
      change (inject_Z (2 ^ 23)) with (8388608 # 1)%Q.
      field. intros H0. rewrite H0 in Hp. discriminate. }
    rewrite E. unfold r. rewrite E24, pow2_add.
    change (pow2 1) with (2 # 1)%Q.
    change (inject_Z (2 ^ 24)) with (16777216 # 1)%Q.
    change (inject_Z (2 ^ 23)) with (8388608 # 1)%Q. ring.
  - destruct (Z_lt_le_dec n (2 ^ 23)) as [Hsub | Hnrm].
    + (* below the least normal number *)
      assert (k = -149) by (destruct Hnorm; lia). subst k.
      apply Hgrid. unfold spacing.
      assert (Hr : (0 < r)%Q).
      { unfold r. apply Qmult_lt_0_compat; trivial.
        change 0%Q with (inject_Z 0). rewrite <- Zlt_Qlt. lia. }
      destruct (exponent_spec r Hr) as [S1 _].
      assert (A : (pow2 (exponent r) < pow2 (-149 + 23))%Q).
      { eapply Qle_lt_trans; [exact S1|]. apply Hlt; lia. }
      apply pow2_lt_inv in A. lia.
    + apply Hgrid. unfold spacing.
      assert (He : exponent r = k + 23).
      { apply exponent_unique; [apply Hge; lia|].
        replace (k + 23 + 1) with (k + 24) by lia. apply Hlt; lia. }
      rewrite He. lia.
Qed.

(** The result of rounding is a float32 number: rounding it again changes
    nothing. *)
Lemma round_pos_idempotent q :
  (0 < q)%Q -> (round (round_pos q) == round_pos q)%Q.
Proof.
  intros Hq.
  pose proof (pow2_pos (spacing q)) as Hp.
  set (n := rint (q / pow2 (spacing q))).
  assert (Hn0 : 0 <= n).
  { apply rint_ge. apply Qle_shift_div_l; trivial.
    change (inject_Z 0) with 0%Q. rewrite Qmult_0_l. now apply Qlt_le_weak. }
  assert (Hn24 : n <= 2 ^ 24).
  { apply rint_le. apply Qle_shift_div_r; trivial.
    rewrite <- (pow2_Z 24), <- pow2_add by lia.
    destruct (exponent_spec q Hq) as [_ H].
    apply Qlt_le_weak. eapply Qlt_le_trans; [exact H|].
    apply pow2_le. unfold spacing. lia. }
  assert (Hnorm : spacing q = -149 \/ 2 ^ 23 <= n).
  { destruct (Z_lt_le_dec (exponent q) (-126)) as [Hs | Hs].
    - left. unfold spacing. lia.
    - right. apply rint_ge. apply Qle_shift_div_l; trivial.
      rewrite <- (pow2_Z 23), <- pow2_add by lia.
      destruct (exponent_spec q Hq) as [H _].
      eapply Qle_trans; [|exact H]. apply pow2_le. unfold spacing. lia. }
  assert (Hk : -149 <= spacing q) by (unfold spacing; lia).
  change (round_pos q) with (inject_Z n * pow2 (spacing q))%Q.
  destruct (Z.eq_dec n 0) as [E0 | N0].
  - rewrite E0. unfold round. simpl. reflexivity.
  - unfold round.
    assert (Hpos : 0 < Qnum (inject_Z n * pow2 (spacing q))).
    { apply Qnum_pos. apply Qmult_lt_0_compat; trivial.
      change 0%Q with (inject_Z 0). rewrite <- Zlt_Qlt. lia. }
    destruct (Qnum (inject_Z n * pow2 (spacing q))); try lia.
    apply round_pos_fixed; trivial. lia.
Qed.

Lemma round_idempotent q : (round (round q) == round q)%Q.
Proof.
  unfold round at 2 3.
  destruct (Qnum q) as [|p|p] eqn:E.
  - reflexivity.
  - apply round_pos_idempotent, Qnum_pos. lia.
  - assert (Hq : (0 < - q)%Q) by (apply Qnum_pos; simpl; lia).
    pose proof (round_pos_idempotent (- q) Hq) as H.
    pose proof (round_pos_nonneg (- q) Hq) as H0.
    set (r := round_pos (- q)) in *.
    unfold round in *.
    destruct (Qnum r) as [|pr|pr] eqn:Er.
    + assert (Er' : Qnum (- r) = 0)
        by (unfold Qopp; cbn [Qnum]; now rewrite Er).
      rewrite Er'. unfold Qeq. cbn [Qnum Qden Qopp]. rewrite Er. reflexivity.
    + assert (Er' : Qnum (- r) = Z.neg pr)
        by (unfold Qopp; cbn [Qnum]; now rewrite Er).
      rewrite Er'.
      assert (Hr : (0 < r)%Q) by (apply Qnum_pos; lia).
      assert (Hrr : (- - r == r)%Q) by apply Qopp_involutive.
      rewrite (round_pos_Qeq (- - r) r); [now rewrite H | now rewrite Hrr | exact Hrr].
    + exfalso. unfold Qle in H0. cbn [Qnum Qden] in H0. rewrite Er in H0. lia.
Qed.

(** The result of rounding is within half a spacing of the number. *)
Lemma rint_error x : (Qabs (inject_Z (rint x) - x) <= 1 # 2)%Q.
Proof.
  unfold rint.
  pose proof (Qfloor_le x) as H1. pose proof (Qlt_floor x) as H2.
  rewrite inject_Z_plus in H2. change (inject_Z 1) with 1%Q in H2.
  apply Qabs_Qle_condition.
  destruct (Qcompare_spec (x - inject_Z (Qfloor x)) (1 # 2)) as [C | C | C];
    [destruct (Z.even (Qfloor x))| |];
    rewrite ?inject_Z_plus; change (inject_Z 1) with 1%Q; split; lra.
Qed.

Lemma round_pos_error q :
  (0 < q)%Q -> (Qabs (round_pos q - q) <= (1 # 2) * pow2 (spacing q))%Q.
Proof.
  intros Hq. pose proof (pow2_pos (spacing q)) as Hp. unfold round_pos.
  set (k := spacing q) in *. set (n := rint (q / pow2 k)).
  assert (E : (inject_Z n * pow2 k - q == (inject_Z n - q / pow2 k) * pow2 k)%Q).
  { field. intros H0. rewrite H0 in Hp. discriminate. }
  rewrite E, Qabs_Qmult, (Qabs_pos (pow2 k)) by now apply Qlt_le_weak.
  apply Qmult_le_compat_r; [apply rint_error | now apply Qlt_le_weak].
Qed.
End Float32Facts.

(** The float32 length of an integer vector never reverses the order of
    the exact lengths. *)
Lemma float32_sqrt_mono n n' :
  n <= n' -> (Float32.sqrt n <= Float32.sqrt n')%Q.
Proof.
  intros H. unfold Float32.sqrt. apply round_mono.
  apply Qmult_le_compat_r; [|discriminate].
  rewrite <- Zle_Qle. apply Z.sqrt_le_mono. lia.
Qed.

Lemma float32_hypot_mono x y x' y' :
  x * x + y * y <= x' * x' + y' * y' ->
  (Float32.hypot x y <= Float32.hypot x' y')%Q.
Proof. apply float32_sqrt_mono. Qed.

(** Some values: 0.1 and 1/3 rounded; 2^24 + 1 is a tie and goes to the even
    significand, 2^24 + 3 to the nearest multiple of 4; the least subnormal
    number is [2^-149], and half of it is a tie that goes to 0. *)
Example float32_round_values :
  (Float32.round (1 # 10) == 13421773 # 134217728)%Q /\
  (Float32.round (- (1 # 3)) == - (11184811 # 33554432))%Q /\
  (Float32.round (16777217 # 1) == 16777216 # 1)%Q /\
  (Float32.round (16777219 # 1) == 16777220 # 1)%Q /\
  (Float32.round (Float32.pow2 (-149)) == Float32.pow2 (-149))%Q /\
  (Float32.round (Float32.pow2 (-150)) == 0)%Q.
Proof. repeat split; vm_compute; reflexivity. Qed.

(** ** [is_near] *)

(** C9, as amended. The distance raster holds float32 numbers and the radius
    is converted to float32 for the comparison: the thresholded pixel is 1
    when the distance is at most the rounded radius and 0 otherwise. So a
    pixel at a distance of at most the radius, and in particular at a
    distance equal to the radius, is 1; a pixel at a greater distance is 0,
    unless its distance is the very float32 number the radius rounds to, in
    which case it is 1. *)
Theorem is_near_threshold
    (distance_transform_edt : list Z -> list Q)
    (input : list Z) (radius : Q) (i : nat) (d : Q) :
  nth_error (distance_transform_edt input) i = Some d ->
  (Float32.round d == d)%Q ->
  exists out,
    nth_error (is_near distance_transform_edt input radius) i = Some out /\
    ((d <= Float32.round radius)%Q -> out = 1) /\
    (~ (d <= Float32.round radius)%Q -> out = 0) /\
    ((d <= radius)%Q -> out = 1) /\
    ((d == radius)%Q -> out = 1) /\
    ((radius < d)%Q ->
     ((d == Float32.round radius)%Q -> out = 1) /\
     (~ (d == Float32.round radius)%Q -> out = 0)).
Proof.
  intros Hd Hf. exists (to_byte (Qle_bool d (Float32.round radius))). split.
  - unfold is_near, lte_threshold_op. rewrite map_map.
    now apply (map_nth_error
                 (fun x => to_byte (Qle_bool x (Float32.round radius)))).
  - assert (Hle : (d <= radius)%Q -> (d <= Float32.round radius)%Q).
    { intros H. apply round_mono in H. now rewrite Hf in H. }
    assert (Hge : (radius < d)%Q -> (Float32.round radius <= d)%Q).
    { intros H. apply Qlt_le_weak, round_mono in H. now rewrite Hf in H. }
    destruct (Qle_bool d (Float32.round radius)) eqn:E; simpl.
    + apply Qle_bool_iff in E.
      split; [trivial|]. split; [intros Hn; contradiction|].
      split; [trivial|]. split; [trivial|].
      intros Hlt. split; [trivial|].
      intros Hne. exfalso. apply Hne. apply Qle_antisym; auto.
    + assert (Hn : ~ (d <= Float32.round radius)%Q)
        by (intros Hc; apply Qle_bool_iff in Hc; congruence).
      split; [intros Hc; contradiction|]. split; [trivial|].
      split; [intros Hc; exfalso; auto|].
      split; [intros Hc; exfalso; apply Hn, Hle; rewrite Hc; apply Qle_refl|].
      intros Hlt. split; [|trivial].
      intros Hc. exfalso. apply Hn. rewrite Hc. apply Qle_refl.
Qed.

(** C9, as stated, fails within the resolution of float32. On the raster
    [[1, 0], [0, 0]] the last pixel is at distance sqrt 2 from the '1' pixel,
    stored as the float32 number 11863283 / 2^23; the radius is the double
    nearest to 1.41421353, which is smaller than that distance and rounds to
    it. The pixel is farther than the radius and is classified 1. *)
Lemma is_near_above_radius_within_rounding :
  let radius := (3184525763365157 # 2251799813685248)%Q in
  let d := (11863283 # 8388608)%Q in
  let distance_transform_edt := fun _ : list Z => [0; 1; 1; d]%Q in
  (radius < d)%Q /\
  (Float32.round d == d)%Q /\
  (Float32.round radius == d)%Q /\
  nth_error (distance_transform_edt [1; 0; 0; 0]) 3 = Some d /\
  nth_error (is_near distance_transform_edt [1; 0; 0; 0] radius) 3 = Some 1 /\
  nth_error (is_near distance_transform_edt [1; 0; 0; 0] radius) 3 <> Some 0.
Proof.
  cbv zeta. split; [reflexivity|].
  split; [vm_compute; reflexivity|]. split; [vm_compute; reflexivity|].
  split; [reflexivity|].
  assert (H : nth_error
                (is_near (fun _ : list Z => [0; 1; 1; 11863283 # 8388608]%Q)
                   [1; 0; 0; 0] (3184525763365157 # 2251799813685248)) 3
              = Some 1) by (vm_compute; reflexivity).
  split; [exact H|]. rewrite H. discriminate.
Qed.

Lemma is_near_threshold_witness :
  exists out,
    nth_error (is_near (map (fun z => inject_Z z)) [0; 2; 3] (2 # 1)) 1 = Some out /\
    ((2 # 1 <= Float32.round (2 # 1))%Q -> out = 1) /\
    (~ (2 # 1 <= Float32.round (2 # 1))%Q -> out = 0) /\
    ((2 # 1 <= 2 # 1)%Q -> out = 1) /\
    ((2 # 1 == 2 # 1)%Q -> out = 1) /\
    ((2 # 1 < 2 # 1)%Q ->
     ((2 # 1 == Float32.round (2 # 1))%Q -> out = 1) /\
     (~ (2 # 1 == Float32.round (2 # 1))%Q -> out = 0)).
Proof.
  apply (is_near_threshold (map (fun z => inject_Z z)) [0; 2; 3] (2 # 1) 1%nat (2 # 1)).
  - reflexivity.
  - vm_compute. reflexivity.
Defined.

(** ** [make_search_kernel] *)

Lemma Q2R_inject_Z z : Q2R (inject_Z z) = IZR z.
Proof. unfold Q2R. simpl. Lra.lra. Qed.

(** The exact test used for [numpy.hypot(x, y) <= r] is the comparison of the
    Euclidean length of [(x, y)] with [r] over the reals. *)
Lemma hypot_le_sqrt (x y : Z) (r : Q) :
  hypot_le x y r = true <-> (sqrt (IZR (x * x + y * y)) <= Q2R r)%R.
Proof.
  unfold hypot_le. rewrite andb_true_iff, !Qle_bool_iff.
  assert (Hn : (0 <= IZR (x * x + y * y))%R) by (apply IZR_le; nia).
  assert (HQ0 : Q2R 0 = 0%R) by (unfold Q2R; simpl; Lra.lra).
  split.
  - intros [H0 H]. apply Qle_Rle in H0, H.
    rewrite Q2R_inject_Z, Q2R_mult in H. rewrite HQ0 in H0.
    rewrite <- (sqrt_square (Q2R r)) by assumption.
    now apply sqrt_le_1_alt.
  - intros H.
    pose proof (sqrt_pos (IZR (x * x + y * y))) as Hp.
    assert (H0 : (0 <= Q2R r)%R) by Lra.lra.
    split; apply Rle_Qle.
    + now rewrite HQ0.
    + rewrite Q2R_inject_Z, Q2R_mult.
      rewrite <- (sqrt_sqrt (IZR (x * x + y * y))) by assumption.
      Lra.nra.
Qed.

Lemma nth_error_seq_lt s n i :
  (i < n)%nat -> nth_error (seq s n) i = Some (s + i)%nat.
Proof.
  revert s i. induction n as [|n IH]; intros s [|i] H; simpl; try lia.
  - now rewrite Nat.add_0_r.
  - rewrite IH by lia. f_equal. lia.
Qed.

Lemma nth_error_range n i :
  (i < n)%nat -> nth_error (range n) i = Some (Z.of_nat i).
Proof.
  intros H. unfold range.
  now rewrite (map_nth_error Z.of_nat i (seq 0 n) (nth_error_seq_lt 0 n i H)).
Qed.

Lemma range_length n : length (range n) = n.
Proof. unfold range. now rewrite length_map, length_seq. Qed.

Lemma nth_error_repeat_lt {A} (x : A) n i :
  (i < n)%nat -> nth_error (repeat x n) i = Some x.
Proof. apply nth_error_full. Qed.

Lemma raster_get_of_nat {A} (r : list (list A)) i j line x :
  nth_error r i = Some line -> nth_error line j = Some x ->
  raster_get r (Z.of_nat i) (Z.of_nat j) = Some x.
Proof.
  intros Hi Hj. unfold raster_get.
  destruct (Z.of_nat i <? 0) eqn:E1; [apply Z.ltb_lt in E1; lia|].
  destruct (Z.of_nat j <? 0) eqn:E2; [apply Z.ltb_lt in E2; lia|].
  simpl. now rewrite !Nat2Z.id, Hi.
Qed.

(** The cells of the kernel built for a side [n], a margin [m] and a radius
    [pr] in pixels. *)
Lemma search_kernel_cell n m pr i j :
  (i < n)%nat -> (j < n)%nat ->
  let '(col_indices, row_indices) := indices n in
  raster_get
    (zip_with2d (fun c r => to_byte (hypot_le c r pr))
       (map2d (fun c => c - m) col_indices)
       (map2d (fun r => r - m) row_indices))
    (Z.of_nat i) (Z.of_nat j)
  = Some (to_byte (hypot_le (Z.of_nat i - m) (Z.of_nat j - m) pr)).
Proof.
  intros Hi Hj. unfold indices, zip_with2d, map2d.
  eapply raster_get_of_nat.
  - apply nth_error_zip_with.
    + apply map_nth_error.
      apply (map_nth_error (fun i0 => repeat i0 n)).
      now apply nth_error_range.
    + apply map_nth_error. now apply nth_error_repeat_lt.
  - apply (nth_error_zip_with (fun c r => to_byte (hypot_le c r pr))
             _ _ j (Z.of_nat i - m) (Z.of_nat j - m)).
    + apply (map_nth_error (fun c => c - m)). now apply nth_error_repeat_lt.
    + apply (map_nth_error (fun r => r - m)). now apply nth_error_range.
Qed.

Lemma search_kernel_shape n m pr :
  let '(col_indices, row_indices) := indices n in
  let kernel :=
    zip_with2d (fun c r => to_byte (hypot_le c r pr))
       (map2d (fun c => c - m) col_indices)
       (map2d (fun r => r - m) row_indices) in
  length kernel = n /\ forall line, In line kernel -> length line = n.
Proof.
  unfold indices, zip_with2d, map2d.
  set (cols := map (map (fun c => c - m)) (map (fun i0 => repeat i0 n) (range n))).
  set (rows := map (map (fun r => r - m)) (repeat (range n) n)).
  assert (Lc : length cols = n)
    by (unfold cols; now rewrite !length_map, range_length).
  assert (Lr : length rows = n)
    by (unfold rows; now rewrite length_map, repeat_length).
  assert (Lk : length (zip_with (zip_with (fun c r => to_byte (hypot_le c r pr)))
                         cols rows) = n)
    by (rewrite zip_with_length; congruence).
  split; [exact Lk|].
  intros line Hin. apply In_nth_error in Hin as [k Hk].
  assert (Hlt : (k < n)%nat) by (apply nth_error_Some_lt in Hk; lia).
  assert (Hc : nth_error cols k = Some (map (fun c => c - m) (repeat (Z.of_nat k) n))).
  { unfold cols. apply map_nth_error.
    apply (map_nth_error (fun i0 => repeat i0 n)). now apply nth_error_range. }
  assert (Hr : nth_error rows k = Some (map (fun r => r - m) (range n))).
  { unfold rows. apply map_nth_error. now apply nth_error_repeat_lt. }
  rewrite (nth_error_zip_with _ _ _ _ _ _ Hc Hr) in Hk. injection Hk as <-.
  rewrite zip_with_length; now rewrite !length_map, ?repeat_length, ?range_length.
Qed.

Lemma Qfloor_nonneg (q : Q) : (0 <= q)%Q -> 0 <= Qfloor q.
Proof. intros H. apply (Qfloor_resp_le 0 q) in H. exact H. Qed.

(** The kernel of a radius of at least zero pixels, cell by cell. *)
Lemma make_search_kernel_cells (pixel_size radius : Q) :
  ~ (pixel_size == 0)%Q ->
  (0 <= radius / pixel_size)%Q ->
  let pixel_radius := (radius / pixel_size)%Q in
  let pixel_margin := Qfloor pixel_radius in
  let side := 2 * pixel_margin + 1 in
  exists kernel,
    make_search_kernel pixel_size radius = Ok kernel /\
    Z.of_nat (length kernel) = side /\
    (forall line, In line kernel -> Z.of_nat (length line) = side) /\
    (forall i j, 0 <= i < side -> 0 <= j < side ->
       raster_get kernel i j
       = Some (to_byte (hypot_le (i - pixel_margin) (j - pixel_margin)
                                 pixel_radius))) /\
    raster_get kernel pixel_margin pixel_margin = Some 1.
Proof.
  intros Hps Hpr pixel_radius pixel_margin side.
  pose proof (Qfloor_nonneg _ Hpr) as Hm. fold pixel_radius pixel_margin in Hm.
  unfold make_search_kernel.
  destruct (Qeq_bool pixel_size 0) eqn:E; [apply Qeq_bool_iff in E; contradiction|].
  fold pixel_radius pixel_margin.
  replace (pixel_margin * 2 + 1) with side by (unfold side; lia).
  destruct (side <? 0) eqn:E'; [apply Z.ltb_lt in E'; unfold side in E'; lia|].
  pose proof (search_kernel_shape (Z.to_nat side) pixel_margin pixel_radius) as Hshape.
  pose proof (search_kernel_cell (Z.to_nat side) pixel_margin pixel_radius) as Hcell.
  destruct (indices (Z.to_nat side)) as [col_indices row_indices].
  cbv zeta in Hshape. destruct Hshape as [Hlen Hlines].
  eexists. split; [reflexivity|].
  assert (Hside : 0 <= side) by (unfold side; lia).
  assert (Hget : forall i j, 0 <= i < side -> 0 <= j < side ->
            raster_get
              (zip_with2d (fun c r => to_byte (hypot_le c r pixel_radius))
                 (map2d (fun c => c - pixel_margin) col_indices)
                 (map2d (fun r => r - pixel_margin) row_indices)) i j
            = Some (to_byte (hypot_le (i - pixel_margin) (j - pixel_margin)
                                      pixel_radius))).
  { intros i j Hi Hj.
    specialize (Hcell (Z.to_nat i) (Z.to_nat j)).
    rewrite !Z2Nat.id in Hcell by lia. apply Hcell; lia. }
  split; [rewrite Hlen; lia|].
  split; [intros line Hin; rewrite (Hlines line Hin); lia|].
  split; [exact Hget|].
  rewrite Hget by (unfold side; lia).
  rewrite Z.sub_diag.
  assert (Hc : hypot_le 0 0 pixel_radius = true).
  { unfold hypot_le. apply andb_true_iff. split; apply Qle_bool_iff; trivial.
    change (inject_Z (0 * 0 + 0 * 0)) with 0%Q.
    apply Qmult_le_0_compat; exact Hpr. }
  now rewrite Hc.
Qed.

(** A radius of 2.5 pixels: a 5 by 5 kernel with the corners cut off. *)
Example make_search_kernel_50_20 :
  make_search_kernel (20 # 1) (50 # 1)
  = Ok [[0; 1; 1; 1; 0];
        [1; 1; 1; 1; 1];
        [1; 1; 1; 1; 1];
        [1; 1; 1; 1; 1];
        [0; 1; 1; 1; 0]].
Proof. reflexivity. Qed.

(** A negative radius in pixels gives a negative shape, which is refused. *)
Lemma make_search_kernel_negative_radius (pixel_size radius : Q) :
  ~ (pixel_size == 0)%Q -> (radius / pixel_size < 0)%Q ->
  make_search_kernel pixel_size radius = Raise ValueError.
Proof.
  intros Hps Hneg. unfold make_search_kernel.
  destruct (Qeq_bool pixel_size 0) eqn:E; [apply Qeq_bool_iff in E; contradiction|].
  assert (H : Qfloor (radius / pixel_size) < 0).
  { pose proof (Qfloor_le (radius / pixel_size)) as Hf.
    destruct (Z.lt_ge_cases (Qfloor (radius / pixel_size)) 0) as [Hlt | Hge]; trivial.
    exfalso. apply (Qlt_not_le _ _ Hneg).
    apply Qle_trans with (inject_Z (Qfloor (radius / pixel_size))); trivial.
    unfold Qle. cbn [Qnum Qden inject_Z]. lia. }
  destruct (_ <? 0) eqn:E'; trivial. apply Z.ltb_ge in E'. lia.
Qed.

(** ** [raster_average] *)

Lemma nth_error_map_indexed_from {A B} (g : Z -> A -> B) (l : list A) s k :
  nth_error (map (fun ix => g (fst ix) (snd ix))
                 (combine (map Z.of_nat (seq s (length l))) l)) k
  = option_map (g (Z.of_nat (s + k))) (nth_error l k).
Proof.
  revert s k. induction l as [|x l IH]; intros s [|k]; simpl; trivial.
  - now rewrite Nat.add_0_r.
  - rewrite IH. now replace (S s + k)%nat with (s + S k)%nat by lia.
Qed.

Lemma In_combine_range {A} (l : list A) z x :
  In (z, x) (combine (range (length l)) l) <->
  exists k, z = Z.of_nat k /\ nth_error l k = Some x.
Proof.
  unfold range. split.
  - intros H. apply In_nth_error in H as [k Hk].
    pose proof (nth_error_map_indexed_from (fun i y => (i, y)) l 0 k) as E.
    simpl in E.
    replace (map (fun ix : Z * A => (fst ix, snd ix))
                 (combine (map Z.of_nat (seq 0 (length l))) l))
      with (combine (map Z.of_nat (seq 0 (length l))) l) in E.
    2:{ rewrite <- (map_id (combine _ _)) at 1. apply map_ext. now intros []. }
    rewrite Hk in E. destruct (nth_error l k) as [y|] eqn:Ey; [|discriminate].
    simpl in E. injection E as -> ->. eauto.
  - intros [k [-> Hk]].
    pose proof (nth_error_map_indexed_from (fun i y => (i, y)) l 0 k) as E.
    simpl in E. rewrite Hk in E. simpl in E.
    apply nth_error_In in E. apply in_map_iff in E as [[i y] [Heq Hin]].
    simpl in Heq. now injection Heq as -> ->.
Qed.

Lemma raster_get_convolve_2d signal signal_nodata kernel row col :
  raster_get (convolve_2d signal signal_nodata kernel) row col
  = option_map (convolve_2d_pixel signal signal_nodata kernel row col)
               (raster_get signal row col).
Proof.
  unfold raster_get.
  destruct ((row <? 0) || (col <? 0)) eqn:E; trivial.
  apply orb_false_iff in E as [Hr Hc]. apply Z.ltb_ge in Hr, Hc.
  unfold convolve_2d, range.
  pose proof (nth_error_map_indexed_from
    (fun i line =>
       map (fun '(j, v) => convolve_2d_pixel signal signal_nodata kernel i j v)
           (combine (map Z.of_nat (seq 0 (length line))) line))
    signal 0 (Z.to_nat row)) as E.
  simpl in E.
  replace (map (fun '(i, line) =>
                  map (fun '(j, v) =>
                         convolve_2d_pixel signal signal_nodata kernel i j v)
                      (combine (map Z.of_nat (seq 0 (length line))) line))
               (combine (map Z.of_nat (seq 0 (length signal))) signal))
    with (map (fun ix : Z * list Q =>
                 map (fun '(j, v) =>
                        convolve_2d_pixel signal signal_nodata kernel (fst ix) j v)
                     (combine (map Z.of_nat (seq 0 (length (snd ix)))) (snd ix)))
              (combine (map Z.of_nat (seq 0 (length signal))) signal))
    by (apply map_ext; now intros []).
  rewrite E. destruct (nth_error signal (Z.to_nat row)) as [line|]; simpl; trivial.
  rewrite Z2Nat.id by lia.
  pose proof (nth_error_map_indexed_from
    (fun j v => convolve_2d_pixel signal signal_nodata kernel row j v)
    line 0 (Z.to_nat col)) as E'.
  simpl in E'. rewrite Z2Nat.id in E' by lia.
  etransitivity; [|exact E'].
  f_equal. apply map_ext. now intros [].
Qed.

Lemma In_kernel_offsets kernel i j line k :
  nth_error kernel i = Some line -> nth_error line j = Some k ->
  astype_bool k = true ->
  In (Z.of_nat i - Z.of_nat (length kernel) / 2,
      Z.of_nat j - Z.of_nat (length line) / 2)
     (kernel_offsets kernel).
Proof.
  intros Hi Hj Hk. unfold kernel_offsets.
  apply in_flat_map. exists (Z.of_nat i, line). split.
  - apply In_combine_range. eauto.
  - apply in_flat_map. exists (Z.of_nat j, k). split.
    + apply In_combine_range. eauto.
    + rewrite Hk. now left.
Qed.

Lemma In_contributing signal nodata offsets row col x :
  In x (contributing signal nodata offsets row col) <->
  exists dr dc,
    In (dr, dc) offsets /\
    raster_get signal (row + dr) (col + dc) = Some x /\
    is_nodata x nodata = false.
Proof.
  unfold contributing. rewrite in_flat_map. split.
  - intros [[dr dc] [Hin Hx]]. exists dr, dc. split; trivial.
    destruct (raster_get signal (row + dr) (col + dc)) as [v|]; [|contradiction].
    destruct (is_nodata v nodata) eqn:E; [contradiction|].
    destruct Hx as [<- | []]. now split.
  - intros [dr [dc [Hin [Hget Hnd]]]]. exists (dr, dc). split; trivial.
    rewrite Hget, Hnd. now left.
Qed.

Lemma Qsum_nonneg (l : list Q) :
  (forall x, In x l -> (0 <= x)%Q) -> (0 <= Qsum l)%Q.
Proof.
  induction l as [|x l IH]; intros H; simpl; [apply Qle_refl|].
  assert (0 <= x)%Q by (apply H; now left).
  assert (0 <= Qsum l)%Q by (apply IH; intros y Hy; apply H; now right).
  lra.
Qed.

Lemma raster_get_nth {A} (r : list (list A)) i j x :
  raster_get r i j = Some x ->
  0 <= i /\ 0 <= j /\
  exists line, nth_error r (Z.to_nat i) = Some line /\
               nth_error line (Z.to_nat j) = Some x.
Proof.
  unfold raster_get.
  destruct ((i <? 0) || (j <? 0)) eqn:E; [discriminate|].
  apply orb_false_iff in E as [Hi Hj]. apply Z.ltb_ge in Hi, Hj.
  destruct (nth_error r (Z.to_nat i)) as [line|]; [|discriminate].
  intros H. repeat split; trivial. eauto.
Qed.

(** The middle cell of the search kernel is flagged, so a pixel always lies
    in its own neighbourhood. *)
Lemma search_kernel_flags_centre pixel_size radius kernel :
  ~ (pixel_size == 0)%Q -> (0 <= radius / pixel_size)%Q ->
  make_search_kernel pixel_size radius = Ok kernel ->
  In (0, 0) (kernel_offsets kernel).
Proof.
  intros Hps Hpr Hk.
  destruct (make_search_kernel_cells pixel_size radius Hps Hpr)
    as [kernel' [Hk' [Hlen [Hlines [_ Hmid]]]]].
  assert (kernel' = kernel) by congruence. subst kernel'.
  pose proof (Qfloor_nonneg _ Hpr) as Hm.
  set (m := Qfloor (radius / pixel_size)) in *.
  apply raster_get_nth in Hmid as [_ [_ [line [Hline Hcell]]]].
  pose proof (In_kernel_offsets kernel _ _ line 1 Hline Hcell eq_refl) as H.
  rewrite (Hlines line (nth_error_In _ _ Hline)), Hlen in H.
  rewrite Z2Nat.id in H by lia.
  assert (Hdiv : (2 * m + 1) / 2 = m)
    by (symmetry; apply (Z.div_unique _ 2 m 1); lia).
  rewrite Hdiv, Z.sub_diag in H. exact H.
Qed.

Lemma contributing_cells_values signal nodata offsets row col :
  map snd (contributing_cells signal nodata offsets row col)
  = contributing signal nodata offsets row col.
Proof.
  unfold contributing_cells, contributing.
  induction offsets as [|[dr dc] l IH]; simpl; trivial.
  rewrite map_app, IH. f_equal.
  destruct (raster_get signal (row + dr) (col + dc)) as [v|]; trivial.
  now destruct (is_nodata v nodata).
Qed.

Lemma In_contributing_cells signal nodata offsets row col r c x :
  In (r, c, x) (contributing_cells signal nodata offsets row col) <->
  In (r - row, c - col) offsets /\
  raster_get signal r c = Some x /\ is_nodata x nodata = false.
Proof.
  unfold contributing_cells. rewrite in_flat_map. split.
  - intros [[dr dc] [Hin Hx]].
    destruct (raster_get signal (row + dr) (col + dc)) as [v|] eqn:Hget;
      [|contradiction].
    destruct (is_nodata v nodata) eqn:E; [contradiction|].
    destruct Hx as [Hx | []]. injection Hx as <- <- <-.
    replace (row + dr - row) with dr by lia.
    replace (col + dc - col) with dc by lia. now repeat split.
  - intros [Hin [Hget Hnd]]. exists (r - row, c - col). split; trivial.
    replace (row + (r - row)) with r by lia.
    replace (col + (c - col)) with c by lia.
    rewrite Hget, Hnd. now left.
Qed.

Lemma NoDup_contributing_cells signal nodata offsets row col :
  NoDup offsets ->
  NoDup (map fst (contributing_cells signal nodata offsets row col)).
Proof.
  induction offsets as [|[dr dc] l IH]; intros Hnd; [constructor|].
  apply NoDup_cons_iff in Hnd as [Hnotin Hnd].
  change (contributing_cells signal nodata ((dr, dc) :: l) row col)
    with ((match raster_get signal (row + dr) (col + dc) with
           | Some v => if is_nodata v nodata then []
                       else [(row + dr, col + dc, v)]
           | None => []
           end) ++ contributing_cells signal nodata l row col).
  destruct (raster_get signal (row + dr) (col + dc)) as [v|]; [|now apply IH].
  destruct (is_nodata v nodata); [now apply IH|].
  simpl. constructor; [|now apply IH].
  intros Hin. apply in_map_iff in Hin as [[[r c] x] [Heq Hin]].
  simpl in Heq. injection Heq as -> ->.
  apply In_contributing_cells in Hin as [Hin _].
  apply Hnotin.
  replace (row + dr - row) with dr in Hin by lia.
  now replace (col + dc - col) with dc in Hin by lia.
Qed.

Lemma In_combine_range_from {A} (l : list A) s z x :
  In (z, x) (combine (map Z.of_nat (seq s (length l))) l) ->
  Z.of_nat s <= z.
Proof.
  intros H. apply in_combine_l, in_map_iff in H as [k [<- Hk]].
  apply in_seq in Hk. lia.
Qed.

(** A [flat_map] over an indexed list has no duplicate when each piece has
    none and an element tells which index it came from. *)
Lemma NoDup_flat_map_indexed {A B} (f : Z -> A -> list B) (l : list A) s :
  (forall i x, NoDup (f i x)) ->
  (forall i j x y b, In b (f i x) -> In b (f j y) -> i = j) ->
  NoDup (flat_map (fun ix => f (fst ix) (snd ix))
           (combine (map Z.of_nat (seq s (length l))) l)).
Proof.
  intros Hnd Hinj. revert s.
  induction l as [|x l IH]; intros s; simpl; [constructor|].
  apply NoDup_app; trivial.
  intros b Hb Hin. apply in_flat_map in Hin as [[j y] [Hjy Hb']].
  simpl in Hb'. pose proof (Hinj _ _ _ _ _ Hb Hb') as E.
  apply In_combine_range_from in Hjy. lia.
Qed.

Lemma kernel_offsets_indexed kernel :
  kernel_offsets kernel
  = flat_map (fun ix =>
      (fun i line =>
         flat_map (fun jk =>
           (fun j k =>
              if astype_bool k
              then [(i - Z.of_nat (length kernel) / 2,
                     j - Z.of_nat (length line) / 2)]
              else []) (fst jk) (snd jk))
           (combine (map Z.of_nat (seq 0 (length line))) line))
        (fst ix) (snd ix))
      (combine (map Z.of_nat (seq 0 (length kernel))) kernel).
Proof.
  unfold kernel_offsets, range.
  apply flat_map_ext. intros [i line]. simpl.
  apply flat_map_ext. now intros [j k].
Qed.

Lemma NoDup_kernel_offsets kernel : NoDup (kernel_offsets kernel).
Proof.
  rewrite kernel_offsets_indexed.
  apply (NoDup_flat_map_indexed
    (fun i line =>
       flat_map (fun jk =>
         (fun j k =>
            if astype_bool k
            then [(i - Z.of_nat (length kernel) / 2,
                   j - Z.of_nat (length line) / 2)]
            else []) (fst jk) (snd jk))
         (combine (map Z.of_nat (seq 0 (length line))) line))).
  - intros i line.
    apply (NoDup_flat_map_indexed
      (fun j k =>
         if astype_bool k
         then [(i - Z.of_nat (length kernel) / 2,
                j - Z.of_nat (length line) / 2)]
         else [])).
    + intros j k. destruct (astype_bool k); repeat constructor. now intros [].
    + intros j j' k k' b Hb Hb'.
      destruct (astype_bool k); [|contradiction].
      destruct (astype_bool k'); [|contradiction].
      destruct Hb as [<- | []]. destruct Hb' as [Hb' | []].
      injection Hb' as E. lia.
  - intros i i' line line' b Hb Hb'.
    apply in_flat_map in Hb as [[j k] [_ Hb]].
    apply in_flat_map in Hb' as [[j' k'] [_ Hb']].
    simpl in Hb, Hb'.
    destruct (astype_bool k); [|contradiction].
    destruct (astype_bool k'); [|contradiction].
    destruct Hb as [<- | []]. destruct Hb' as [Hb' | []].
    injection Hb' as E _. lia.
Qed.

(** The flagged offsets of a square kernel, read off its cells. *)
Lemma In_kernel_offsets_iff kernel dr dc :
  (forall line, In line kernel -> length line = length kernel) ->
  let mid := Z.of_nat (length kernel) / 2 in
  In (dr, dc) (kernel_offsets kernel) <->
  exists k, raster_get kernel (mid + dr) (mid + dc) = Some k /\ k <> 0.
Proof.
  intros Hsq mid. split.
  - unfold kernel_offsets. intros H.
    apply in_flat_map in H as [[i line] [Hi H]].
    apply In_combine_range in Hi as [i' [-> Hline]].
    apply in_flat_map in H as [[j k] [Hj H]].
    apply In_combine_range in Hj as [j' [-> Hk]].
    destruct (astype_bool k) eqn:E; [|contradiction].
    destruct H as [H | []]. injection H as <- <-.
    rewrite (Hsq line (nth_error_In _ _ Hline)). fold mid.
    exists k. split.
    + replace (mid + (Z.of_nat i' - mid)) with (Z.of_nat i') by lia.
      replace (mid + (Z.of_nat j' - mid)) with (Z.of_nat j') by lia.
      now apply (raster_get_of_nat kernel i' j' line).
    + unfold astype_bool in E. intros ->. discriminate.
  - intros [k [Hget Hk]].
    apply raster_get_nth in Hget as [Hr [Hc [line [Hline Hcell]]]].
    assert (E : astype_bool k = true).
    { unfold astype_bool. destruct (k =? 0) eqn:E; trivial.
      apply Z.eqb_eq in E. contradiction. }
    pose proof (In_kernel_offsets kernel _ _ line k Hline Hcell E) as H.
    rewrite (Hsq line (nth_error_In _ _ Hline)) in H. fold mid in H.
    rewrite !Z2Nat.id in H by lia.
    replace (mid + dr - mid) with dr in H by lia.
    now replace (mid + dc - mid) with dc in H by lia.
Qed.

Lemma is_nodata_false_iff v nodata :
  is_nodata v nodata = false <-> ~ (v == nodata)%Q.
Proof.
  unfold is_nodata. split.
  - intros E H. apply Qeq_bool_iff in H. congruence.
  - intros H. destruct (Qeq_bool v nodata) eqn:E; trivial.
    apply Qeq_bool_iff in E. contradiction.
Qed.

Lemma Qfloor_ge_Z (z : Z) (q : Q) : (inject_Z z <= q)%Q -> z <= Qfloor q.
Proof.
  intros H. apply Qfloor_resp_le in H. now rewrite Qfloor_Z in H.
Qed.

(** An integer offset no longer than [r] has both coordinates within the
    margin [floor r]. *)
Lemma hypot_le_within_margin x y r :
  hypot_le x y r = true -> - Qfloor r <= x <= Qfloor r /\ - Qfloor r <= y <= Qfloor r.
Proof.
  unfold hypot_le. rewrite andb_true_iff, !Qle_bool_iff. intros [H0 H].
  assert (Hx : (inject_Z (x * x) <= r * r)%Q).
  { apply Qle_trans with (inject_Z (x * x + y * y)); trivial.
    rewrite <- Zle_Qle. nia. }
  assert (Hy : (inject_Z (y * y) <= r * r)%Q).
  { apply Qle_trans with (inject_Z (x * x + y * y)); trivial.
    rewrite <- Zle_Qle. nia. }
  assert (Habs : forall z, (inject_Z (z * z) <= r * r)%Q -> (inject_Z z <= r)%Q).
  { intros z Hz. rewrite inject_Z_mult in Hz.
    destruct (Qlt_le_dec r (inject_Z z)) as [Hlt | Hle]; trivial.
    exfalso. assert (r * r < inject_Z z * inject_Z z)%Q by nra. lra. }
  assert (Hopp : forall z, inject_Z (- z * - z) = inject_Z (z * z))
    by (intros z; now rewrite Z.mul_opp_opp).
  pose proof (Qfloor_ge_Z x r (Habs x Hx)).
  pose proof (Qfloor_ge_Z y r (Habs y Hy)).
  rewrite <- (Hopp x) in Hx. rewrite <- (Hopp y) in Hy.
  pose proof (Qfloor_ge_Z (- x) r (Habs (- x) Hx)).
  pose proof (Qfloor_ge_Z (- y) r (Habs (- y) Hy)).
  lia.
Qed.

(** Every offset no longer than the radius in pixels is a flagged cell of
    the search kernel. *)
Lemma search_kernel_flags_within pixel_size radius kernel dr dc :
  ~ (pixel_size == 0)%Q -> (0 <= radius / pixel_size)%Q ->
  make_search_kernel pixel_size radius = Ok kernel ->
  (inject_Z (dr * dr + dc * dc)
   <= (radius / pixel_size) * (radius / pixel_size))%Q ->
  raster_get kernel (Z.of_nat (length kernel) / 2 + dr)
                    (Z.of_nat (length kernel) / 2 + dc) = Some 1.
Proof.
  intros Hps Hpr Hk Hd.
  destruct (make_search_kernel_cells pixel_size radius Hps Hpr)
    as [kernel' [Hk' [Hlen [_ [Hget _]]]]].
  assert (kernel' = kernel) by congruence. subst kernel'.
  pose proof (Qfloor_nonneg _ Hpr) as Hm.
  set (m := Qfloor (radius / pixel_size)) in *.
  assert (Hmid : Z.of_nat (length kernel) / 2 = m).
  { rewrite Hlen. symmetry. apply (Z.div_unique _ 2 m 1); lia. }
  assert (H : hypot_le dr dc (radius / pixel_size) = true).
  { unfold hypot_le. apply andb_true_iff. split; now apply Qle_bool_iff. }
  pose proof (hypot_le_within_margin dr dc _ H) as [Hr Hc]. fold m in Hr, Hc.
  rewrite Hmid, Hget by lia.
  replace (m + dr - m) with dr by lia. replace (m + dc - m) with dc by lia.
  now rewrite H.
Qed.




(** A radius of one pixel on a 2 by 2 raster with one nodata pixel: each
    valid pixel is averaged with its valid 4-neighbours only. *)
Example raster_average_2x2 :
  raster_average [[1 # 2; (-1) # 1]; [1 # 4; 3 # 4]] FLOAT_NODATA (20 # 1) (20 # 1)
  = Ok [[((1 # 2) + ((1 # 4) + 0)) / (2 # 1); FLOAT_NODATA];
        [((1 # 2) + ((1 # 4) + ((3 # 4) + 0))) / (3 # 1);
         ((1 # 4) + ((3 # 4) + 0)) / (2 # 1)]]%Q.
Proof. reflexivity. Qed.

(** A 3 by 3 kernel of ones on a raster of one pixel gives the pixel itself:
    the eight neighbours outside the extent do not count. *)
Example convolve_2d_single_pixel (v : Q) :
  is_nodata v FLOAT_NODATA = false ->
  convolve_2d [[v]] FLOAT_NODATA [[1; 1; 1]; [1; 1; 1]; [1; 1; 1]]
  = [[((v + 0) / (1 # 1))%Q]].
Proof.
  intros H. unfold convolve_2d. simpl. unfold convolve_2d_pixel. rewrite H.
  unfold contributing. simpl. rewrite H. reflexivity.
Qed.

(** ** [execute] *)

(** Whatever the other arguments, the field [RR_mean] is aggregated from
    the raster written by [lookup_ratios], while the volume is computed from
    [final_retention_ratio_path]. *)
Lemma execute_rr_mean_raster (a : Execute.args) :
  Execute.aggregated_raster "RR_mean" (Execute.data_to_aggregate a)
  = Some Execute.retention_ratio_path.
Proof. reflexivity. Qed.

Lemma execute_aggregations (a : Execute.args) :
  Execute.aggregate_areas a = true ->
  Execute.aggregations_of (Execute.execute a) = Some (Execute.data_to_aggregate a).
Proof.
  intros H. unfold Execute.execute. rewrite H. simpl.
  destruct (Execute.adjust_retention_ratios a); simpl;
    destruct (Execute.infiltration_data a); simpl;
    (induction (Execute.pollutants a) as [|p ps IH]; simpl; [|exact IH]);
    destruct (Execute.replacement_cost a); reflexivity.
Qed.

(** C4. With the adjustment enabled, [adjust_op] writes the adjusted
    retention ratio and the volume task reads it, but the raster aggregated
    into [RR_mean] is the unadjusted retention ratio. *)
Theorem execute_aggregates_unadjusted_ratio :
  let a := {| Execute.adjust_retention_ratios := true;
              Execute.infiltration_data := false;
              Execute.pollutants := [];
              Execute.replacement_cost := false;
              Execute.aggregate_areas := true |} in
  Execute.final_retention_ratio_path a = Execute.adjusted_retention_ratio_path /\
  Execute.calculator_task Execute.adjust_op_ Execute.adjusted_retention_ratio_path
                          (Execute.execute a)
  = Some [Execute.retention_ratio_path; Execute.ratio_average_path;
          Execute.near_impervious_lulc_path; Execute.near_road_path] /\
  Execute.calculator_task Execute.volume_op_ Execute.retention_volume_path
                          (Execute.execute a)
  = Some [Execute.adjusted_retention_ratio_path;
          Execute.precipitation_aligned_path] /\
  match Execute.aggregations_of (Execute.execute a) with
  | Some aggregations =>
      Execute.aggregated_raster "RR_mean" aggregations
      = Some Execute.retention_ratio_path
  | None => False
  end /\
  Execute.retention_ratio_path <> Execute.adjusted_retention_ratio_path.
Proof.
  cbv zeta. repeat split; discriminate.
Qed.

(** * Further properties *)

(** ** Sorting the codes and building the tables *)

Lemma In_insert_sorted x y l : In y (insert_sorted x l) <-> y = x \/ In y l.
Proof.
  induction l as [|z l IH]; simpl; [intuition|].
  destruct (x <=? z); simpl; rewrite ?IH; intuition.
Qed.

Lemma In_sorted x l : In x (sorted l) <-> In x l.
Proof.
  induction l as [|y l IH]; simpl; [tauto|].
  rewrite In_insert_sorted, IH. intuition.
Qed.

Lemma insert_sorted_strongly x l :
  StronglySorted Z.lt l -> ~ In x l -> StronglySorted Z.lt (insert_sorted x l).
Proof.
  intros Hs. induction Hs as [|y l Hs IH Hall]; intros Hx; simpl.
  - repeat constructor.
  - rewrite Forall_forall in Hall.
    destruct (x <=? y) eqn:E.
    + apply Z.leb_le in E.
      assert (x < y) by (assert (x <> y) by (intros ->; apply Hx; now left); lia).
      constructor; [now constructor; [|apply Forall_forall]|].
      constructor; trivial.
      apply Forall_forall. intros z Hz. specialize (Hall z Hz). lia.
    + apply Z.leb_gt in E.
      constructor; [apply IH; intros H; apply Hx; now right|].
      apply Forall_forall. intros z Hz.
      apply In_insert_sorted in Hz as [-> | Hz]; auto.
Qed.

(** Distinct keys come out of [sorted] in strictly increasing order. *)
Lemma sorted_strongly l : NoDup l -> StronglySorted Z.lt (sorted l).
Proof.
  induction 1 as [|x l Hx Hnd IH]; simpl; [constructor|].
  apply insert_sorted_strongly; trivial. now rewrite In_sorted.
Qed.

Lemma dict_get_In {V} (d : list (Z * V)) k :
  In k (dict_keys d) -> exists v, dict_get d k = Some v.
Proof.
  induction d as [|[k' v] d IH]; simpl; [contradiction|].
  intros [-> | H].
  - rewrite Z.eqb_refl. eauto.
  - destruct (k =? k'); eauto.
Qed.

Lemma dict_get_Some_In {V} (d : list (Z * V)) k v :
  dict_get d k = Some v -> In k (dict_keys d).
Proof.
  induction d as [|[k' v'] d IH]; simpl; [discriminate|].
  destruct (k =? k') eqn:E; [apply Z.eqb_eq in E; now left | right; auto].
Qed.

Lemma rows_of_nth {V R} (f : V -> R) d ks :
  (forall k, In k ks -> In k (dict_keys d)) ->
  exists rows,
    rows_of f d ks = Some rows /\
    length rows = length ks /\
    forall r k v, nth_error ks r = Some k -> dict_get d k = Some v ->
                  nth_error rows r = Some (f v).
Proof.
  induction ks as [|k ks IH]; intros Hin; simpl.
  - exists []. repeat split; trivial. intros [|r]; discriminate.
  - destruct (dict_get_In d k (Hin k (or_introl eq_refl))) as [v Hv].
    destruct IH as [rows [Hrows [Hlen Hnth]]]; [intros k' Hk'; apply Hin; now right|].
    rewrite Hv, Hrows. exists (f v :: rows). repeat split; simpl; [lia|].
    intros [|r] k' v' Hk' Hv'; simpl in *.
    + injection Hk' as <-. congruence.
    + eauto.
Qed.
Section TableLookup.
Variable g : biophysical_row -> Z -> Q.
Variable d : list (Z * biophysical_row).
Variables (lulc_nodata soil_group_nodata : option Z).
Variables (lulc_array soil_group_array : list Z).

(** A table whose row for a code lists the coefficients of the soil groups
    1 to 4, looked up by [ratio_op]: every valid pixel with a code of the
    table and a soil group from 1 to 4 gets the coefficient of its own code
    and soil group. *)
Lemma ratio_op_of_table :
  NoDup (dict_keys d) ->
  (forall i c s,
      nth_error lulc_array i = Some c ->
      nth_error soil_group_array i = Some s ->
      ratio_valid lulc_nodata soil_group_nodata c s = true ->
      In c (dict_keys d) /\ 1 <= s <= 4) ->
  exists table out,
    rows_of (fun row => [g row 1; g row 2; g row 3; g row 4])
            d (sorted (dict_keys d)) = Some table /\
    ratio_op lulc_nodata soil_group_nodata table (sorted (dict_keys d))
             lulc_array soil_group_array = Ok out /\
    forall i c s,
      nth_error lulc_array i = Some c ->
      nth_error soil_group_array i = Some s ->
      (ratio_valid lulc_nodata soil_group_nodata c s = true ->
       exists row, dict_get d c = Some row /\ nth_error out i = Some (g row s)) /\
      (ratio_valid lulc_nodata soil_group_nodata c s = false ->
       nth_error out i = Some FLOAT_NODATA).
Proof.
  intros Hnd Hblock.
  set (codes := sorted (dict_keys d)).
  assert (Hsorted : StronglySorted Z.lt codes) by (now apply sorted_strongly).
  destruct (rows_of_nth (fun row => [g row 1; g row 2; g row 3; g row 4]) d codes)
    as [table [Htable [Hlen Hrows]]].
  { intros k Hk. exact (proj1 (In_sorted k _) Hk). }
  assert (Hlook : forall c s, In c (dict_keys d) -> 1 <= s <= 4 ->
            exists row, dict_get d c = Some row /\
                        lookup_pixel table codes (c, s) = Ok (g row s)).
  { intros c s Hc Hs.
    destruct (dict_get_In d c Hc) as [row Hrow]. exists row. split; trivial.
    assert (Hin : In c codes) by (exact (proj2 (In_sorted c _) Hc)).
    apply In_nth_error in Hin as [r Hr].
    unfold lookup_pixel. simpl fst. simpl snd.
    rewrite (digitize_right_present c codes r Hsorted Hr).
    assert (Hline : nth_error (insert_zero_column table) r
                    = Some [0%Q; g row 1; g row 2; g row 3; g row 4]).
    { unfold insert_zero_column.
      apply (map_nth_error (fun line => 0%Q :: line)). eauto. }
    rewrite (index_of_nat _ _ _ Hline). simpl bind.
    assert (Hcases : s = 1 \/ s = 2 \/ s = 3 \/ s = 4) by lia.
    destruct Hcases as [-> | [-> | [-> | ->]]]; reflexivity. }
  destruct (ratio_op_returns lulc_nodata soil_group_nodata table codes
              lulc_array soil_group_array) as [out Hout].
  { intros i c s Hc Hs Hv. destruct (Hblock i c s Hc Hs Hv) as [Hin Hrange].
    destruct (Hlook c s Hin Hrange) as [row [_ H]]. eauto. }
  exists table, out. repeat split; trivial.
  - intros Hv.
    pose proof (ratio_op_pixel _ _ _ _ _ _ out i c s Hout H H0) as Hpx.
    rewrite Hv in Hpx. destruct Hpx as [v [Hv1 Hv2]].
    destruct (Hblock i c s H H0 Hv) as [Hin Hrange].
    destruct (Hlook c s Hin Hrange) as [row [Hrow Hl]].
    exists row. split; trivial. congruence.
  - intros Hv.
    pose proof (ratio_op_pixel _ _ _ _ _ _ out i c s Hout H H0) as Hpx.
    now rewrite Hv in Hpx.
Qed.
End TableLookup.

(** X1. The retention table built from the biophysical table and looked up
    by [ratio_op] gives every valid pixel whose code is in the table and
    whose soil group is 1 to 4 one minus the runoff coefficient of that code
    and soil group, and the infiltration table gives the infiltration
    coefficient itself; pixels outside the mask get [FLOAT_NODATA]. *)
Theorem lookup_ratios_of_biophysical_table
    (biophysical_dict : list (Z * biophysical_row))
    (lulc_nodata soil_group_nodata : option Z)
    (lulc_array soil_group_array : list Z) :
  NoDup (dict_keys biophysical_dict) ->
  (forall i c s,
      nth_error lulc_array i = Some c ->
      nth_error soil_group_array i = Some s ->
      ratio_valid lulc_nodata soil_group_nodata c s = true ->
      In c (dict_keys biophysical_dict) /\ 1 <= s <= 4) ->
  let sorted_lucodes := sorted (dict_keys biophysical_dict) in
  exists retention infiltration retention_out infiltration_out,
    retention_ratio_array biophysical_dict sorted_lucodes = Some retention /\
    infiltration_ratio_array biophysical_dict sorted_lucodes = Some infiltration /\
    ratio_op lulc_nodata soil_group_nodata retention sorted_lucodes
             lulc_array soil_group_array = Ok retention_out /\
    ratio_op lulc_nodata soil_group_nodata infiltration sorted_lucodes
             lulc_array soil_group_array = Ok infiltration_out /\
    forall i c s,
      nth_error lulc_array i = Some c ->
      nth_error soil_group_array i = Some s ->
      (ratio_valid lulc_nodata soil_group_nodata c s = true ->
       exists row,
         dict_get biophysical_dict c = Some row /\
         nth_error retention_out i = Some (1 - runoff_coefficient row s)%Q /\
         nth_error infiltration_out i = Some (infiltration_coefficient row s)) /\
      (ratio_valid lulc_nodata soil_group_nodata c s = false ->
       nth_error retention_out i = Some FLOAT_NODATA /\
       nth_error infiltration_out i = Some FLOAT_NODATA).
Proof.
  intros Hnd Hblock sorted_lucodes.
  destruct (ratio_op_of_table (fun row s => (1 - runoff_coefficient row s)%Q)
              biophysical_dict lulc_nodata soil_group_nodata
              lulc_array soil_group_array Hnd Hblock)
    as [retention [rout [Hr [Hrop Hrpx]]]].
  destruct (ratio_op_of_table infiltration_coefficient
              biophysical_dict lulc_nodata soil_group_nodata
              lulc_array soil_group_array Hnd Hblock)
    as [infiltration [iout [Hi [Hiop Hipx]]]].
  exists retention, infiltration, rout, iout.
  repeat split; trivial.
  - intros Hv.
    destruct (Hrpx i c s H H0) as [Hr1 _]. destruct (Hipx i c s H H0) as [Hi1 _].
    destruct (Hr1 Hv) as [row [Hrow Hrv]]. destruct (Hi1 Hv) as [row' [Hrow' Hiv]].
    exists row. repeat split; trivial. congruence.
  - now apply (Hrpx i c s H H0).
  - now apply (Hipx i c s H H0).
Qed.

Definition example_table : list (Z * biophysical_row) :=
  [ (2, {| rc_a := 6 # 10; rc_b := 4 # 10; rc_c := 3 # 10; rc_d := 2 # 10;
           ir_a := 1 # 10; ir_b := 2 # 10; ir_c := 3 # 10; ir_d := 4 # 10 |});
    (1, {| rc_a := 9 # 10; rc_b := 7 # 10; rc_c := 5 # 10; rc_d := 1 # 10;
           ir_a := 0; ir_b := 1 # 10; ir_c := 1 # 10; ir_d := 2 # 10 |}) ].

Lemma lookup_ratios_of_biophysical_table_witness :
  let sorted_lucodes := sorted (dict_keys example_table) in
  exists retention infiltration retention_out infiltration_out,
    retention_ratio_array example_table sorted_lucodes = Some retention /\
    infiltration_ratio_array example_table sorted_lucodes = Some infiltration /\
    ratio_op (Some 255) (Some 0) retention sorted_lucodes [1; 255; 2] [2; 2; 4]
      = Ok retention_out /\
    ratio_op (Some 255) (Some 0) infiltration sorted_lucodes [1; 255; 2] [2; 2; 4]
      = Ok infiltration_out /\
    forall i c s,
      nth_error [1; 255; 2] i = Some c ->
      nth_error [2; 2; 4] i = Some s ->
      (ratio_valid (Some 255) (Some 0) c s = true ->
       exists row,
         dict_get example_table c = Some row /\
         nth_error retention_out i = Some (1 - runoff_coefficient row s)%Q /\
         nth_error infiltration_out i = Some (infiltration_coefficient row s)) /\
      (ratio_valid (Some 255) (Some 0) c s = false ->
       nth_error retention_out i = Some FLOAT_NODATA /\
       nth_error infiltration_out i = Some FLOAT_NODATA).
Proof.
  apply (lookup_ratios_of_biophysical_table example_table (Some 255) (Some 0)
           [1; 255; 2] [2; 2; 4]).
  - repeat constructor; simpl; intuition discriminate.
  - intros [|[|[|i]]] c s Hc Hs Hv; simpl in Hc, Hs;
      try (destruct i; discriminate);
      injection Hc as <-; injection Hs as <-;
      try discriminate Hv; simpl; intuition lia.
Defined.

(** ** [retention_value_op] and the chain from ratios to values *)

Lemma retention_value_op_pixel retention_volume_array replacement_cost i v :
  nth_error retention_volume_array i = Some v ->
  nth_error (retention_value_op retention_volume_array replacement_cost) i
  = Some (if isclose v FLOAT_NODATA then FLOAT_NODATA
          else (v * replacement_cost)%Q).
Proof.
  intros Hv. unfold retention_value_op.
  rewrite select_map.
  rewrite (nth_error_assign_select _ _ _ i FLOAT_NODATA
             (negb (isclose v FLOAT_NODATA)) (v * replacement_cost)%Q).
  - now destruct (isclose v FLOAT_NODATA).
  - apply nth_error_full. eapply nth_error_Some_lt; eauto.
  - unfold not_close.
    now apply (map_nth_error (fun x => negb (isclose x FLOAT_NODATA))).
  - now apply (map_nth_error (fun x => (x * replacement_cost)%Q)).
Qed.

(** A value that is not negative is never taken for [FLOAT_NODATA]. *)
Lemma isclose_nonneg_nodata (v : Q) : (0 <= v)%Q -> isclose v FLOAT_NODATA = false.
Proof.
  intros H. unfold isclose.
  destruct (Qle_bool _ _) eqn:E; trivial.
  apply Qle_bool_iff in E. exfalso.
  assert (Habs : (Qabs (v - FLOAT_NODATA) == v + 1)%Q).
  { rewrite Qabs_pos; unfold FLOAT_NODATA; [ring | lra]. }
  rewrite Habs in E.
  change (Qabs FLOAT_NODATA) with 1%Q in E.
  unfold atol, rtol in E. lra.
Qed.

(** X2. [retention_value_op] multiplies every volume that passes the
    nodata test by the replacement cost and gives [FLOAT_NODATA] where the
    volume is [FLOAT_NODATA]. *)
Theorem retention_value_op_product_or_nodata
    (retention_volume_array : list Q) (replacement_cost : Q) (i : nat) (v : Q) :
  nth_error retention_volume_array i = Some v ->
  exists out,
    nth_error (retention_value_op retention_volume_array replacement_cost) i
      = Some out /\
    (isclose v FLOAT_NODATA = false -> out = (v * replacement_cost)%Q) /\
    ((v == FLOAT_NODATA)%Q -> out = FLOAT_NODATA).
Proof.
  intros Hv. eexists. split; [exact (retention_value_op_pixel _ _ _ _ Hv)|]. split.
  - now intros ->.
  - intros H. now rewrite (isclose_Qeq _ _ H).
Qed.

Lemma retention_value_op_product_or_nodata_witness :
  exists out,
    nth_error (retention_value_op [12 # 1; (-1) # 1] (3 # 2)) 0 = Some out /\
    (isclose (12 # 1) FLOAT_NODATA = false -> out = ((12 # 1) * (3 # 2))%Q) /\
    (((12 # 1) == FLOAT_NODATA)%Q -> out = FLOAT_NODATA).
Proof.
  apply (retention_value_op_product_or_nodata [12 # 1; (-1) # 1] (3 # 2) 0%nat).
  reflexivity.
Defined.

(** X3. The retention value computed from the block that [volume_op]
    returns, for a precipitation sentinel other than zero: a pixel whose
    ratio or precipitation is nodata has the value [FLOAT_NODATA], and a
    valid pixel whose ratio, precipitation and pixel area are not negative
    has the value [precipitation * ratio * pixel_area * 0.001 * cost]. *)
Theorem retention_value_of_volume
    (ratio_array precip_array : list Q) (nd pixel_area replacement_cost : Q)
    (i : nat) (r p : Q) :
  ~ (nd == 0)%Q ->
  nth_error ratio_array i = Some r ->
  nth_error precip_array i = Some p ->
  exists out,
    nth_error (retention_value_op
                 (volume_op ratio_array precip_array (Some nd) pixel_area)
                 replacement_cost) i = Some out /\
    ((r == FLOAT_NODATA)%Q \/ (p == nd)%Q -> out = FLOAT_NODATA) /\
    (isclose r FLOAT_NODATA = false -> isclose p nd = false ->
     (0 <= r)%Q -> (0 <= p)%Q -> (0 <= pixel_area)%Q ->
     out = (p * r * pixel_area * (1 # 1000) * replacement_cost)%Q).
Proof.
  intros Hnd Hr Hp.
  pose proof (volume_op_pixel ratio_array precip_array (Some nd) pixel_area
                i r p Hr Hp) as Hvol.
  eexists. split; [apply (retention_value_op_pixel _ _ _ _ Hvol)|].
  unfold volume_valid, truthy.
  destruct (Qeq_bool nd 0) eqn:E; [apply Qeq_bool_iff in E; contradiction|].
  simpl negb. cbv iota. split.
  - intros [H | H]; rewrite (isclose_Qeq _ _ H); [|rewrite andb_false_r];
      cbn [negb andb]; now rewrite isclose_refl.
  - intros -> -> H0r H0p H0a. cbn [negb andb].
    rewrite isclose_nonneg_nodata; trivial.
    assert (0 <= p * r)%Q by (apply Qmult_le_0_compat; trivial).
    assert (0 <= p * r * pixel_area)%Q by (apply Qmult_le_0_compat; trivial).
    apply Qmult_le_0_compat; trivial. discriminate.
Qed.

Lemma retention_value_of_volume_witness :
  exists out,
    nth_error (retention_value_op
                 (volume_op [3 # 10; (-1) # 1] [100 # 1; 100 # 1]
                            (Some ((-9999) # 1)) (400 # 1))
                 (3 # 2)) 0 = Some out /\
    (((3 # 10) == FLOAT_NODATA)%Q \/ ((100 # 1) == (-9999) # 1)%Q ->
     out = FLOAT_NODATA) /\
    (isclose (3 # 10) FLOAT_NODATA = false ->
     isclose (100 # 1) ((-9999) # 1) = false ->
     (0 <= 3 # 10)%Q -> (0 <= 100 # 1)%Q -> (0 <= 400 # 1)%Q ->
     out = ((100 # 1) * (3 # 10) * (400 # 1) * (1 # 1000) * (3 # 2))%Q).
Proof.
  apply (retention_value_of_volume
           [3 # 10; (-1) # 1] [100 # 1; 100 # 1] ((-9999) # 1) (400 # 1) (3 # 2)
           0%nat (3 # 10) (100 # 1)).
  - discriminate.
  - reflexivity.
  - reflexivity.
Defined.

(** ** [adjust_op] next to impervious cover or a road *)

(** X4. At a valid pixel that is near impervious land cover or near a road
    (a flag other than 0), [adjust_op] leaves the base ratio as it is. *)
Theorem adjust_op_keeps_ratio_when_near
    (ratio_array avg_ratio_array : list Q)
    (near_impervious_lulc_array near_road_array : list Z)
    (i : nat) (base avg : Q) (near_impervious near_road : Z) :
  length avg_ratio_array = length ratio_array ->
  length near_impervious_lulc_array = length ratio_array ->
  length near_road_array = length ratio_array ->
  nth_error ratio_array i = Some base ->
  nth_error avg_ratio_array i = Some avg ->
  nth_error near_impervious_lulc_array i = Some near_impervious ->
  nth_error near_road_array i = Some near_road ->
  adjust_valid base avg near_impervious near_road = true ->
  near_impervious <> 0 \/ near_road <> 0 ->
  exists out,
    nth_error (adjust_op ratio_array avg_ratio_array
                 near_impervious_lulc_array near_road_array) i = Some out /\
    (out == base)%Q.
Proof.
  intros La Li Ld Hr Ha Hi Hd Hv Hnear.
  exists (adjusted_ratio base avg near_impervious near_road).
  split; [now apply adjust_op_pixel|].
  unfold adjusted_ratio. rewrite Hv, adjustment_factor_cases.
  assert (E : (near_impervious =? 0) && (near_road =? 0) = false).
  { apply andb_false_iff. destruct Hnear as [H | H]; [left | right];
      now apply Z.eqb_neq. }
  rewrite E. ring.
Qed.

Lemma adjust_op_keeps_ratio_when_near_witness :
  exists out,
    nth_error (adjust_op [1 # 2; (-1) # 1] [1 # 4; 1 # 4] [0; 0] [1; 1]) 0
      = Some out /\
    (out == 1 # 2)%Q.
Proof.
  apply (adjust_op_keeps_ratio_when_near
           [1 # 2; (-1) # 1] [1 # 4; 1 # 4] [0; 0] [1; 1] 0%nat
           (1 # 2) (1 # 4) 0 1); try reflexivity.
  right. discriminate.
Defined.

(** ** Exactly when the lookups succeed *)

Lemma traverse_nth {A B} (f : A -> result B) (l : list A) ys i x :
  traverse f l = Ok ys -> nth_error l i = Some x ->
  exists y, f x = Ok y /\ nth_error ys i = Some y.
Proof.
  revert ys i. induction l as [|x0 l IH]; intros ys i H Hx; [destruct i; discriminate|].
  simpl in H. destruct (f x0) as [y0|e] eqn:E0; simpl in H; [|discriminate].
  destruct (traverse f l) as [ys'|e] eqn:E1; simpl in H; [|discriminate].
  injection H as <-. destruct i as [|i]; simpl in *.
  - injection Hx as <-. eauto.
  - eauto.
Qed.

Lemma traverse_length {A B} (f : A -> result B) (l : list A) ys :
  traverse f l = Ok ys -> length ys = length l.
Proof.
  revert ys. induction l as [|x0 l IH]; intros ys H; simpl in H.
  - now injection H as <-.
  - destruct (f x0) as [y0|e]; simpl in H; [|discriminate].
    destruct (traverse f l) as [ys'|e]; simpl in H; [|discriminate].
    injection H as <-. simpl. f_equal. now apply IH.
Qed.

Lemma index_ok_iff {A} (arr : list A) j :
  (exists v, index arr j = Ok v) <->
  - Z.of_nat (length arr) <= j < Z.of_nat (length arr).
Proof.
  unfold index. set (n := Z.of_nat (length arr)).
  destruct (j <? 0) eqn:Ej; [apply Z.ltb_lt in Ej | apply Z.ltb_ge in Ej].
  - destruct ((j + n <? 0) || (n <=? j + n)) eqn:E.
    + split; [intros [v H]; discriminate|]. intros H.
      apply orb_true_iff in E as [E | E];
        [apply Z.ltb_lt in E | apply Z.leb_le in E]; lia.
    + apply orb_false_iff in E as [E1 E2].
      apply Z.ltb_ge in E1. apply Z.leb_gt in E2.
      split; [intros _; lia|]. intros _.
      destruct (nth_error arr (Z.to_nat (j + n))) as [v|] eqn:E; eauto.
      apply nth_error_None in E. lia.
  - destruct ((j <? 0) || (n <=? j)) eqn:E.
    + split; [intros [v H]; discriminate|]. intros H.
      apply orb_true_iff in E as [E | E];
        [apply Z.ltb_lt in E | apply Z.leb_le in E]; lia.
    + apply orb_false_iff in E as [E1 E2].
      apply Z.ltb_ge in E1. apply Z.leb_gt in E2.
      split; [intros _; lia|]. intros _.
      destruct (nth_error arr (Z.to_nat j)) as [v|] eqn:E; eauto.
      apply nth_error_None in E. lia.
Qed.

Lemma index_Ok_In {A} (arr : list A) j v : index arr j = Ok v -> In v arr.
Proof.
  unfold index. destruct (_ || _); [discriminate|].
  destruct (nth_error arr _) as [x|] eqn:E; [|discriminate].
  intros H. injection H as <-. eapply nth_error_In; eauto.
Qed.

(** The lookup of one pixel succeeds exactly when the code is at or below
    some code of the index and the soil group is an index numpy accepts for
    the five columns, from -5 to 4. *)
Lemma lookup_pixel_ok_iff ratio_lookup sorted_lucodes c s :
  length ratio_lookup = length sorted_lucodes ->
  (forall row, In row ratio_lookup -> length row = 4%nat) ->
  (exists v, lookup_pixel ratio_lookup sorted_lucodes (c, s) = Ok v) <->
  (exists m, In m sorted_lucodes /\ c <= m) /\ -5 <= s <= 4.
Proof.
  intros Hlen Hrows. unfold lookup_pixel. simpl fst. simpl snd.
  assert (Hline : forall k line,
            index (insert_zero_column ratio_lookup) k = Ok line ->
            length line = 5%nat).
  { intros k line H. apply index_Ok_In in H.
    unfold insert_zero_column in H. apply in_map_iff in H as [row [<- Hrow]].
    simpl. now rewrite (Hrows row Hrow). }
  split.
  - intros [v H].
    destruct (index (insert_zero_column ratio_lookup) _) as [line|e] eqn:E;
      simpl in H; [|discriminate].
    pose proof (Hline _ _ E) as Hl.
    assert (Hk : exists x, index (insert_zero_column ratio_lookup)
                     (Z.of_nat (digitize_right c sorted_lucodes)) = Ok x) by eauto.
    apply index_ok_iff in Hk. rewrite insert_zero_column_length, Hlen in Hk.
    assert (Hs : exists x, index line s = Ok x) by eauto.
    apply index_ok_iff in Hs. rewrite Hl in Hs.
    split; [|lia].
    destruct (nth_error sorted_lucodes (digitize_right c sorted_lucodes))
      as [b|] eqn:Eb; [|apply nth_error_None in Eb; lia].
    exists b. split; [eapply nth_error_In; eauto | now apply digitize_right_at in Eb].
  - intros [[m [Hin Hle]] Hs].
    pose proof (digitize_right_lt_length _ _ _ Hin Hle) as Hlt.
    destruct (proj2 (index_ok_iff (insert_zero_column ratio_lookup)
                       (Z.of_nat (digitize_right c sorted_lucodes))))
      as [line Hl]; [rewrite insert_zero_column_length; lia|].
    rewrite Hl. simpl bind.
    apply index_ok_iff. rewrite (Hline _ _ Hl). lia.
Qed.

(** X5. For a table with one row of four ratios per code, [ratio_op]
    returns a block exactly when every valid pixel carries a code at or below
    some code of the index and a soil group from -5 to 4 (numpy counts a
    negative column from the end); in every other case it raises IndexError
    and no other exception. *)
Theorem ratio_op_returns_iff_in_range
    (lulc_nodata soil_group_nodata : option Z)
    (ratio_lookup : list (list Q)) (sorted_lucodes : list Z)
    (lulc_array soil_group_array : list Z) :
  length ratio_lookup = length sorted_lucodes ->
  (forall row, In row ratio_lookup -> length row = 4%nat) ->
  ((exists out,
       ratio_op lulc_nodata soil_group_nodata ratio_lookup sorted_lucodes
                lulc_array soil_group_array = Ok out) <->
   (forall i c s,
       nth_error lulc_array i = Some c ->
       nth_error soil_group_array i = Some s ->
       ratio_valid lulc_nodata soil_group_nodata c s = true ->
       (exists m, In m sorted_lucodes /\ c <= m) /\ -5 <= s <= 4)) /\
  (forall e,
      ratio_op lulc_nodata soil_group_nodata ratio_lookup sorted_lucodes
               lulc_array soil_group_array = Raise e -> e = IndexError).
Proof.
  intros Hlen Hrows. split; [split|].
  - intros [out Hout] i c s Hc Hs Hv.
    pose proof (ratio_op_pixel _ _ _ _ _ _ out i c s Hout Hc Hs) as Hpx.
    rewrite Hv in Hpx. destruct Hpx as [v [Hl _]].
    apply (lookup_pixel_ok_iff ratio_lookup sorted_lucodes c s Hlen Hrows). eauto.
  - intros H. apply ratio_op_returns. intros i c s Hc Hs Hv.
    apply (lookup_pixel_ok_iff ratio_lookup sorted_lucodes c s Hlen Hrows). eauto.
  - intros e. rewrite ratio_op_unfold.
    destruct (traverse _ _) as [vals|e'] eqn:E; simpl; [discriminate|].
    intros H. injection H as <-.
    apply traverse_raise in E as [[c s] [_ Hx]].
    unfold lookup_pixel in Hx.
    destruct (index (insert_zero_column ratio_lookup) _) as [row|e''] eqn:E1;
      simpl in Hx.
    + now apply index_raises in Hx.
    + injection Hx as <-. now apply index_raises in E1.
Qed.

Lemma ratio_op_returns_iff_in_range_witness :
  ((exists out,
       ratio_op (Some 255) (Some 255)
                [[1 # 10; 2 # 10; 3 # 10; 4 # 10];
                 [5 # 10; 6 # 10; 7 # 10; 8 # 10]]%Q
                [1; 2] [1; 255] [2; 1] = Ok out) <->
   (forall i c s,
       nth_error [1; 255] i = Some c ->
       nth_error [2; 1] i = Some s ->
       ratio_valid (Some 255) (Some 255) c s = true ->
       (exists m, In m [1; 2] /\ c <= m) /\ -5 <= s <= 4)) /\
  (forall e,
      ratio_op (Some 255) (Some 255)
               [[1 # 10; 2 # 10; 3 # 10; 4 # 10];
                [5 # 10; 6 # 10; 7 # 10; 8 # 10]]%Q
               [1; 2] [1; 255] [2; 1] = Raise e -> e = IndexError).
Proof.
  apply ratio_op_returns_iff_in_range.
  - reflexivity.
  - intros row [<- | [<- | []]]; reflexivity.
Defined.

(** X6. A valid pixel whose soil-group value is 0 is not refused: it reads
    the zero column that [lookup_ratios] puts in front of the table, so the
    block holds 0 at that pixel; and with a code at or below some code of the
    index such a pixel does not keep the block from being returned. *)
Theorem ratio_op_soil_group_zero
    (lulc_nodata soil_group_nodata : option Z)
    (ratio_lookup : list (list Q)) (sorted_lucodes : list Z)
    (lulc_array soil_group_array : list Z) (i : nat) (c : Z) :
  nth_error lulc_array i = Some c ->
  nth_error soil_group_array i = Some 0 ->
  ratio_valid lulc_nodata soil_group_nodata c 0 = true ->
  (forall out,
      ratio_op lulc_nodata soil_group_nodata ratio_lookup sorted_lucodes
               lulc_array soil_group_array = Ok out ->
      nth_error out i = Some 0%Q) /\
  (length ratio_lookup = length sorted_lucodes ->
   (forall row, In row ratio_lookup -> length row = 4%nat) ->
   (forall j c' s',
       nth_error lulc_array j = Some c' ->
       nth_error soil_group_array j = Some s' ->
       ratio_valid lulc_nodata soil_group_nodata c' s' = true ->
       (exists m, In m sorted_lucodes /\ c' <= m) /\ 0 <= s' <= 4) ->
   exists out,
     ratio_op lulc_nodata soil_group_nodata ratio_lookup sorted_lucodes
              lulc_array soil_group_array = Ok out /\
     nth_error out i = Some 0%Q).
Proof.
  intros Hc Hs Hv.
  assert (Hzero : forall out,
            ratio_op lulc_nodata soil_group_nodata ratio_lookup sorted_lucodes
                     lulc_array soil_group_array = Ok out ->
            nth_error out i = Some 0%Q).
  { intros out Hout.
    pose proof (ratio_op_pixel _ _ _ _ _ _ out i c 0 Hout Hc Hs) as Hpx.
    rewrite Hv in Hpx. destruct Hpx as [v [Hl Hnth]].
    unfold lookup_pixel in Hl. simpl fst in Hl. simpl snd in Hl.
    destruct (index (insert_zero_column ratio_lookup) _) as [line|e] eqn:E;
      simpl in Hl; [|discriminate].
    apply index_Ok_In in E. unfold insert_zero_column in E.
    apply in_map_iff in E as [row [<- _]].
    unfold index in Hl. simpl in Hl. now injection Hl as <-. }
  split; trivial.
  intros Hlen Hrows Hblock.
  destruct (ratio_op_returns lulc_nodata soil_group_nodata ratio_lookup
              sorted_lucodes lulc_array soil_group_array) as [out Hout].
  { intros j c' s' Hc' Hs' Hv'.
    apply (lookup_pixel_ok_iff ratio_lookup sorted_lucodes c' s' Hlen Hrows).
    destruct (Hblock j c' s' Hc' Hs' Hv') as [Hm Hr]. split; [exact Hm | lia]. }
  exists out. split; auto.
Qed.

Lemma ratio_op_soil_group_zero_witness :
  (forall out,
      ratio_op (Some 255) (Some 255)
               [[1 # 10; 2 # 10; 3 # 10; 4 # 10];
                [5 # 10; 6 # 10; 7 # 10; 8 # 10]]%Q
               [1; 2] [1; 2] [0; 2] = Ok out ->
      nth_error out 0 = Some 0%Q) /\
  (length [[1 # 10; 2 # 10; 3 # 10; 4 # 10];
           [5 # 10; 6 # 10; 7 # 10; 8 # 10]]%Q = length [1; 2] ->
   (forall row,
       In row [[1 # 10; 2 # 10; 3 # 10; 4 # 10];
               [5 # 10; 6 # 10; 7 # 10; 8 # 10]]%Q -> length row = 4%nat) ->
   (forall j c' s',
       nth_error [1; 2] j = Some c' ->
       nth_error [0; 2] j = Some s' ->
       ratio_valid (Some 255) (Some 255) c' s' = true ->
       (exists m, In m [1; 2] /\ c' <= m) /\ 0 <= s' <= 4) ->
   exists out,
     ratio_op (Some 255) (Some 255)
              [[1 # 10; 2 # 10; 3 # 10; 4 # 10];
               [5 # 10; 6 # 10; 7 # 10; 8 # 10]]%Q
              [1; 2] [1; 2] [0; 2] = Ok out /\
     nth_error out 0 = Some 0%Q).
Proof.
  apply (ratio_op_soil_group_zero (Some 255) (Some 255)
           [[1 # 10; 2 # 10; 3 # 10; 4 # 10];
            [5 # 10; 6 # 10; 7 # 10; 8 # 10]]%Q
           [1; 2] [1; 2] [0; 2] 0%nat 1); reflexivity.
Defined.

(** ** [avoided_pollutant_load_op] inside the table *)

Lemma nth_error_avoided_load_mask lulc_nodata lulc_array retention_volume_array i c v :
  nth_error lulc_array i = Some c -> nth_error retention_volume_array i = Some v ->
  nth_error (zip_with (load_valid lulc_nodata) lulc_array retention_volume_array) i
  = Some (load_valid lulc_nodata c v).
Proof. intros. now apply nth_error_zip_with. Qed.

(** X7. When every pixel of the block, valid or not, carries a land-cover
    value at or below some code of the sorted index, the avoided-load
    operation returns; a valid pixel holds [EMC * 0.001 * retention volume],
    with the EMC of the least code at or above the pixel's code (its own code
    when it is in the index), and a pixel whose land cover or retention
    volume is nodata holds [FLOAT_NODATA]. *)
Theorem avoided_pollutant_load_op_in_table
    (lulc_array : list Z) (lulc_nodata : option Z)
    (retention_volume_array : list Q) (sorted_lucodes : list Z)
    (emc_array : list Q) :
  StronglySorted Z.lt sorted_lucodes ->
  length emc_array = length sorted_lucodes ->
  length retention_volume_array = length lulc_array ->
  (forall c, In c lulc_array -> exists m, In m sorted_lucodes /\ c <= m) ->
  exists out,
    avoided_pollutant_load_op lulc_array lulc_nodata retention_volume_array
                              sorted_lucodes emc_array = Ok out /\
    forall i c v,
      nth_error lulc_array i = Some c ->
      nth_error retention_volume_array i = Some v ->
      (load_valid lulc_nodata c v = true ->
       exists r code emc,
         nth_error sorted_lucodes r = Some code /\
         c <= code /\
         (forall m, In m sorted_lucodes -> c <= m -> code <= m) /\
         (In c sorted_lucodes -> code = c) /\
         nth_error emc_array r = Some emc /\
         nth_error out i = Some (emc * (1 # 1000) * v)%Q) /\
      (lulc_nodata = Some c \/ (v == FLOAT_NODATA)%Q ->
       nth_error out i = Some FLOAT_NODATA).
Proof.
  intros Hsorted Hlen Hvol Hcodes. unfold avoided_pollutant_load_op.
  destruct (traverse_all_ok (index emc_array)
              (map (fun c => Z.of_nat (digitize_right c sorted_lucodes)) lulc_array))
    as [emc Hemc].
  { intros x Hx. apply in_map_iff in Hx as [c [<- Hc]].
    destruct (Hcodes c Hc) as [m [Hin Hle]].
    apply index_ok_iff.
    pose proof (digitize_right_lt_length _ _ _ Hin Hle). lia. }
  rewrite Hemc. simpl bind. eexists. split; [reflexivity|].
  intros i c v Hc Hv.
  pose proof (map_nth_error (fun c => Z.of_nat (digitize_right c sorted_lucodes))
                i lulc_array Hc) as Hidx.
  destruct (traverse_nth _ _ _ _ _ Hemc Hidx) as [e [He Hnth]].
  rewrite select_zip_with.
  pose proof (nth_error_zip_with (fun e v => (e * (1 # 1000) * v)%Q)
                _ _ _ _ _ Hnth Hv) as Hprod.
  assert (Hfull : nth_error (full (length lulc_array) FLOAT_NODATA) i
                  = Some FLOAT_NODATA)
    by (apply nth_error_full; eapply nth_error_Some_lt; eauto).
  rewrite (nth_error_assign_select _ _ _ _ _ _ _ Hfull
             (nth_error_avoided_load_mask lulc_nodata _ _ _ _ _ Hc Hv) Hprod).
  split.
  - intros ->.
    destruct (Hcodes c (nth_error_In _ _ Hc)) as [m [Hin Hle]].
    pose proof (digitize_right_lt_length _ _ _ Hin Hle) as Hlt.
    destruct (nth_error sorted_lucodes (digitize_right c sorted_lucodes))
      as [code|] eqn:Ecode; [|apply nth_error_None in Ecode; lia].
    destruct (nth_error emc_array (digitize_right c sorted_lucodes))
      as [e'|] eqn:Ee; [|apply nth_error_None in Ee; lia].
    rewrite (index_of_nat _ _ _ Ee) in He. injection He as <-.
    exists (digitize_right c sorted_lucodes), code, e'.
    pose proof (digitize_right_at _ _ _ Ecode) as Hat.
    assert (Hleast : forall m', In m' sorted_lucodes -> c <= m' -> code <= m')
      by (intros m' Hm' Hle'; eapply digitize_right_least; eauto).
    repeat split; trivial.
    intros Hpresent. specialize (Hleast c Hpresent). lia.
  - intros Hnd. replace (load_valid lulc_nodata c v) with false; trivial.
    symmetry. unfold load_valid, neq_nodata.
    destruct Hnd as [-> | H].
    + now rewrite Z.eqb_refl.
    + rewrite (isclose_Qeq _ _ H). apply andb_false_r.
Qed.

Lemma avoided_pollutant_load_op_in_table_witness :
  exists out,
    avoided_pollutant_load_op [1; 0; 3] (Some 0) [12 # 1; 5 # 1; (-1) # 1]
                              [1; 2; 3] [1 # 2; 1 # 3; 1 # 4]%Q = Ok out /\
    forall i c v,
      nth_error [1; 0; 3] i = Some c ->
      nth_error [12 # 1; 5 # 1; (-1) # 1]%Q i = Some v ->
      (load_valid (Some 0) c v = true ->
       exists r code emc,
         nth_error [1; 2; 3] r = Some code /\
         c <= code /\
         (forall m, In m [1; 2; 3] -> c <= m -> code <= m) /\
         (In c [1; 2; 3] -> code = c) /\
         nth_error [1 # 2; 1 # 3; 1 # 4]%Q r = Some emc /\
         nth_error out i = Some (emc * (1 # 1000) * v)%Q) /\
      (Some 0 = Some c \/ (v == FLOAT_NODATA)%Q ->
       nth_error out i = Some FLOAT_NODATA).
Proof.
  apply avoided_pollutant_load_op_in_table.
  - repeat constructor.
  - reflexivity.
  - reflexivity.
  - intros c [<- | [<- | [<- | []]]]; exists 3; simpl; intuition lia.
Defined.

(** ** Independence of the split into blocks *)

Lemma list_eq_nth_error {A} (l l' : list A) :
  (forall i, nth_error l i = nth_error l' i) -> l = l'.
Proof.
  revert l'. induction l as [|x l IH]; intros [|y l'] H; trivial.
  - specialize (H 0%nat). discriminate.
  - specialize (H 0%nat). discriminate.
  - pose proof (H 0%nat) as H0. simpl in H0. injection H0 as ->.
    f_equal. apply IH. intros i. exact (H (S i)).
Qed.

Lemma nth_error_lt_Some {A} (l : list A) i :
  (i < length l)%nat -> exists x, nth_error l i = Some x.
Proof.
  intros H. destruct (nth_error l i) eqn:E; eauto.
  apply nth_error_None in E. lia.
Qed.

Lemma adjust_op_length ratio_array avg_ratio_array near_impervious_lulc_array
    near_road_array :
  length (adjust_op ratio_array avg_ratio_array near_impervious_lulc_array
                    near_road_array) = length ratio_array.
Proof. unfold adjust_op. now rewrite assign_length, full_length. Qed.

(** X8. [adjust_op] works pixel by pixel: on two blocks put end to end it
    returns the two results put end to end, so the adjusted raster does not
    depend on how the raster calculator cuts the rasters into blocks. *)
Theorem adjust_op_blockwise
    (ratio1 ratio2 avg1 avg2 : list Q) (imp1 imp2 road1 road2 : list Z) :
  length avg1 = length ratio1 -> length imp1 = length ratio1 ->
  length road1 = length ratio1 ->
  length avg2 = length ratio2 -> length imp2 = length ratio2 ->
  length road2 = length ratio2 ->
  adjust_op (ratio1 ++ ratio2) (avg1 ++ avg2) (imp1 ++ imp2) (road1 ++ road2)
  = adjust_op ratio1 avg1 imp1 road1 ++ adjust_op ratio2 avg2 imp2 road2.
Proof.
  intros La1 Li1 Ld1 La2 Li2 Ld2.
  apply list_eq_nth_error. intros i.
  destruct (Nat.lt_ge_cases i (length ratio1)) as [H1 | H1].
  - rewrite (nth_error_app1 (adjust_op ratio1 avg1 imp1 road1))
      by (rewrite adjust_op_length; lia).
    destruct (nth_error_lt_Some ratio1 i) as [r Hr]; [lia|].
    destruct (nth_error_lt_Some avg1 i) as [a Ha]; [lia|].
    destruct (nth_error_lt_Some imp1 i) as [ni Hi]; [lia|].
    destruct (nth_error_lt_Some road1 i) as [nr Hd]; [lia|].
    rewrite (adjust_op_pixel ratio1 avg1 imp1 road1 i r a ni nr) by assumption.
    apply adjust_op_pixel; rewrite ?length_app, ?nth_error_app1; trivial; lia.
  - rewrite (nth_error_app2 (adjust_op ratio1 avg1 imp1 road1))
      by (rewrite adjust_op_length; lia).
    rewrite adjust_op_length.
    destruct (Nat.lt_ge_cases (i - length ratio1) (length ratio2)) as [H2 | H2].
    + destruct (nth_error_lt_Some ratio2 (i - length ratio1)) as [r Hr]; [lia|].
      destruct (nth_error_lt_Some avg2 (i - length ratio1)) as [a Ha]; [lia|].
      destruct (nth_error_lt_Some imp2 (i - length ratio1)) as [ni Hi]; [lia|].
      destruct (nth_error_lt_Some road2 (i - length ratio1)) as [nr Hd]; [lia|].
      rewrite (adjust_op_pixel ratio2 avg2 imp2 road2 _ r a ni nr) by assumption.
      apply adjust_op_pixel; rewrite ?length_app; try lia.
      * rewrite nth_error_app2 by lia. exact Hr.
      * rewrite nth_error_app2 by lia. now rewrite La1.
      * rewrite nth_error_app2 by lia. now rewrite Li1.
      * rewrite nth_error_app2 by lia. now rewrite Ld1.
    + transitivity (@None Q).
      * apply nth_error_None. rewrite adjust_op_length, length_app. lia.
      * symmetry. apply nth_error_None. rewrite adjust_op_length. lia.
Qed.

Lemma adjust_op_blockwise_witness :
  adjust_op ([1 # 2] ++ [(-1) # 1; 1 # 3]) ([1 # 4] ++ [1 # 4; 1 # 5])
            ([0] ++ [0; 1]) ([0] ++ [1; 0])
  = adjust_op [1 # 2] [1 # 4] [0] [0]
    ++ adjust_op [(-1) # 1; 1 # 3] [1 # 4; 1 # 5] [0; 1] [1; 0].
Proof.
  apply adjust_op_blockwise; reflexivity.
Defined.

Lemma nth_error_zip_with_inv {A B C} (f : A -> B -> C) a b i z :
  nth_error (zip_with f a b) i = Some z ->
  exists x y, nth_error a i = Some x /\ nth_error b i = Some y /\ z = f x y.
Proof.
  revert b i. induction a as [|x0 a IH]; intros [|y0 b] [|i] H;
    simpl in *; try discriminate.
  - injection H as <-. eauto.
  - eauto.
Qed.

Lemma ratio_op_length lulc_nodata soil_group_nodata ratio_lookup sorted_lucodes
    lulc_array soil_group_array out :
  ratio_op lulc_nodata soil_group_nodata ratio_lookup sorted_lucodes
           lulc_array soil_group_array = Ok out ->
  length out = length lulc_array.
Proof.
  unfold ratio_op. destruct (index2 _ _ _) as [values|e]; simpl; [|discriminate].
  intros H. injection H as <-. now rewrite assign_length, full_length.
Qed.

(** A failed block has a valid pixel whose lookup is out of range. *)
Lemma ratio_op_raise_pixel lulc_nodata soil_group_nodata ratio_lookup
    sorted_lucodes lulc_array soil_group_array e :
  ratio_op lulc_nodata soil_group_nodata ratio_lookup sorted_lucodes
           lulc_array soil_group_array = Raise e ->
  exists i c s,
    nth_error lulc_array i = Some c /\ nth_error soil_group_array i = Some s /\
    ratio_valid lulc_nodata soil_group_nodata c s = true /\
    lookup_pixel ratio_lookup sorted_lucodes (c, s) = Raise IndexError.
Proof.
  rewrite ratio_op_unfold.
  destruct (traverse _ _) as [vals|e'] eqn:E; simpl; [discriminate|].
  intros _. apply traverse_raise in E as [[c s] [Hin Hx]].
  apply In_select in Hin as [i [Hm Hz]].
  apply nth_error_zip_with_inv in Hz as [c' [s' [Hc [Hs Heq]]]].
  injection Heq as -> ->.
  rewrite (nth_error_zip_with _ _ _ _ _ _ Hc Hs) in Hm. injection Hm as Hv.
  exists i, c', s'. repeat split; trivial.
  assert (e' = IndexError); [|now subst].
  unfold lookup_pixel in Hx.
  destruct (index (insert_zero_column ratio_lookup) _) as [row|e''] eqn:E1;
    simpl in Hx.
  - now apply index_raises in Hx.
  - injection Hx as <-. now apply index_raises in E1.
Qed.

(** X9. [ratio_op] on two blocks put end to end returns the two results put
    end to end when both blocks are looked up without error, and raises
    IndexError as soon as one of them does: a failure is never masked, and a
    success never depends on the neighbouring block. *)
Theorem ratio_op_blockwise
    (lulc_nodata soil_group_nodata : option Z)
    (ratio_lookup : list (list Q)) (sorted_lucodes : list Z)
    (lulc1 lulc2 soil1 soil2 : list Z) :
  length soil1 = length lulc1 -> length soil2 = length lulc2 ->
  ratio_op lulc_nodata soil_group_nodata ratio_lookup sorted_lucodes
           (lulc1 ++ lulc2) (soil1 ++ soil2)
  = match ratio_op lulc_nodata soil_group_nodata ratio_lookup sorted_lucodes
                   lulc1 soil1,
          ratio_op lulc_nodata soil_group_nodata ratio_lookup sorted_lucodes
                   lulc2 soil2 with
    | Ok out1, Ok out2 => Ok (out1 ++ out2)
    | _, _ => Raise IndexError
    end.
Proof.
  intros L1 L2.
  set (op := ratio_op lulc_nodata soil_group_nodata ratio_lookup sorted_lucodes).
  assert (Hfail1 : forall e, op lulc1 soil1 = Raise e ->
            op (lulc1 ++ lulc2) (soil1 ++ soil2) = Raise IndexError).
  { intros e He. apply ratio_op_raise_pixel in He as [i [c [s [Hc [Hs [Hv Hl]]]]]].
    apply (ratio_op_raises _ _ _ _ _ _ i c s); trivial.
    - rewrite nth_error_app1; trivial. eapply nth_error_Some_lt; eauto.
    - rewrite nth_error_app1; trivial. eapply nth_error_Some_lt; eauto. }
  assert (Hfail2 : forall e, op lulc2 soil2 = Raise e ->
            op (lulc1 ++ lulc2) (soil1 ++ soil2) = Raise IndexError).
  { intros e He. apply ratio_op_raise_pixel in He as [i [c [s [Hc [Hs [Hv Hl]]]]]].
    apply (ratio_op_raises _ _ _ _ _ _ (length lulc1 + i)%nat c s); trivial.
    - rewrite nth_error_app2 by lia.
      now replace (length lulc1 + i - length lulc1)%nat with i by lia.
    - rewrite nth_error_app2 by lia.
      now replace (length lulc1 + i - length soil1)%nat with i by lia. }
  destruct (op lulc1 soil1) as [out1|e1] eqn:E1; [|eapply Hfail1; eauto].
  destruct (op lulc2 soil2) as [out2|e2] eqn:E2; [|eapply Hfail2; eauto].
  clear Hfail1 Hfail2.
  pose proof (ratio_op_length _ _ _ _ _ _ _ E1) as Lo1.
  pose proof (ratio_op_length _ _ _ _ _ _ _ E2) as Lo2.
  assert (Hsplit : forall i c s,
            nth_error (lulc1 ++ lulc2) i = Some c ->
            nth_error (soil1 ++ soil2) i = Some s ->
            (nth_error lulc1 i = Some c /\ nth_error soil1 i = Some s /\
             nth_error (out1 ++ out2) i = nth_error out1 i) \/
            (nth_error lulc2 (i - length lulc1) = Some c /\
             nth_error soil2 (i - length lulc1) = Some s /\
             nth_error (out1 ++ out2) i = nth_error out2 (i - length lulc1))).
  { intros i c s Hc Hs.
    destruct (Nat.lt_ge_cases i (length lulc1)) as [H | H].
    - left. rewrite nth_error_app1 in Hc, Hs by lia.
      repeat split; trivial. apply nth_error_app1. lia.
    - right. rewrite nth_error_app2 in Hc, Hs by lia. rewrite L1 in Hs.
      repeat split; trivial. rewrite nth_error_app2 by lia. now rewrite Lo1. }
  destruct (ratio_op_returns lulc_nodata soil_group_nodata ratio_lookup
              sorted_lucodes (lulc1 ++ lulc2) (soil1 ++ soil2)) as [out Hout].
  { intros i c s Hc Hs Hv.
    destruct (Hsplit i c s Hc Hs) as [[Hc' [Hs' _]] | [Hc' [Hs' _]]].
    - pose proof (ratio_op_pixel _ _ _ _ _ _ out1 _ c s E1 Hc' Hs') as H.
      rewrite Hv in H. destruct H as [v [H _]]. eauto.
    - pose proof (ratio_op_pixel _ _ _ _ _ _ out2 _ c s E2 Hc' Hs') as H.
      rewrite Hv in H. destruct H as [v [H _]]. eauto. }
  fold op in Hout. rewrite Hout. f_equal.
  pose proof (ratio_op_length _ _ _ _ _ _ _ Hout) as Lo.
  apply list_eq_nth_error. intros i.
  destruct (Nat.lt_ge_cases i (length (lulc1 ++ lulc2))) as [H | H].
  - destruct (nth_error_lt_Some (lulc1 ++ lulc2) i H) as [c Hc].
    destruct (nth_error_lt_Some (soil1 ++ soil2) i) as [s Hs];
      [rewrite length_app in *; lia|].
    pose proof (ratio_op_pixel _ _ _ _ _ _ out i c s Hout Hc Hs) as Hpx.
    destruct (Hsplit i c s Hc Hs) as [[Hc' [Hs' ->]] | [Hc' [Hs' ->]]].
    + pose proof (ratio_op_pixel _ _ _ _ _ _ out1 _ c s E1 Hc' Hs') as Hpx'.
      destruct (ratio_valid lulc_nodata soil_group_nodata c s).
      * destruct Hpx as [v [Hv ->]]. destruct Hpx' as [v' [Hv' ->]]. congruence.
      * congruence.
    + pose proof (ratio_op_pixel _ _ _ _ _ _ out2 _ c s E2 Hc' Hs') as Hpx'.
      destruct (ratio_valid lulc_nodata soil_group_nodata c s).
      * destruct Hpx as [v [Hv ->]]. destruct Hpx' as [v' [Hv' ->]]. congruence.
      * congruence.
  - transitivity (@None Q).
    + apply nth_error_None. lia.
    + symmetry. apply nth_error_None. rewrite length_app in *. lia.
Qed.

Lemma ratio_op_blockwise_witness :
  ratio_op (Some 255) (Some 255)
           [[1 # 10; 2 # 10; 3 # 10; 4 # 10];
            [5 # 10; 6 # 10; 7 # 10; 8 # 10]]%Q
           [1; 2] ([1; 255] ++ [2]) ([2; 1] ++ [4])
  = match ratio_op (Some 255) (Some 255)
                   [[1 # 10; 2 # 10; 3 # 10; 4 # 10];
                    [5 # 10; 6 # 10; 7 # 10; 8 # 10]]%Q
                   [1; 2] [1; 255] [2; 1],
          ratio_op (Some 255) (Some 255)
                   [[1 # 10; 2 # 10; 3 # 10; 4 # 10];
                    [5 # 10; 6 # 10; 7 # 10; 8 # 10]]%Q
                   [1; 2] [2] [4] with
    | Ok out1, Ok out2 => Ok (out1 ++ out2)
    | _, _ => Raise IndexError
    end.
Proof.
  apply ratio_op_blockwise; reflexivity.
Defined.

(** ** Shape of the search kernel *)

Lemma hypot_le_swap x y r : hypot_le x y r = hypot_le y x r.
Proof. unfold hypot_le. now rewrite (Z.add_comm (x * x)). Qed.

Lemma hypot_le_opp x y r : hypot_le (- x) (- y) r = hypot_le x y r.
Proof. unfold hypot_le. now rewrite !Z.mul_opp_opp. Qed.






(** ** [is_near] and the flags it feeds to [adjust_op] *)

Section IsNearFacts.
Variable distance_transform_edt : list Z -> list Q.

Lemma is_near_pixel input radius i d :
  nth_error (distance_transform_edt input) i = Some d ->
  nth_error (is_near distance_transform_edt input radius) i
  = Some (to_byte (Qle_bool d (Float32.round radius))).
Proof.
  intros Hd. unfold is_near, lte_threshold_op. rewrite map_map.
  now apply (map_nth_error
               (fun x => to_byte (Qle_bool x (Float32.round radius)))).
Qed.

Lemma is_near_length input radius :
  length (is_near distance_transform_edt input radius)
  = length (distance_transform_edt input).
Proof. unfold is_near, lte_threshold_op. now rewrite !length_map. Qed.
End IsNearFacts.

(** X13. The flags written by [is_near] are 0 or 1, never [UINT8_NODATA],
    so in [adjust_op] fed with them only the two ratio rasters decide whether
    a pixel is valid. A valid pixel whose distances to the nearest impervious
    pixel and to the nearest road pixel both exceed the radius as rounded to
    float32 is blended with the neighbourhood average; a valid pixel with
    either distance at most the rounded radius keeps its base ratio, and so
    does every valid pixel with either (float32) distance at most the radius
    itself. *)
Theorem adjust_op_of_is_near
    (distance_transform_edt : list Z -> list Q)
    (impervious_lulc rasterized_centerlines : list Z) (radius : Q)
    (ratio_array avg_ratio_array : list Q)
    (i : nat) (base avg d_impervious d_road : Q) :
  length avg_ratio_array = length ratio_array ->
  length (distance_transform_edt impervious_lulc) = length ratio_array ->
  length (distance_transform_edt rasterized_centerlines) = length ratio_array ->
  nth_error ratio_array i = Some base ->
  nth_error avg_ratio_array i = Some avg ->
  nth_error (distance_transform_edt impervious_lulc) i = Some d_impervious ->
  nth_error (distance_transform_edt rasterized_centerlines) i = Some d_road ->
  (Float32.round d_impervious == d_impervious)%Q ->
  (Float32.round d_road == d_road)%Q ->
  exists out,
    nth_error
      (adjust_op ratio_array avg_ratio_array
         (is_near distance_transform_edt impervious_lulc radius)
         (is_near distance_transform_edt rasterized_centerlines radius)) i
      = Some out /\
    ((base == FLOAT_NODATA)%Q \/ (avg == FLOAT_NODATA)%Q -> out = FLOAT_NODATA) /\
    (isclose base FLOAT_NODATA = false -> isclose avg FLOAT_NODATA = false ->
     ((Float32.round radius < d_impervious)%Q ->
      (Float32.round radius < d_road)%Q ->
      (out == base + (1 - base) * avg)%Q) /\
     ((d_impervious <= Float32.round radius)%Q \/
      (d_road <= Float32.round radius)%Q -> (out == base)%Q) /\
     ((d_impervious <= radius)%Q \/ (d_road <= radius)%Q -> (out == base)%Q)).
Proof.
  intros La Li Ld Hr Ha Hdi Hdr Hfi Hfr.
  pose proof (is_near_pixel distance_transform_edt impervious_lulc radius i _ Hdi)
    as Hni.
  pose proof (is_near_pixel distance_transform_edt rasterized_centerlines radius
                i _ Hdr) as Hnr.
  eexists. split.
  - apply (adjust_op_pixel _ _ _ _ i base avg
             (to_byte (Qle_bool d_impervious (Float32.round radius)))
             (to_byte (Qle_bool d_road (Float32.round radius)))); trivial;
      now rewrite is_near_length.
  - unfold adjusted_ratio, adjust_valid. split.
    + intros [H | H]; rewrite (isclose_Qeq _ _ H); trivial.
      now rewrite andb_false_r.
    + intros -> ->.
      assert (Hb : forall b, (to_byte b =? UINT8_NODATA) = false)
        by (now intros []).
      rewrite !Hb. cbn [negb andb]. rewrite adjustment_factor_cases.
      assert (Hnear :
        (d_impervious <= Float32.round radius)%Q \/
        (d_road <= Float32.round radius)%Q ->
        (base + (1 - base) *
           (if (to_byte (Qle_bool d_impervious (Float32.round radius)) =? 0) &&
               (to_byte (Qle_bool d_road (Float32.round radius)) =? 0)
            then avg else 0) == base)%Q).
      { intros [H | H]; apply Qle_bool_iff in H; rewrite H; simpl.
        - ring.
        - destruct (to_byte (Qle_bool d_impervious (Float32.round radius)) =? 0);
            simpl; ring. }
      split; [|split].
      * intros H1 H2.
        assert (E1 : Qle_bool d_impervious (Float32.round radius) = false).
        { destruct (Qle_bool d_impervious (Float32.round radius)) eqn:E; trivial.
          apply Qle_bool_iff in E. exfalso. apply (Qlt_not_le _ _ H1 E). }
        assert (E2 : Qle_bool d_road (Float32.round radius) = false).
        { destruct (Qle_bool d_road (Float32.round radius)) eqn:E; trivial.
          apply Qle_bool_iff in E. exfalso. apply (Qlt_not_le _ _ H2 E). }
        rewrite E1, E2. reflexivity.
      * exact Hnear.
      * intros [H | H]; apply Hnear; [left | right];
          apply round_mono in H; [now rewrite Hfi in H | now rewrite Hfr in H].
Qed.

Lemma adjust_op_of_is_near_witness :
  exists out,
    nth_error
      (adjust_op [1 # 2; 1 # 3] [1 # 4; 1 # 4]
         (is_near (map inject_Z) [5; 0] (2 # 1))
         (is_near (map inject_Z) [3; 1] (2 # 1))) 0
      = Some out /\
    (((1 # 2) == FLOAT_NODATA)%Q \/ ((1 # 4) == FLOAT_NODATA)%Q ->
     out = FLOAT_NODATA) /\
    (isclose (1 # 2) FLOAT_NODATA = false -> isclose (1 # 4) FLOAT_NODATA = false ->
     ((Float32.round (2 # 1) < inject_Z 5)%Q ->
      (Float32.round (2 # 1) < inject_Z 3)%Q ->
      (out == (1 # 2) + (1 - (1 # 2)) * (1 # 4))%Q) /\
     ((inject_Z 5 <= Float32.round (2 # 1))%Q \/
      (inject_Z 3 <= Float32.round (2 # 1))%Q -> (out == 1 # 2)%Q) /\
     ((inject_Z 5 <= 2 # 1)%Q \/ (inject_Z 3 <= 2 # 1)%Q -> (out == 1 # 2)%Q)).
Proof.
  apply (adjust_op_of_is_near (map inject_Z) [5; 0] [3; 1] (2 # 1)
           [1 # 2; 1 # 3] [1 # 4; 1 # 4] 0%nat (1 # 2) (1 # 4)
           (inject_Z 5) (inject_Z 3)); try reflexivity; vm_compute; reflexivity.
Defined.

(** X14. [is_near] grows with the radius: a pixel that is near for one radius
    is near for every larger radius, over the same distance field. *)
Theorem is_near_monotone_in_radius
    (distance_transform_edt : list Z -> list Q)
    (input : list Z) (radius1 radius2 : Q) (i : nat) :
  (radius1 <= radius2)%Q ->
  nth_error (is_near distance_transform_edt input radius1) i = Some 1 ->
  nth_error (is_near distance_transform_edt input radius2) i = Some 1.
Proof.
  intros Hle H1.
  assert (Hlt : (i < length (distance_transform_edt input))%nat).
  { rewrite <- (is_near_length distance_transform_edt input radius1).
    eapply nth_error_Some_lt; eauto. }
  destruct (nth_error_lt_Some _ _ Hlt) as [d Hd].
  rewrite (is_near_pixel _ _ radius1 _ _ Hd) in H1.
  rewrite (is_near_pixel _ _ radius2 _ _ Hd).
  destruct (Qle_bool d (Float32.round radius1)) eqn:E;
    [|simpl in H1; discriminate].
  apply Qle_bool_iff in E.
  assert (E2 : Qle_bool d (Float32.round radius2) = true)
    by (apply Qle_bool_iff; eapply Qle_trans; [exact E | now apply round_mono]).
  now rewrite E2.
Qed.

Lemma is_near_monotone_in_radius_witness :
  nth_error (is_near (map inject_Z) [0; 2; 3] (5 # 2)) 1 = Some 1.
Proof.
  apply (is_near_monotone_in_radius (map inject_Z) [0; 2; 3] (2 # 1) (5 # 2) 1%nat).
  - unfold Qle. simpl. lia.
  - reflexivity.
Defined.

(** ** The task graph of [execute] *)

(** The two descriptions of [execute] list the same calls. *)
Lemma tasks_calls (a : Execute.args) :
  map (TaskGraph.call_of a) (TaskGraph.tasks a) = Execute.execute a.
Proof.
  unfold TaskGraph.tasks, Execute.execute.
  rewrite !map_app, map_map.
  destruct (Execute.adjust_retention_ratios a),
           (Execute.infiltration_data a),
           (Execute.replacement_cost a),
           (Execute.aggregate_areas a); reflexivity.
Qed.

(** When a task is added. *)
Definition enabled (a : Execute.args) (t : TaskGraph.task) : Prop :=
  match t with
  | TaskGraph.align_task | TaskGraph.retention_ratio_task
  | TaskGraph.retention_volume_task => True
  | TaskGraph.reproject_roads_task | TaskGraph.make_raster_task
  | TaskGraph.rasterize_centerlines_task | TaskGraph.near_road_task
  | TaskGraph.impervious_lulc_task | TaskGraph.near_impervious_lulc_task
  | TaskGraph.average_ratios_task | TaskGraph.adjust_retention_ratio_task =>
      Execute.adjust_retention_ratios a = true
  | TaskGraph.infiltration_ratio_task | TaskGraph.infiltration_volume_task =>
      Execute.infiltration_data a = true
  | TaskGraph.avoided_load_task pollutant => In pollutant (Execute.pollutants a)
  | TaskGraph.valuation_task => Execute.replacement_cost a = true
  | TaskGraph.reproject_aggregate_areas_task | TaskGraph.aggregate_task =>
      Execute.aggregate_areas a = true
  end.

Lemma In_tasks (a : Execute.args) (t : TaskGraph.task) :
  In t (TaskGraph.tasks a) <-> enabled a t.
Proof.
  destruct a as [adj inf pol cost agg]. unfold TaskGraph.tasks, enabled.
  cbn [Execute.adjust_retention_ratios Execute.infiltration_data
       Execute.pollutants Execute.replacement_cost Execute.aggregate_areas].
  rewrite !in_app_iff, in_map_iff.
  split.
  - intros H.
    destruct t, adj, inf, cost, agg; simpl in H; trivial;
      repeat match goal with
             | H : _ \/ _ |- _ => destruct H as [H | H]
             | H : exists _, _ |- _ => destruct H as [? [H ?]]
             | H : False |- _ => destruct H
             | H : _ = _ |- _ => discriminate H
             | H : TaskGraph.avoided_load_task _ = TaskGraph.avoided_load_task _ |- _ =>
                 injection H as ->
             end; trivial.
  - intros H.
    destruct t; simpl in H; subst; simpl; try (intuition fail);
      try (destruct adj, inf, cost, agg; simpl; intuition fail).
    do 4 right. left. eauto.
Qed.

Ltac in_deps :=
  simpl; unfold TaskGraph.aggregation_task_dependencies,
                TaskGraph.final_retention_ratio_task; simpl;
  rewrite ?in_app_iff, ?in_map_iff; simpl; eauto 12.

Ltac produced_by u :=
  right; exists u; split; [| split; [apply In_tasks; simpl; auto | simpl; auto]].

Lemma depends_volume_on_retention_ratio (a : Execute.args) :
  TaskGraph.depends a TaskGraph.retention_volume_task TaskGraph.retention_ratio_task.
Proof.
  destruct (Execute.adjust_retention_ratios a) eqn:E.
  - apply TaskGraph.depends_trans with TaskGraph.adjust_retention_ratio_task.
    + simpl. unfold TaskGraph.final_retention_ratio_task. rewrite E. simpl. auto.
    + apply TaskGraph.depends_direct. simpl. auto.
  - apply TaskGraph.depends_direct. simpl.
    unfold TaskGraph.final_retention_ratio_task. rewrite E. simpl. auto.
Qed.

(** X15. No task of [execute] reads a file before it is written: every file
    a task reads is either a file the user supplies or a target of a task
    that is itself added to the graph and that the reading task depends on,
    directly or through its dependencies. *)
Theorem execute_reads_follow_dependencies
    (a : Execute.args) (t : TaskGraph.task) (p : Execute.path) :
  In t (TaskGraph.tasks a) ->
  In p (TaskGraph.reads (TaskGraph.call_of a t)) ->
  TaskGraph.is_input p \/
  exists u,
    TaskGraph.depends a t u /\
    In u (TaskGraph.tasks a) /\
    In p (TaskGraph.target_path_list u).
Proof.
  intros Ht Hp. apply In_tasks in Ht.
  pose proof (depends_volume_on_retention_ratio a) as Hvol.
  destruct t; simpl in Ht, Hp.
  - (* align *)
    left. unfold TaskGraph.is_input. intuition.
  - (* retention ratio *)
    destruct Hp as [<- | [<- | []]];
      produced_by TaskGraph.align_task; apply TaskGraph.depends_direct; in_deps.
  - (* reproject roads *)
    left. unfold TaskGraph.is_input. intuition.
  - (* make raster *)
    destruct Hp as [<- | []];
      produced_by TaskGraph.align_task; apply TaskGraph.depends_direct; in_deps.
  - (* rasterize *)
    destruct Hp as [<- | [<- | []]].
    + produced_by TaskGraph.reproject_roads_task;
        apply TaskGraph.depends_direct; in_deps.
    + produced_by TaskGraph.make_raster_task;
        apply TaskGraph.depends_direct; in_deps.
  - (* near road *)
    destruct Hp as [<- | []].
    produced_by TaskGraph.rasterize_centerlines_task;
      apply TaskGraph.depends_direct; in_deps.
  - (* impervious lulc *)
    destruct Hp as [<- | []];
      produced_by TaskGraph.align_task; apply TaskGraph.depends_direct; in_deps.
  - (* near impervious lulc *)
    destruct Hp as [<- | []].
    produced_by TaskGraph.impervious_lulc_task;
      apply TaskGraph.depends_direct; in_deps.
  - (* average ratios *)
    destruct Hp as [<- | []].
    produced_by TaskGraph.retention_ratio_task;
      apply TaskGraph.depends_direct; in_deps.
  - (* adjust *)
    destruct Hp as [<- | [<- | [<- | [<- | []]]]].
    + produced_by TaskGraph.retention_ratio_task;
        apply TaskGraph.depends_direct; in_deps.
    + produced_by TaskGraph.average_ratios_task;
        apply TaskGraph.depends_direct; in_deps.
    + produced_by TaskGraph.near_impervious_lulc_task;
        apply TaskGraph.depends_direct; in_deps.
    + produced_by TaskGraph.near_road_task;
        apply TaskGraph.depends_direct; in_deps.
  - (* retention volume *)
    unfold Execute.final_retention_ratio_path in Hp.
    destruct Hp as [<- | [<- | []]].
    + destruct (Execute.adjust_retention_ratios a) eqn:E.
      * produced_by TaskGraph.adjust_retention_ratio_task.
        apply TaskGraph.depends_direct. simpl.
        unfold TaskGraph.final_retention_ratio_task. rewrite E. simpl. auto.
      * produced_by TaskGraph.retention_ratio_task. exact Hvol.
    + produced_by TaskGraph.align_task; apply TaskGraph.depends_direct; in_deps.
  - (* infiltration ratio *)
    destruct Hp as [<- | [<- | []]];
      produced_by TaskGraph.align_task; apply TaskGraph.depends_direct; in_deps.
  - (* infiltration volume *)
    destruct Hp as [<- | [<- | []]].
    + produced_by TaskGraph.infiltration_ratio_task;
        apply TaskGraph.depends_direct; in_deps.
    + produced_by TaskGraph.align_task; apply TaskGraph.depends_direct; in_deps.
  - (* avoided load *)
    destruct Hp as [<- | [<- | []]].
    + produced_by TaskGraph.align_task.
      apply TaskGraph.depends_trans with TaskGraph.retention_volume_task;
        [in_deps | apply TaskGraph.depends_direct; in_deps].
    + produced_by TaskGraph.retention_volume_task;
        apply TaskGraph.depends_direct; in_deps.
  - (* valuation *)
    destruct Hp as [<- | []].
    produced_by TaskGraph.retention_volume_task;
      apply TaskGraph.depends_direct; in_deps.
  - (* reproject aggregate areas *)
    left. unfold TaskGraph.is_input. intuition.
  - (* aggregate *)
    destruct Hp as [<- | Hp].
    { produced_by TaskGraph.reproject_aggregate_areas_task.
      apply TaskGraph.depends_direct. in_deps.
      all: destruct (Execute.infiltration_data a), (Execute.replacement_cost a);
        simpl; auto 10. }
    unfold Execute.data_to_aggregate in Hp.
    rewrite !map_app, map_map in Hp. simpl in Hp.
    destruct Hp as [<- | [<- | Hp]].
    { produced_by TaskGraph.retention_ratio_task.
      apply TaskGraph.depends_trans with TaskGraph.retention_volume_task;
        [in_deps | exact Hvol]. }
    { produced_by TaskGraph.retention_volume_task.
      apply TaskGraph.depends_direct. in_deps. }
    rewrite !in_app_iff in Hp. destruct Hp as [Hp | [Hp | Hp]].
    + destruct (Execute.infiltration_data a) eqn:E; [|contradiction].
      destruct Hp as [<- | [<- | []]].
      * produced_by TaskGraph.infiltration_ratio_task.
        apply TaskGraph.depends_trans with TaskGraph.infiltration_volume_task.
        -- in_deps. all: rewrite E; simpl; auto.
        -- apply TaskGraph.depends_direct. in_deps.
      * produced_by TaskGraph.infiltration_volume_task.
        apply TaskGraph.depends_direct. in_deps. all: rewrite E; simpl; auto.
    + apply in_map_iff in Hp as [pollutant [<- Hin]]. simpl.
      produced_by (TaskGraph.avoided_load_task pollutant).
      apply TaskGraph.depends_direct. in_deps.
    + destruct (Execute.replacement_cost a) eqn:E; [|contradiction].
      destruct Hp as [<- | []].
      produced_by TaskGraph.valuation_task.
      apply TaskGraph.depends_direct. in_deps. all: rewrite E; simpl; auto 10.
Qed.

Definition example_run : Execute.args :=
  {| Execute.adjust_retention_ratios := true;
     Execute.infiltration_data := true;
     Execute.pollutants := ["n"%string; "p"%string];
     Execute.replacement_cost := true;
     Execute.aggregate_areas := true |}.

Lemma execute_reads_follow_dependencies_witness :
  TaskGraph.is_input Execute.retention_ratio_path \/
  exists u,
    TaskGraph.depends example_run TaskGraph.aggregate_task u /\
    In u (TaskGraph.tasks example_run) /\
    In Execute.retention_ratio_path (TaskGraph.target_path_list u).
Proof.
  apply (execute_reads_follow_dependencies example_run TaskGraph.aggregate_task
           Execute.retention_ratio_path).
  - simpl. auto 20.
  - simpl. auto.
Defined.

(** ** What is aggregated, and into which fields *)

Definition field_names (aggregations : list (Execute.path * string * Execute.statistic))
    : list string :=
  map (fun t => snd (fst t)) aggregations.

Lemma avoided_field_names_distinct (pollutants : list string) :
  NoDup pollutants ->
  NoDup (map (fun pollutant => ("avoided_" ++ pollutant)%string) pollutants).
Proof.
  induction 1 as [|p ps Hp Hnd IH]; simpl; constructor; trivial.
  intros Hin. apply in_map_iff in Hin as [q [Heq Hq]].
  simpl in Heq. injection Heq as ->. contradiction.
Qed.

(** X16. The field names [execute] asks [aggregate_results] to create are
    pairwise distinct as long as the pollutants are (they are the keys of a
    dict), so no aggregation writes into the field of another. *)
Theorem data_to_aggregate_fields_distinct (a : Execute.args) :
  NoDup (Execute.pollutants a) ->
  NoDup (field_names (Execute.data_to_aggregate a)).
Proof.
  intros Hnd. unfold field_names, Execute.data_to_aggregate.
  rewrite !map_app, map_map. simpl.
  assert (Hav : forall s, In s (map (fun x : string => ("avoided_" ++ x)%string)
                                    (Execute.pollutants a)) ->
                          exists q, s = ("avoided_" ++ q)%string).
  { intros s Hs. apply in_map_iff in Hs as [q [<- _]]. eauto. }
  assert (Htail : NoDup (map (fun x : string => ("avoided_" ++ x)%string)
                             (Execute.pollutants a)
                         ++ map (fun t : Execute.path * string * Execute.statistic =>
                                   snd (fst t))
                              (if Execute.replacement_cost a
                               then [(Execute.retention_value_path, "val_sum"%string,
                                      Execute.sum)]
                               else []))).
  { apply NoDup_app.
    - now apply avoided_field_names_distinct.
    - destruct (Execute.replacement_cost a); simpl; repeat constructor; auto.
    - intros s Hs Hs'. destruct (Hav s Hs) as [q ->].
      destruct (Execute.replacement_cost a); simpl in Hs'; [|contradiction].
      destruct Hs' as [H | []]. discriminate H. }
  assert (Hfixed : forall s,
            In s (map (fun x : string => ("avoided_" ++ x)%string)
                      (Execute.pollutants a)
                  ++ map (fun t : Execute.path * string * Execute.statistic =>
                            snd (fst t))
                       (if Execute.replacement_cost a
                        then [(Execute.retention_value_path, "val_sum"%string,
                               Execute.sum)]
                        else [])) ->
            s <> "RR_mean"%string /\ s <> "RV_sum"%string /\
            s <> "IR_mean"%string /\ s <> "IV_sum"%string).
  { intros s Hs. apply in_app_iff in Hs as [Hs | Hs].
    - destruct (Hav s Hs) as [q ->]. repeat split; discriminate.
    - destruct (Execute.replacement_cost a); simpl in Hs; [|contradiction].
      destruct Hs as [<- | []]. repeat split; discriminate. }
  destruct (Execute.infiltration_data a); simpl;
    repeat (constructor;
            [simpl; intros Hin;
             repeat (destruct Hin as [Hin | Hin]; [discriminate Hin|]);
             apply Hfixed in Hin; intuition congruence|]);
    exact Htail.
Qed.

Lemma data_to_aggregate_fields_distinct_witness :
  NoDup (field_names (Execute.data_to_aggregate example_run)).
Proof.
  apply (data_to_aggregate_fields_distinct example_run).
  repeat constructor; simpl; intuition discriminate.
Defined.

(** X17. For every run with an aggregation, the volume task reads
    [final_retention_ratio_path], which is the adjusted raster exactly when
    the adjustment is enabled, while the raster aggregated into [RR_mean] is
    always the unadjusted one: the two agree exactly when the adjustment is
    disabled. *)
Theorem execute_rr_mean_agrees_with_volume_input (a : Execute.args) :
  Execute.aggregate_areas a = true ->
  Execute.calculator_task Execute.volume_op_ Execute.retention_volume_path
                          (Execute.execute a)
  = Some [Execute.final_retention_ratio_path a;
          Execute.precipitation_aligned_path] /\
  (exists aggregations,
      Execute.aggregations_of (Execute.execute a) = Some aggregations /\
      Execute.aggregated_raster "RR_mean" aggregations
      = Some Execute.retention_ratio_path) /\
  (Execute.final_retention_ratio_path a = Execute.retention_ratio_path <->
   Execute.adjust_retention_ratios a = false).
Proof.
  intros Hagg. split; [|split].
  - unfold Execute.execute, Execute.retention_volume_task,
      Execute.final_retention_ratio_path.
    destruct (Execute.adjust_retention_ratios a); reflexivity.
  - exists (Execute.data_to_aggregate a). split.
    + now apply execute_aggregations.
    + apply execute_rr_mean_raster.
  - unfold Execute.final_retention_ratio_path.
    destruct (Execute.adjust_retention_ratios a); split; trivial; discriminate.
Qed.

Lemma execute_rr_mean_agrees_with_volume_input_witness :
  Execute.calculator_task Execute.volume_op_ Execute.retention_volume_path
                          (Execute.execute example_run)
  = Some [Execute.final_retention_ratio_path example_run;
          Execute.precipitation_aligned_path] /\
  (exists aggregations,
      Execute.aggregations_of (Execute.execute example_run) = Some aggregations /\
      Execute.aggregated_raster "RR_mean" aggregations
      = Some Execute.retention_ratio_path) /\
  (Execute.final_retention_ratio_path example_run = Execute.retention_ratio_path <->
   Execute.adjust_retention_ratios example_run = false).
Proof.
  apply (execute_rr_mean_agrees_with_volume_input example_run). reflexivity.
Defined.

(** ** [aggregate_results] *)

Lemma get_set_assoc_same name v l :
  match find (fun kv : string * Q => String.eqb (fst kv) name)
             (Aggregate.set_assoc name v l) with
  | Some kv => Some (snd kv)
  | None => None
  end = Some v.
Proof.
  induction l as [|[k w] l IH]; simpl.
  - now rewrite String.eqb_refl.
  - destruct (String.eqb k name) eqn:E; simpl; now rewrite E.
Qed.

Lemma get_set_assoc_other name name' v l :
  name' <> name ->
  find (fun kv : string * Q => String.eqb (fst kv) name')
       (Aggregate.set_assoc name v l)
  = find (fun kv : string * Q => String.eqb (fst kv) name') l.
Proof.
  intros Hne. induction l as [|[k w] l IH]; simpl.
  - assert (E : String.eqb name name' = false)
      by (apply String.eqb_neq; congruence).
    now rewrite E.
  - destruct (String.eqb k name) eqn:E; simpl.
    + apply String.eqb_eq in E. subst k.
      assert (E' : String.eqb name name' = false)
        by (apply String.eqb_neq; congruence).
      now rewrite E'.
    + destruct (String.eqb k name'); trivial.
Qed.

Lemma get_field_set_same name v f :
  Aggregate.get_field name (Aggregate.set_field name v f) = Some v.
Proof. unfold Aggregate.get_field, Aggregate.set_field. simpl. apply get_set_assoc_same. Qed.

Lemma get_field_set_other name name' v f :
  name' <> name ->
  Aggregate.get_field name' (Aggregate.set_field name v f)
  = Aggregate.get_field name' f.
Proof.
  intros H. unfold Aggregate.get_field, Aggregate.set_field. simpl.
  now rewrite get_set_assoc_other.
Qed.

(** X18. After [aggregate_results], over aggregations with pairwise distinct
    field names, every feature of the layer is still there with its FID, and
    holds in the field of each aggregation the statistic of that
    aggregation's raster for this feature: the sum, or the mean [sum / count],
    or 0 for a mean over no pixel; all its other fields are unchanged. *)
Theorem aggregate_results_fields
    (zonal_statistics : Execute.path -> Z -> Aggregate.stats)
    (aggregations : list (Execute.path * string * Execute.statistic))
    (layer : list Aggregate.feature) (k : nat) (f : Aggregate.feature) :
  NoDup (field_names aggregations) ->
  nth_error layer k = Some f ->
  exists f',
    nth_error (Aggregate.aggregate_results zonal_statistics layer aggregations) k
      = Some f' /\
    Aggregate.fid f' = Aggregate.fid f /\
    (forall raster_path field_id op,
        In (raster_path, field_id, op) aggregations ->
        let s := zonal_statistics raster_path (Aggregate.fid f) in
        exists value,
          Aggregate.get_field field_id f' = Some value /\
          (op = Execute.sum -> value = Aggregate.sum s) /\
          (op = Execute.mean -> Aggregate.count s = 0 -> value = 0%Q) /\
          (op = Execute.mean -> Aggregate.count s <> 0 ->
           value = (Aggregate.sum s / inject_Z (Aggregate.count s))%Q)) /\
    (forall name, ~ In name (field_names aggregations) ->
                  Aggregate.get_field name f' = Aggregate.get_field name f).
Proof.
  revert layer f.
  induction aggregations as [|[[raster0 field0] op0] aggregations IH];
    intros layer f Hnd Hf.
  - exists f. repeat split; trivial. intros ? ? ? [].
  - simpl in Hnd. apply NoDup_cons_iff in Hnd as [Hnotin Hnd].
    set (v0 := Aggregate.aggregate_value op0 (zonal_statistics raster0 (Aggregate.fid f))).
    assert (Hf1 : nth_error (Aggregate.aggregate_one zonal_statistics layer
                               (raster0, field0, op0)) k
                  = Some (Aggregate.set_field field0 v0 f)).
    { unfold Aggregate.aggregate_one.
      now apply (map_nth_error
                   (fun feature =>
                      Aggregate.set_field field0
                        (Aggregate.aggregate_value op0
                           (zonal_statistics raster0 (Aggregate.fid feature)))
                        feature)). }
    destruct (IH _ _ Hnd Hf1) as [f' [Hnth [Hfid [Haggs Hother]]]].
    exists f'. split; [exact Hnth|]. split; [exact Hfid|]. split.
    + intros raster_path field_id op [Heq | Hin] s.
      * injection Heq as <- <- <-.
        exists v0. split.
        -- rewrite (Hother field0 Hnotin). apply get_field_set_same.
        -- unfold v0, Aggregate.aggregate_value. fold s.
           destruct op0.
           ++ split; [discriminate|]. split.
              ** intros _ ->. reflexivity.
              ** intros _ Hc. apply Z.eqb_neq in Hc. now rewrite Hc.
           ++ split; [reflexivity|]. split; discriminate.
      * exact (Haggs raster_path field_id op Hin).
    + intros name Hname. simpl in Hname.
      rewrite Hother by tauto.
      apply get_field_set_other. intros ->. apply Hname. now left.
Qed.

Lemma aggregate_results_fields_witness :
  let zonal_statistics :=
    fun (_ : Execute.path) (fid : Z) =>
      if fid =? 1 then {| Aggregate.sum := 30 # 1; Aggregate.count := 2 |}
      else {| Aggregate.sum := 0; Aggregate.count := 0 |} in
  let aggregations :=
    [(Execute.retention_ratio_path, "RR_mean"%string, Execute.mean);
     (Execute.retention_volume_path, "RV_sum"%string, Execute.sum)] in
  let layer :=
    [{| Aggregate.fid := 1; Aggregate.fields := [("area"%string, 7 # 1)] |};
     {| Aggregate.fid := 2; Aggregate.fields := [] |}] in
  exists f',
    nth_error (Aggregate.aggregate_results zonal_statistics layer aggregations) 1
      = Some f' /\
    Aggregate.fid f' = 2 /\
    (forall raster_path field_id op,
        In (raster_path, field_id, op) aggregations ->
        let s := zonal_statistics raster_path 2 in
        exists value,
          Aggregate.get_field field_id f' = Some value /\
          (op = Execute.sum -> value = Aggregate.sum s) /\
          (op = Execute.mean -> Aggregate.count s = 0 -> value = 0%Q) /\
          (op = Execute.mean -> Aggregate.count s <> 0 ->
           value = (Aggregate.sum s / inject_Z (Aggregate.count s))%Q)) /\
    (forall name, ~ In name (field_names aggregations) ->
                  Aggregate.get_field name f'
                  = Aggregate.get_field name
                      {| Aggregate.fid := 2; Aggregate.fields := [] |}).
Proof.
  intros zonal_statistics aggregations layer.
  apply (aggregate_results_fields zonal_statistics aggregations layer 1%nat
           {| Aggregate.fid := 2; Aggregate.fields := [] |}).
  - repeat constructor; simpl; intuition discriminate.
  - reflexivity.
Defined.

(** ** [delineateit._threshold_streams] *)

Lemma threshold_streams_pixel flow_accum src_nodata out_nodata threshold i v :
  nth_error flow_accum i = Some v ->
  nth_error (DelineateIt._threshold_streams flow_accum src_nodata out_nodata
                                            threshold) i
  = Some (if isclose src_nodata v then DelineateIt.int8 out_nodata
          else if DelineateIt.gt_threshold threshold v then 1 else 0).
Proof.
  intros Hv. unfold DelineateIt._threshold_streams, DelineateIt.assign_scalar.
  pose proof (nth_error_full (length flow_accum) (DelineateIt.int8 out_nodata) i
                (nth_error_Some_lt _ _ _ Hv)) as Hfull.
  pose proof (map_nth_error (fun v => negb (isclose src_nodata v)) i flow_accum Hv)
    as Hvalid.
  pose proof (map_nth_error (DelineateIt.gt_threshold threshold) i flow_accum Hv)
    as Hover.
  pose proof (map_nth_error negb i _ Hover) as Hnover.
  pose proof (nth_error_zip_with andb _ _ _ _ _ Hvalid Hover) as Hm1.
  pose proof (nth_error_zip_with andb _ _ _ _ _ Hvalid Hnover) as Hm0.
  pose proof (nth_error_zip_with
                (fun (x : Z) (m : bool) => if m then DelineateIt.int8 1 else x)
                _ _ _ _ _ Hfull Hm1) as H1.
  rewrite (nth_error_zip_with
             (fun (x : Z) (m : bool) => if m then DelineateIt.int8 0 else x)
             _ _ _ _ _ H1 Hm0).
  destruct (isclose src_nodata v), (DelineateIt.gt_threshold threshold v);
    reflexivity.
Qed.

(** X19. [_threshold_streams] marks a valid pixel as a stream (1) when its
    flow accumulation is strictly above the threshold and as no stream (0)
    otherwise, a pixel just at the threshold included; a pixel that passes
    for nodata holds the fill value, the [int8] cast of [out_nodata], which
    is -1 for the 255 that [execute] passes. *)
Theorem threshold_streams_strict
    (flow_accum : list Q) (src_nodata : Q) (out_nodata : Z) (threshold : Q)
    (i : nat) (v : Q) :
  nth_error flow_accum i = Some v ->
  exists out,
    nth_error (DelineateIt._threshold_streams flow_accum src_nodata out_nodata
                                              threshold) i = Some out /\
    (isclose src_nodata v = false -> (threshold < v)%Q -> out = 1) /\
    (isclose src_nodata v = false -> (v <= threshold)%Q -> out = 0) /\
    (isclose src_nodata v = true -> out = DelineateIt.int8 out_nodata) /\
    (isclose src_nodata v = true -> out_nodata = 255 -> out = -1).
Proof.
  intros Hv. eexists. split; [exact (threshold_streams_pixel _ _ _ _ _ _ Hv)|].
  unfold DelineateIt.gt_threshold. repeat split.
  - intros -> Hlt.
    destruct (Qle_bool v threshold) eqn:E; trivial.
    apply Qle_bool_iff in E. exfalso. apply (Qlt_not_le _ _ Hlt E).
  - intros -> Hle. apply Qle_bool_iff in Hle. now rewrite Hle.
  - now intros ->.
  - intros -> ->. reflexivity.
Qed.

Lemma threshold_streams_strict_witness :
  exists out,
    nth_error (DelineateIt._threshold_streams
                 [1000 # 1; 1001 # 1; (-1) # 1] ((-1) # 1) 255 (1000 # 1)) 0
      = Some out /\
    (isclose ((-1) # 1) (1000 # 1) = false -> (1000 # 1 < 1000 # 1)%Q -> out = 1) /\
    (isclose ((-1) # 1) (1000 # 1) = false -> (1000 # 1 <= 1000 # 1)%Q -> out = 0) /\
    (isclose ((-1) # 1) (1000 # 1) = true -> out = DelineateIt.int8 255) /\
    (isclose ((-1) # 1) (1000 # 1) = true -> 255 = 255 -> out = -1).
Proof.
  apply (threshold_streams_strict
           [1000 # 1; 1001 # 1; (-1) # 1] ((-1) # 1) 255 (1000 # 1) 0%nat (1000 # 1)).
  reflexivity.
Defined.

(** ** [delineateit.snap_points_to_nearest_stream] *)

Lemma In_nonzero_eq_1 window r c :
  In (r, c) (DelineateIt.nonzero_eq_1 window) <->
  exists i j line,
    r = Z.of_nat i /\ c = Z.of_nat j /\
    nth_error window i = Some line /\ nth_error line j = Some 1.
Proof.
  unfold DelineateIt.nonzero_eq_1. rewrite in_flat_map. split.
  - intros [[i line] [Hin H]].
    apply In_combine_range in Hin as [k [-> Hk]].
    apply in_flat_map in H as [[j v] [Hin' H]].
    apply In_combine_range in Hin' as [k' [-> Hk']].
    destruct (v =? 1) eqn:E; [|contradiction].
    apply Z.eqb_eq in E. subst v.
    destruct H as [H | []]. injection H as <- <-.
    exists k, k', line. auto.
  - intros [i [j [line [-> [-> [Hi Hj]]]]]].
    exists (Z.of_nat i, line). split; [apply In_combine_range; eauto|].
    apply in_flat_map. exists (Z.of_nat j, 1). split.
    + apply In_combine_range; eauto.
    + simpl. now left.
Qed.

(** A cell of the window is the cell of the band at the window's offset. *)
Lemma ReadAsArray_cell raster xoff yoff xsize ysize i j line v :
  0 <= xoff -> 0 <= yoff ->
  nth_error (DelineateIt.ReadAsArray raster xoff yoff xsize ysize) i = Some line ->
  nth_error line j = Some v ->
  Z.of_nat i < ysize /\ Z.of_nat j < xsize /\
  raster_get raster (yoff + Z.of_nat i) (xoff + Z.of_nat j) = Some v.
Proof.
  intros Hx Hy Hi Hj. unfold DelineateIt.ReadAsArray in Hi.
  destruct (nth_error (firstn (Z.to_nat ysize) (skipn (Z.to_nat yoff) raster)) i)
    as [rline|] eqn:E.
  2:{ erewrite nth_error_map, E in Hi. discriminate. }
  rewrite nth_error_map, E in Hi. simpl in Hi. injection Hi as <-.
  rewrite nth_error_firstn in E, Hj.
  destruct (i <? Z.to_nat ysize)%nat eqn:Ei; [|discriminate].
  destruct (j <? Z.to_nat xsize)%nat eqn:Ej; [|discriminate].
  apply Nat.ltb_lt in Ei, Ej.
  rewrite nth_error_skipn in E, Hj.
  repeat split; try lia.
  replace (yoff + Z.of_nat i) with (Z.of_nat (Z.to_nat yoff + i)) by lia.
  replace (xoff + Z.of_nat j) with (Z.of_nat (Z.to_nat xoff + j)) by lia.
  eapply raster_get_of_nat; eauto.
Qed.

Lemma ReadAsArray_cell_inv raster xoff yoff xsize ysize r c :
  0 <= xoff -> 0 <= yoff ->
  yoff <= r < yoff + ysize -> xoff <= c < xoff + xsize ->
  raster_get raster r c = Some 1 ->
  In (r - yoff, c - xoff)
     (DelineateIt.nonzero_eq_1
        (DelineateIt.ReadAsArray raster xoff yoff xsize ysize)).
Proof.
  intros Hx Hy Hr Hc Hget.
  apply raster_get_nth in Hget as [_ [_ [rline [Hrline Hcell]]]].
  apply In_nonzero_eq_1.
  exists (Z.to_nat (r - yoff)), (Z.to_nat (c - xoff)),
         (firstn (Z.to_nat xsize) (skipn (Z.to_nat xoff) rline)).
  repeat split; try lia.
  - unfold DelineateIt.ReadAsArray. rewrite nth_error_map, nth_error_firstn.
    replace (Z.to_nat (r - yoff) <? Z.to_nat ysize)%nat with true
      by (symmetry; apply Nat.ltb_lt; lia).
    rewrite nth_error_skipn.
    replace (Z.to_nat yoff + Z.to_nat (r - yoff))%nat with (Z.to_nat r) by lia.
    now rewrite Hrline.
  - rewrite nth_error_firstn.
    replace (Z.to_nat (c - xoff) <? Z.to_nat xsize)%nat with true
      by (symmetry; apply Nat.ltb_lt; lia).
    rewrite nth_error_skipn.
    now replace (Z.to_nat xoff + Z.to_nat (c - xoff))%nat with (Z.to_nat c) by lia.
Qed.

Lemma argmin_In f best cells :
  In (DelineateIt.argmin f best cells) (best :: cells).
Proof.
  revert best. induction cells as [|c cells IH]; intros best; simpl; [now left|].
  destruct (Qle_bool (f best) (f c)).
  - destruct (IH best) as [H | H]; [now left | right; now right].
  - right. apply IH.
Qed.

Lemma argmin_le_best f best cells :
  (f (DelineateIt.argmin f best cells) <= f best)%Q.
Proof.
  revert best. induction cells as [|c cells IH]; intros best; simpl;
    [apply Qle_refl|].
  destruct (Qle_bool (f best) (f c)) eqn:E.
  - apply IH.
  - assert (Hlt : (f c < f best)%Q).
    { apply Qnot_le_lt. intros H. apply Qle_bool_iff in H. congruence. }
    eapply Qle_trans; [apply IH | now apply Qlt_le_weak].
Qed.

(** [argmin] returns a cell of the least distance. *)
Lemma argmin_least f best cells c :
  In c (best :: cells) -> (f (DelineateIt.argmin f best cells) <= f c)%Q.
Proof.
  revert best. induction cells as [|c0 cells IH]; intros best Hin; simpl.
  - destruct Hin as [<- | []]. apply Qle_refl.
  - destruct (Qle_bool (f best) (f c0)) eqn:E.
    + apply Qle_bool_iff in E.
      destruct Hin as [<- | [<- | Hin]].
      * apply argmin_le_best.
      * eapply Qle_trans; [apply argmin_le_best | exact E].
      * apply IH. now right.
    + assert (Hlt : (f c0 < f best)%Q).
      { apply Qnot_le_lt. intros H. apply Qle_bool_iff in H. congruence. }
      destruct Hin as [<- | [<- | Hin]].
      * eapply Qle_trans; [apply argmin_le_best | now apply Qlt_le_weak].
      * apply argmin_le_best.
      * apply IH. now right.
Qed.

Section SnapPoint.
Variable hypot : Z -> Z -> Q.
Variable gt : DelineateIt.geotransform.
Variables n_cols n_rows : Z.
Variable stream_band : list (list Z).
Variable snap_distance : Z.
Variable point : Q * Q.

Let x := Qfloor ((fst point - DelineateIt.origin_x gt) / DelineateIt.pixel_width gt).
Let y := Qfloor ((snd point - DelineateIt.origin_y gt) / DelineateIt.pixel_height gt).
Let x_left := Z.max (x - snap_distance) 0.
Let y_top := Z.max (y - snap_distance) 0.
Let x_right := Z.min (x + snap_distance) n_cols.
Let y_bottom := Z.min (y + snap_distance) n_rows.
Let cells :=
  DelineateIt.nonzero_eq_1
    (DelineateIt.ReadAsArray stream_band x_left y_top
                             (x_right - x_left) (y_bottom - y_top)).
Let distance := fun rc : Z * Z =>
  hypot (fst rc - y - y_top) (snd rc - x - x_left).

Hypothesis width_nonzero : ~ (DelineateIt.pixel_width gt == 0)%Q.
Hypothesis height_nonzero : ~ (DelineateIt.pixel_height gt == 0)%Q.

Lemma snap_point_outside :
  x < 0 \/ n_cols <= x \/ y < 0 \/ n_rows < y ->
  DelineateIt.snap_point hypot gt n_cols n_rows stream_band snap_distance point = Ok None.
Proof.
  intros H. unfold DelineateIt.snap_point.
  destruct (Qeq_bool (DelineateIt.pixel_width gt) 0) eqn:Ew;
    [apply Qeq_bool_iff in Ew; contradiction|].
  destruct (Qeq_bool (DelineateIt.pixel_height gt) 0) eqn:Eh;
    [apply Qeq_bool_iff in Eh; contradiction|].
  cbn [orb]. fold x y.
  replace ((x <? 0) || (n_cols <=? x) || (y <? 0) || (n_rows <? y)) with true;
    trivial.
  symmetry. rewrite !orb_true_iff, !Z.ltb_lt, Z.leb_le. tauto.
Qed.

(** The pixel a point inside the bounds is moved to: its own pixel when the
    window holds no stream cell, and otherwise the cell of the window that
    [argmin] picks. *)
Lemma snap_point_inside :
  0 <= x < n_cols -> 0 <= y <= n_rows ->
  exists X Y,
    DelineateIt.snap_point hypot gt n_cols n_rows stream_band snap_distance point
      = Ok (Some (DelineateIt.pixel_centre gt X Y)) /\
    ((cells = [] /\ X = x /\ Y = y) \/
     (exists r c,
         In (r, c) cells /\ X = x_left + c /\ Y = y_top + r /\
         forall rc, In rc cells -> (distance (r, c) <= distance rc)%Q)).
Proof.
  intros Hx Hy. unfold DelineateIt.snap_point.
  destruct (Qeq_bool (DelineateIt.pixel_width gt) 0) eqn:Ew;
    [apply Qeq_bool_iff in Ew; contradiction|].
  destruct (Qeq_bool (DelineateIt.pixel_height gt) 0) eqn:Eh;
    [apply Qeq_bool_iff in Eh; contradiction|].
  cbn [orb]. fold x y.
  replace ((x <? 0) || (n_cols <=? x) || (y <? 0) || (n_rows <? y)) with false.
  2:{ symmetry. rewrite !orb_false_iff, !Z.ltb_ge, Z.leb_gt. lia. }
  cbv zeta. fold x_left y_top x_right y_bottom. fold cells.
  destruct cells as [|first rest] eqn:Ecells.
  - exists x, y. split; [reflexivity|]. left. auto.
  - fold distance.
    pose proof (argmin_In distance first rest) as Hin.
    pose proof (fun rc => argmin_least distance first rest rc) as Hleast.
    destruct (DelineateIt.argmin distance first rest) as [min_row min_col].
    exists (x_left + min_col), (y_top + min_row). split.
    + unfold DelineateIt.pixel_centre.
      replace (x + (min_col - (x - x_left))) with (x_left + min_col) by lia.
      replace (y + (min_row - (y - y_top))) with (y_top + min_row) by lia.
      reflexivity.
    + right. exists min_row, min_col. auto.
Qed.
End SnapPoint.


Definition example_gt : DelineateIt.geotransform :=
  {| DelineateIt.origin_x := 0; DelineateIt.pixel_width := 2 # 1;
     DelineateIt.origin_y := 10 # 1; DelineateIt.pixel_height := (-2) # 1 |}.

Definition example_streams : list (list Z) :=
  [[0; 0; 0; 0];
   [0; 0; 0; 1];
   [1; 0; 0; 0]].




(** Offsets of different exact lengths can have one float32 length: 4097
    and sqrt (4097^2 + 1) both come out as 4097. *)
Example float32_hypot_ties :
  Qeq (Float32.hypot 0 4097) (Float32.hypot 1 4097) /\
  Qeq (Float32.hypot 1 1) (11863283 # 8388608) /\
  Qeq (Float32.hypot 3 4) (5 # 1).
Proof. repeat split; vm_compute; reflexivity. Qed.

(** A raster of 3 rows and 2053 columns with stream pixels in column 2050 of
    rows 0 and 1, and a point in the pixel of row 1, column 2051, snapped
    with a distance of 3. The window starts at column 2048, so the distances
    are taken from column 4099: both stream pixels are at 4097.0 in float32,
    and the point goes to the first of them, in row 0. *)
Definition wide_streams : list (list Z) :=
  [repeat 0 2050 ++ [1; 0; 0]; repeat 0 2050 ++ [1; 0; 0]; repeat 0 2053].

Example snap_point_float32_tie :
  DelineateIt.snap_point Float32.hypot example_gt 2053 3 wide_streams 3
    (4103 # 1, 7 # 1)
  = Ok (Some (DelineateIt.pixel_centre example_gt 2050 0)).
Proof. vm_compute. reflexivity. Qed.



(** The two points of the example: the first is snapped from pixel (2, 1)
    onto the stream pixel (3, 1), the second lies outside the raster. *)
Example snap_points_example :
  DelineateIt.snap_points_to_nearest_stream Float32.hypot example_gt 4 3
     example_streams 2
    [(5 # 1, 7 # 1); (100 # 1, 7 # 1)]
  = Ok [DelineateIt.pixel_centre example_gt 3 1].
Proof. reflexivity. Qed.

(** ** [volume_op] by kind of sentinel *)

(** X23. What [volume_op] does with the precipitation sentinel. For a
    sentinel other than zero a pixel is valid when neither its ratio nor its
    precipitation passes for nodata, and then holds
    [precipitation * ratio * pixel_area * 0.001]; every other pixel holds
    [FLOAT_NODATA]. For no sentinel ([None]) or a sentinel of zero the
    precipitation is not tested: the ratio alone decides. *)
Theorem volume_op_by_sentinel
    (ratio_array precip_array : list Q) (precip_nodata : option Q)
    (pixel_area : Q) (i : nat) (r p : Q) :
  nth_error ratio_array i = Some r ->
  nth_error precip_array i = Some p ->
  exists out,
    nth_error (volume_op ratio_array precip_array precip_nodata pixel_area) i
      = Some out /\
    (isclose r FLOAT_NODATA = true -> out = FLOAT_NODATA) /\
    (forall nd, precip_nodata = Some nd -> ~ (nd == 0)%Q ->
       (isclose p nd = true -> out = FLOAT_NODATA) /\
       (isclose r FLOAT_NODATA = false -> isclose p nd = false ->
        out = (p * r * pixel_area * (1 # 1000))%Q)) /\
    (precip_nodata = None \/ (exists nd, precip_nodata = Some nd /\ (nd == 0)%Q) ->
     isclose r FLOAT_NODATA = false ->
     out = (p * r * pixel_area * (1 # 1000))%Q).
Proof.
  intros Hr Hp. eexists.
  split; [exact (volume_op_pixel _ _ _ _ _ _ _ Hr Hp)|].
  unfold volume_valid, truthy. split; [now intros ->|]. split.
  - intros nd -> Hnd.
    destruct (Qeq_bool nd 0) eqn:E; [apply Qeq_bool_iff in E; contradiction|].
    cbn [negb]. cbv iota. split.
    + intros ->. now rewrite andb_false_r.
    + now intros -> ->.
  - intros [-> | [nd [-> Hnd]]] ->; trivial.
    apply Qeq_bool_iff in Hnd. now rewrite Hnd.
Qed.

Lemma volume_op_by_sentinel_witness :
  exists out,
    nth_error (volume_op [3 # 10; (-1) # 1] [100 # 1; 100 # 1]
                         (Some ((-9999) # 1)) (400 # 1)) 0
      = Some out /\
    (isclose (3 # 10) FLOAT_NODATA = true -> out = FLOAT_NODATA) /\
    (forall nd, Some ((-9999) # 1) = Some nd -> ~ (nd == 0)%Q ->
       (isclose (100 # 1) nd = true -> out = FLOAT_NODATA) /\
       (isclose (3 # 10) FLOAT_NODATA = false -> isclose (100 # 1) nd = false ->
        out = ((100 # 1) * (3 # 10) * (400 # 1) * (1 # 1000))%Q)) /\
    (Some ((-9999) # 1) = None \/
     (exists nd, Some ((-9999) # 1) = Some nd /\ (nd == 0)%Q) ->
     isclose (3 # 10) FLOAT_NODATA = false ->
     out = ((100 # 1) * (3 # 10) * (400 # 1) * (1 # 1000))%Q).
Proof.
  apply (volume_op_by_sentinel [3 # 10; (-1) # 1] [100 # 1; 100 # 1]
           (Some ((-9999) # 1)) (400 # 1) 0%nat (3 # 10) (100 # 1));
    reflexivity.
Defined.
